(** * semantic-search-mcp: chunking, indexing and hybrid retrieval

    A shallow embedding of [src/search.ts] and [src/vectordb.ts].

    - JavaScript strings are sequences of UTF-16 code units: [list N].
    - Lengths are [nat]; line numbers and chunk ordinals are [Z].
    - Scores and distances are exact rationals ([Q]); the rounding of
      IEEE doubles is not modelled.
    - The vector store, the file system, the embedding model, the clock
      and the [path] and [crypto] helpers of Node are parameters. *)

From Stdlib Require Import String Ascii DecimalString.
From Stdlib Require Import List NArith ZArith QArith Qminmax Bool Lia Lqa.
From Stdlib Require Import Permutation Sorted.
From Stdlib Require Floats.SpecFloat.
Import ListNotations.

(** ** JavaScript strings *)

Module JsString.

Definition jsstring := list N.

(** ASCII literals, for examples. *)
Definition str (s : string) : jsstring :=
  map N_of_ascii (list_ascii_of_string s).

Definition LF : N := 10%N.

(** The class [\s] of ECMAScript regular expressions, which is also the
    set stripped by [String.prototype.trim]: WhiteSpace and
    LineTerminator code points. *)
Definition is_ws (c : N) : bool :=
  ((9 <=? c) && (c <=? 13) || (c =? 32) || (c =? 160) || (c =? 5760)
   || (8192 <=? c) && (c <=? 8202) || (c =? 8232) || (c =? 8233)
   || (c =? 8239) || (c =? 8287) || (c =? 12288) || (c =? 65279))%N.

Fixpoint drop_ws (s : jsstring) : jsstring :=
  match s with
  | [] => []
  | c :: s' => if is_ws c then drop_ws s' else s
  end.

(** [s.trim()] *)
Definition trim (s : jsstring) : jsstring :=
  rev (drop_ws (rev (drop_ws s))).

(** [!s] for a string [s] *)
Definition is_empty (s : jsstring) : bool :=
  match s with [] => true | _ => false end.

(** [s.split('\n')], for any single separator code unit. *)
Fixpoint split_char_go (sep : N) (cur : jsstring) (s : jsstring)
  : list jsstring :=
  match s with
  | [] => [cur]
  | c :: s' =>
      if (c =? sep)%N then cur :: split_char_go sep [] s'
      else split_char_go sep (cur ++ [c]) s'
  end.

Definition split_char (sep : N) (s : jsstring) : list jsstring :=
  split_char_go sep [] s.

(** The regular expression [/\n\s*\n/], matched at the head of [s].

    [sep_tail t] is the number of code units of [t] consumed by the
    greedy [\s*\n]: the star first takes one more whitespace unit and
    the rest must match; when that fails it gives the unit back, which
    must then be the closing line feed. *)
Fixpoint sep_tail (t : jsstring) : option nat :=
  match t with
  | [] => None
  | c :: t' =>
      if is_ws c then
        match sep_tail t' with
        | Some n => Some (S n)
        | None => if (c =? LF)%N then Some 1%nat else None
        end
      else None
  end.

Definition match_sep (s : jsstring) : option nat :=
  match s with
  | [] => None
  | c :: t =>
      if (c =? LF)%N then
        match sep_tail t with Some n => Some (S n) | None => None end
      else None
  end.

(** [s.split(/\n\s*\n/)], after RegExp.prototype[Symbol.split]: scan
    from the left; where the expression matches, close the current
    piece and resume after the match; otherwise move one unit on.  The
    piece after the last match is always pushed, so the result is never
    empty.  [skip] counts the units of a match still to be passed. *)
Fixpoint split_go (skip : nat) (cur : jsstring) (s : jsstring)
  : list jsstring :=
  match s with
  | [] => [cur]
  | c :: s' =>
      match skip with
      | S k => split_go k cur s'
      | O =>
          match match_sep s with
          | Some n => cur :: split_go (Nat.pred n) [] s'
          | None => split_go 0 (cur ++ [c]) s'
          end
      end
  end.

Definition split_paragraphs (s : jsstring) : list jsstring :=
  split_go 0 [] s.

(** [s.split(/\s+/)]: a maximal run of whitespace separates two
    pieces; [in_sep] tells that the scan is inside such a run. *)
Fixpoint split_ws_go (in_sep : bool) (cur : jsstring) (s : jsstring)
  : list jsstring :=
  match s with
  | [] => [cur]
  | c :: s' =>
      if is_ws c then
        if in_sep then split_ws_go true cur s'
        else cur :: split_ws_go true [] s'
      else split_ws_go false (cur ++ [c]) s'
  end.

Definition split_ws (s : jsstring) : list jsstring :=
  split_ws_go false [] s.

(** [s.startsWith(k)] and [s.includes(k)] *)
Fixpoint starts_with (s k : jsstring) {struct k} : bool :=
  match k, s with
  | [], _ => true
  | _ :: _, [] => false
  | a :: k', b :: s' => (a =? b)%N && starts_with s' k'
  end.

Fixpoint includes (s k : jsstring) : bool :=
  starts_with s k ||
  match s with
  | [] => false
  | _ :: s' => includes s' k
  end.

End JsString.

Import JsString.

(** ** The chunker ([chunkDocument], [createChunk]) *)

Module Chunker.

Record Metadata := {
  file_name : jsstring;
  directory : jsstring;
  indexed_at : jsstring;
  char_count : nat
}.

(** [Omit<DocumentChunk, 'embedding'>] *)
Record Chunk := {
  id : jsstring;
  text : jsstring;
  file_path : jsstring;
  line_start : Z;
  line_end : Z;
  chunk_index : Z;
  metadata : Metadata
}.

Definition maxChunkSize : nat := 1000.
Definition minChunkSize : nat := 200.

(** The paragraph separator ['\n\n'] used when joining. *)
Definition para_sep : jsstring := [LF; LF].

Section WithNode.

(** Node's [path.resolve], [path.basename], [path.dirname]; the first
    16 hex digits of the SHA-256 of [`${normalizedPath}-${chunkIndex}`];
    and the reading [new Date().toISOString()] of the clock. *)
Variable path_resolve path_basename path_dirname : jsstring -> jsstring.
Variable sha256_hex16 : jsstring -> Z -> jsstring.
Variable now : jsstring.

Definition createChunk (txt filePath : jsstring)
           (lineStart lineEnd chunkIndex : Z) : Chunk :=
  let normalizedPath := path_resolve filePath in
  {| id := sha256_hex16 normalizedPath chunkIndex;
     text := trim txt;
     file_path := normalizedPath;
     line_start := lineStart;
     line_end := lineEnd;
     chunk_index := chunkIndex;
     metadata := {| file_name := path_basename filePath;
                    directory := path_dirname filePath;
                    indexed_at := now;
                    char_count := length txt |} |}.

(** The mutable locals of [chunkDocument]. *)
Record Loop := {
  chunks : list Chunk;
  currentChunk : jsstring;
  currentLineStart : Z;
  currentLineCount : Z;
  chunkIndex : Z
}.

Definition loop_init : Loop :=
  {| chunks := []; currentChunk := []; currentLineStart := 1;
     currentLineCount := 0; chunkIndex := 0 |}.

(** Does the buffer have to be saved before [trimmedPara] is taken? *)
Definition must_flush (cur trimmedPara : jsstring) : bool :=
  (0 <? length cur)%nat
  && (maxChunkSize <? length cur + length trimmedPara)%nat
  && (minChunkSize <=? length cur)%nat.

(** One iteration of [for (const paragraph of paragraphs)]. *)
Definition loop_body (filePath : jsstring) (st : Loop)
           (paragraph : jsstring) : Loop :=
  let trimmedPara := trim paragraph in
  if is_empty trimmedPara then st
  else
    let paraLineCount := Z.of_nat (length (split_char LF trimmedPara)) in
    if must_flush (currentChunk st) trimmedPara then
      {| chunks := chunks st ++
                   [createChunk (currentChunk st) filePath
                      (currentLineStart st)
                      (currentLineStart st + currentLineCount st - 1)
                      (chunkIndex st)];
         currentChunk := trimmedPara;
         currentLineStart := currentLineStart st + currentLineCount st;
         currentLineCount := paraLineCount;
         chunkIndex := chunkIndex st + 1 |}
    else
      {| chunks := chunks st;
         currentChunk :=
           if (0 <? length (currentChunk st))%nat
           then currentChunk st ++ para_sep ++ trimmedPara
           else trimmedPara;
         currentLineStart := currentLineStart st;
         currentLineCount := currentLineCount st + paraLineCount;
         chunkIndex := chunkIndex st |}.

(** The final [if] of [chunkDocument]. *)
Definition final_flush (filePath : jsstring) (st : Loop) : list Chunk :=
  if (minChunkSize <=? length (currentChunk st))%nat
     || (length (chunks st) =? 0)%nat
  then chunks st ++
       [createChunk (currentChunk st) filePath
          (currentLineStart st)
          (currentLineStart st + currentLineCount st - 1)
          (chunkIndex st)]
  else chunks st.

Definition chunkDocument (content filePath : jsstring) : list Chunk :=
  let paragraphs := split_paragraphs content in
  final_flush filePath (fold_left (loop_body filePath) paragraphs loop_init).

End WithNode.

End Chunker.

(** ** Errors and the effect monad

    An [async] function is a computation on the state of the world that
    returns a value or throws; what it did to the state before throwing
    stays done. *)

Module Effects.

Inductive error : Type :=
  | ConnectFailed                       (* mkdir / lancedb.connect threw *)
  | OpenTableFailed                     (* tableNames / openTable threw *)
  | TableExists                         (* createTable on an existing table *)
  | StoreWriteFailed                    (* createTable / table.add threw *)
  | StoreDeleteFailed                   (* table.delete threw *)
  | StoreQueryFailed                    (* vectorSearch(...).toArray() threw *)
  | EmbeddingFailed                     (* the embedding service threw *)
  | ReadFileFailed                      (* fs.readFile threw *)
  | GlobFailed                          (* glob.sync threw *)
  | ImportFailed                        (* import('glob') was rejected *)
  | InitializeError (cause : error)     (* 'Failed to initialize LanceDB: ...' *)
  | NotInitialized                      (* 'Database not initialized' *)
  | AddChunksError (cause : error)      (* 'Failed to add chunks: ...' *)
  | SearchError (cause : error)         (* 'Search failed: ...' *)
  | IndexFileError (filePath : jsstring) (cause : error)
                                        (* 'Failed to index <file>: ...' *)
  | IndexDirectoryError (dirPath : jsstring) (cause : error).
                                        (* 'Failed to index directory ...' *)

Inductive result (A : Type) : Type :=
  | Ok (a : A)
  | Err (e : error).
Arguments Ok {A} a.
Arguments Err {A} e.

Section Monad.
Variable S : Type.

Definition M (A : Type) : Type := S -> result A * S.

Definition ret {A} (a : A) : M A := fun s => (Ok a, s).
Definition throw {A} (e : error) : M A := fun s => (Err e, s).
Definition bind {A B} (m : M A) (k : A -> M B) : M B :=
  fun s => match m s with
           | (Ok a, s') => k a s'
           | (Err e, s') => (Err e, s')
           end.
(** [try { m } catch (error) { h error }] *)
Definition try_catch {A} (m : M A) (h : error -> M A) : M A :=
  fun s => match m s with
           | (Ok a, s') => (Ok a, s')
           | (Err e, s') => h e s'
           end.
Definition get : M S := fun s => (Ok s, s).
Definition put (s : S) : M unit := fun _ => (Ok tt, s).
(** An external call that answers or throws. *)
Definition lift_option {A} (o : option A) (e : error) : M A :=
  match o with Some a => ret a | None => throw e end.
Definition guard (b : bool) (e : error) : M unit :=
  if b then ret tt else throw e.
End Monad.

Arguments ret {S A} a.
Arguments throw {S A} e.
Arguments bind {S A B} m k.
Arguments try_catch {S A} m h.
Arguments get {S}.
Arguments put {S} s.
Arguments lift_option {S A} o e.
Arguments guard {S} b e.

Declare Scope effect_scope.
Delimit Scope effect_scope with eff.
Notation "x <- m ;; k" := (bind m (fun x => k))
  (at level 61, m at next level, right associativity) : effect_scope.
Notation "m ;;; k" := (bind m (fun _ => k))
  (at level 61, right associativity) : effect_scope.

End Effects.

Import Effects.

(** ** The store adapter ([vectordb.ts]) *)

Module VectorDb.

Import Chunker.

(** A row of table [document_chunks], as [addChunks] lays it out. *)
Definition QUOTE : N := 39%N.

Record Row := {
  row_id : jsstring;
  row_text : jsstring;
  row_embedding : list Q;
  row_file_path : jsstring;
  row_line_start : Z;
  row_line_end : Z;
  row_chunk_index : Z;
  row_file_name : jsstring;
  row_directory : jsstring;
  row_indexed_at : jsstring;
  row_char_count : nat
}.

Record DocumentChunk := {
  dc_id : jsstring;
  dc_text : jsstring;
  dc_embedding : list Q;
  dc_file_path : jsstring;
  dc_line_start : Z;
  dc_line_end : Z;
  dc_chunk_index : Z;
  dc_metadata : Metadata
}.

Record SearchResult := {
  chunk : DocumentChunk;
  score : Q;
  distance : Q
}.

(** The [VectorDatabase] singleton and the table it stores: [db] and
    [table] say whether [this.db] and [this.table] are set, [disk] is
    the stored table, if there is one, rows in insertion order. *)
Record World := {
  db : bool;
  table : bool;
  disk : option (list Row)
}.

(** What [await import('glob')] and then [glob.sync(pattern, {cwd, ...})]
    come to: the module cannot be loaded, the listing throws, or the
    files. *)
Inductive Listing : Type :=
  | ImportRejected
  | SyncThrew
  | Listed (files : list jsstring).

(** What lies outside the program: Node's helpers and clock, the file
    system, the embedding model and the answers of LanceDB.  A call
    that throws is a [false] or a [None]. *)
Record Env := {
  path_resolve : jsstring -> jsstring;
  path_basename : jsstring -> jsstring;
  path_dirname : jsstring -> jsstring;
  sha256_hex16 : jsstring -> Z -> jsstring;
  now : jsstring;
  to_lower : jsstring -> jsstring;            (* String.prototype.toLowerCase *)
  read_file : jsstring -> option jsstring;    (* fs.readFile(p, 'utf-8') *)
  glob_sync : jsstring -> jsstring -> Listing;
                                              (* import('glob'), then
                                                 glob.sync(pattern, {cwd, ...}) *)
  embed : jsstring -> option (list Q);        (* EmbeddingService.embed *)
  connect_ok : bool;                          (* fs.mkdir, lancedb.connect *)
  open_ok : bool;                             (* db.tableNames, db.openTable *)
  write_ok : list Row -> bool;                (* db.createTable, table.add *)
  delete_ok : jsstring -> bool;               (* table.delete(predicate) *)
  vector_search :
    list Row -> list Q -> nat -> option jsstring ->
    option (list (Row * option Q))            (* vectorSearch(v).limit(n)
                                                 [.where(predicate)].toArray():
                                                 rows with their _distance *)
}.

(** [s.replace(/'/g, "''")] *)
Fixpoint escape_quotes (s : jsstring) : jsstring :=
  match s with
  | [] => []
  | c :: s' =>
      if (c =? QUOTE)%N then QUOTE :: QUOTE :: escape_quotes s'
      else c :: escape_quotes s'
  end.

(** [`file_path = '${normalizedPath.replace(/'/g, "''")}'`] *)
Definition path_predicate (normalizedPath : jsstring) : jsstring :=
  str "file_path = '" ++ escape_quotes normalizedPath ++ [QUOTE].

(** The store's reading of such a predicate (its filters are SQL): after
    the opening quote a string literal runs to the first quote that is
    not doubled, a doubled quote standing for one quote; nothing may
    follow the literal. *)
Fixpoint sql_literal (s : jsstring) : option jsstring :=
  match s with
  | [] => None
  | c :: s' =>
      if (c =? QUOTE)%N then
        match s' with
        | [] => Some []
        | d :: s'' =>
            if (d =? QUOTE)%N then option_map (cons QUOTE) (sql_literal s'')
            else None
        end
      else option_map (cons c) (sql_literal s')
  end.

Fixpoint strip_prefix (pre s : jsstring) {struct pre} : option jsstring :=
  match pre, s with
  | [], _ => Some s
  | a :: pre', b :: s' => if (a =? b)%N then strip_prefix pre' s' else None
  | _ :: _, [] => None
  end.

Definition predicate_path (predicate : jsstring) : option jsstring :=
  match strip_prefix (str "file_path = '") predicate with
  | Some lit => sql_literal lit
  | None => None
  end.

Definition rows (w : World) : list Row :=
  match disk w with Some rs => rs | None => [] end.

Fixpoint jsstring_eqb (a b : jsstring) : bool :=
  match a, b with
  | [], [] => true
  | x :: a', y :: b' => (x =? y)%N && jsstring_eqb a' b'
  | _, _ => false
  end.

Open Scope effect_scope.

Section WithEnv.

Variable e : Env.

(** [initialize]: [this.db] is assigned as soon as the connection is
    made, so a failure while listing or opening the table leaves
    [this.db] set and [this.table] null. *)
Definition initialize : M World unit := fun w =>
  if db w then (Ok tt, w)
  else if negb (connect_ok e) then (Err (InitializeError ConnectFailed), w)
  else
    let w1 := {| db := true; table := table w; disk := disk w |} in
    if negb (open_ok e) then (Err (InitializeError OpenTableFailed), w1)
    else
      match disk w with
      | Some _ => (Ok tt, {| db := true; table := true; disk := disk w |})
      | None => (Ok tt, w1)
      end.

(** [EmbeddingService.embedBatch]: every text is embedded, and one
    failure fails the call. *)
Fixpoint embedBatch (texts : list jsstring) : option (list (list Q)) :=
  match texts with
  | [] => Some []
  | t :: ts =>
      match embed e t, embedBatch ts with
      | Some v, Some vs => Some (v :: vs)
      | _, _ => None
      end
  end.

Definition row_of (c : Chunk) (v : list Q) : Row :=
  {| row_id := id c;
     row_text := text c;
     row_embedding := v;
     row_file_path := file_path c;
     row_line_start := line_start c;
     row_line_end := line_end c;
     row_chunk_index := chunk_index c;
     row_file_name := file_name (metadata c);
     row_directory := directory (metadata c);
     row_indexed_at := indexed_at (metadata c);
     row_char_count := char_count (metadata c) |}.

(** [chunks.map((chunk, i) => ({..., embedding: embeddings[i], ...}))];
    [embedBatch] returns one vector per text. *)
Definition chunksWithEmbeddings (cs : list Chunk) (vs : list (list Q))
  : list Row :=
  map (fun cv => row_of (fst cv) (snd cv)) (combine cs vs).

(** [db.createTable(name, rows)] (mode 'create': refused when the
    table exists) and [table.add(rows)]. *)
Definition createTable (rs : list Row) : M World unit := fun w =>
  match disk w with
  | Some _ => (Err TableExists, w)
  | None =>
      if write_ok e rs
      then (Ok tt, {| db := db w; table := true; disk := Some rs |})
      else (Err StoreWriteFailed, w)
  end.

Definition tableAdd (rs : list Row) : M World unit := fun w =>
  if write_ok e rs
  then (Ok tt, {| db := db w; table := table w;
                  disk := Some (rows w ++ rs) |})
  else (Err StoreWriteFailed, w).

Definition addChunks (cs : list Chunk) : M World unit :=
  initialize ;;;
  w <- get ;;
  guard (db w) NotInitialized ;;;
  if (length cs =? 0)%nat then ret tt
  else
    try_catch
      (vs <- lift_option (embedBatch (map text cs)) EmbeddingFailed ;;
       let rs := chunksWithEmbeddings cs vs in
       w' <- get ;;
       if negb (table w') then createTable rs else tableAdd rs)
      (fun err => throw (AddChunksError err)).

(** [table.delete(predicate)]: the rows the predicate selects go; a
    predicate the store cannot read is refused. *)
Definition tableDelete (predicate : jsstring) : M World unit :=
  fun w =>
    if delete_ok e predicate then
      match predicate_path predicate with
      | Some p =>
          (Ok tt,
           {| db := db w; table := table w;
              disk := Some (filter
                              (fun r => negb (jsstring_eqb (row_file_path r) p))
                              (rows w)) |})
      | None => (Err StoreDeleteFailed, w)
      end
    else (Err StoreDeleteFailed, w).

Definition deleteFileChunks (filePath : jsstring) : M World Z :=
  initialize ;;;
  w <- get ;;
  if negb (table w) then ret 0%Z
  else
    try_catch
      (let normalizedPath := path_resolve e filePath in
       tableDelete (path_predicate normalizedPath) ;;;
       ret 1%Z)
      (fun _ => ret 0%Z).

(** [result._distance || 0] *)
Definition distance_or_zero (d : option Q) : Q :=
  match d with Some q => q | None => 0 end.

Definition to_result (rd : Row * option Q) : SearchResult :=
  let result := fst rd in
  {| chunk := {| dc_id := row_id result;
                 dc_text := row_text result;
                 dc_embedding := row_embedding result;
                 dc_file_path := row_file_path result;
                 dc_line_start := row_line_start result;
                 dc_line_end := row_line_end result;
                 dc_chunk_index := row_chunk_index result;
                 dc_metadata :=
                   {| file_name := row_file_name result;
                      directory := row_directory result;
                      indexed_at := row_indexed_at result;
                      char_count := row_char_count result |} |};
     score := 1 - distance_or_zero (snd rd);
     distance := distance_or_zero (snd rd) |}.

(** [if (filePathFilter) { ... searchQuery.where(predicate) }]; the
    empty string is falsy. *)
Definition where_clause (filePathFilter : option jsstring)
  : option jsstring :=
  match filePathFilter with
  | Some p =>
      if is_empty p then None else Some (path_predicate (path_resolve e p))
  | None => None
  end.

Definition search (query : jsstring) (limit : nat)
           (filePathFilter : option jsstring) : M World (list SearchResult) :=
  initialize ;;;
  w <- get ;;
  if negb (table w) then ret []
  else
    try_catch
      (queryEmbedding <- lift_option (embed e query) EmbeddingFailed ;;
       results <- lift_option
                    (vector_search e (rows w) queryEmbedding limit
                       (where_clause filePathFilter))
                    StoreQueryFailed ;;
       ret (map to_result results))
      (fun err => throw (SearchError err)).

End WithEnv.

End VectorDb.

(** ** The indexer ([indexFile], [indexDirectory]) *)

Module Indexer.

Import Chunker VectorDb.

Open Scope effect_scope.

(** [{ indexed, failed }] *)
Record IndexReport := {
  indexed : nat;
  failed : list jsstring
}.

Section WithEnv.

Variable e : Env.

Definition chunkDocument : jsstring -> jsstring -> list Chunk :=
  Chunker.chunkDocument (path_resolve e) (path_basename e) (path_dirname e)
                        (sha256_hex16 e) (now e).

Definition indexFile (filePath : jsstring) : M World nat :=
  try_catch
    (content <- lift_option (read_file e filePath) ReadFileFailed ;;
     deleteFileChunks e filePath ;;;
     let chunks := chunkDocument content filePath in
     if (length chunks =? 0)%nat then ret 0%nat
     else
       addChunks e chunks ;;;
       ret (length chunks))
    (fun err => throw (IndexFileError filePath err)).

(** The loop [for (const file of files)] with its two accumulators. *)
Fixpoint index_files (files : list jsstring) (acc : IndexReport)
  : M World IndexReport :=
  match files with
  | [] => ret acc
  | file :: files' =>
      acc' <- try_catch
                (chunkCount <- indexFile file ;;
                 ret {| indexed := indexed acc + chunkCount;
                        failed := failed acc |})
                (fun _ =>
                 ret {| indexed := indexed acc;
                        failed := failed acc ++ [file] |}) ;;
      index_files files' acc'
  end.

(** [const glob = await import('glob')], which stands before the
    guarded block: its rejection is not wrapped. *)
Definition import_glob (glob : Listing) : M World unit :=
  match glob with
  | ImportRejected => throw ImportFailed
  | _ => ret tt
  end.

(** [glob.sync(pattern, {cwd: normalizedDir, ...})] *)
Definition sync (glob : Listing) : M World (list jsstring) :=
  match glob with
  | Listed files => ret files
  | _ => throw GlobFailed
  end.

Definition indexDirectory (dirPath pattern : jsstring)
  : M World IndexReport :=
  let normalizedDir := path_resolve e dirPath in
  let glob := glob_sync e normalizedDir pattern in
  import_glob glob ;;;
  try_catch
    (files <- sync glob ;;
     index_files files {| indexed := 0; failed := [] |})
    (fun err => throw (IndexDirectoryError dirPath err)).

End WithEnv.

End Indexer.

(** ** The retriever ([hybridSearch]) *)

Module Retriever.

Import VectorDb.

Open Scope effect_scope.

(** [Array.prototype.sort(compare)], which is stable: the sorted array
    is built from the right, each element placed before the first one
    it does not have to follow. *)
Section Sort.
Variable A : Type.
Variable compare : A -> A -> Q.

Fixpoint sort_insert (x : A) (l : list A) : list A :=
  match l with
  | [] => [x]
  | y :: l' =>
      if Qle_bool (compare x y) 0 then x :: y :: l'
      else y :: sort_insert x l'
  end.

Definition js_sort (l : list A) : list A := fold_right sort_insert [] l.
End Sort.

Arguments sort_insert {A} compare x l.
Arguments js_sort {A} compare l.

Section WithEnv.

Variable e : Env.

(** [query.toLowerCase().split(/\s+/).filter(word => word.length > 3)] *)
Definition keywords (query : jsstring) : list jsstring :=
  filter (fun word => (3 <? length word)%nat)
         (split_ws (to_lower e query)).

(** The inner [for (const keyword of keywords)]. *)
Definition keywordScore (textLower : jsstring) (kws : list jsstring) : Q :=
  fold_left
    (fun acc keyword =>
       if includes textLower keyword then acc + (2 # 10) else acc)
    kws 0.

Definition boost (kws : list jsstring) (result : SearchResult)
  : SearchResult :=
  let textLower := to_lower e (dc_text (chunk result)) in
  {| chunk := chunk result;
     score := Qmin (score result + keywordScore textLower kws) 1;
     distance := distance result |}.

(** [(a, b) => b.score - a.score] *)
Definition by_score_desc (a b : SearchResult) : Q := score b - score a.

Definition hybridSearch (query : jsstring) (limit : nat)
           (enableHybrid : bool) : M World (list SearchResult) :=
  semanticResults <- search e query (limit * 2) None ;;
  if negb enableHybrid then ret (firstn limit semanticResults)
  else
    let boostedResults := map (boost (keywords query)) semanticResults in
    ret (firstn limit (js_sort by_score_desc boostedResults)).

End WithEnv.

End Retriever.

(** ** Specification vocabulary *)

Module Spec.

Import Chunker VectorDb.

Definition nonws (c : N) : bool := negb (is_ws c).

(** A string that [trim] leaves alone: no whitespace at either end. *)
Definition tight (s : jsstring) : Prop :=
  drop_ws s = s /\ drop_ws (rev s) = rev s.

(** The paragraphs the loop of [chunkDocument] acts on: the pieces of
    [content.split(/\n\s*\n/)], trimmed, the empty ones passed over. *)
Definition paragraphs_of (doc : jsstring) : list jsstring :=
  filter (fun p => negb (is_empty p)) (map trim (split_paragraphs doc)).

(** Paragraphs joined by ['\n\n'], as the buffer is built. *)
Fixpoint join (g : list jsstring) : jsstring :=
  match g with
  | [] => []
  | p :: g' =>
      match g' with
      | [] => p
      | _ :: _ => p ++ para_sep ++ join g'
      end
  end.

Definition para_ok (p : jsstring) : Prop := tight p /\ p <> [].

(** *** Invariants of the loop of [chunkDocument] *)

(** [gs] are the groups of paragraphs saved so far, [g] the group in
    the buffer. *)
Record Grouped (st : Loop) (gs : list (list jsstring))
       (g : list jsstring) : Prop := {
  grp_texts : map text (chunks st) = map join gs;
  grp_cur : currentChunk st = join g;
  grp_ok : Forall para_ok g;
  grp_nonempty : Forall (fun h => h <> []) gs;
  grp_first : g = [] -> gs = []
}.

Definition size_bound (L : nat) : nat :=
  Nat.max (maxChunkSize + 2) (L + minChunkSize + 1).

Record Sized (B : nat) (st : Loop) : Prop := {
  sz_chunks : Forall (fun c => (length (text c) <= B)%nat) (chunks st);
  sz_cur : (length (currentChunk st) <= B)%nat
}.

(** The rows of other paths. *)
Definition without (p : jsstring) (rs : list Row) : list Row :=
  filter (fun r => negb (jsstring_eqb (row_file_path r) p)) rs.

(** The 1-based number of the line that holds offset [off] of [doc]. *)
Definition line_at (doc : jsstring) (off : nat) : Z :=
  1 + Z.of_nat (length (filter (fun c => (c =? LF)%N) (firstn off doc))).

(** The rows stored for a path. *)
Definition rows_for (e : Env) (filePath : jsstring) (w : World) : list Row :=
  filter (fun r => jsstring_eqb (row_file_path r) (path_resolve e filePath))
         (rows w).

Definition rows_not_for (e : Env) (filePath : jsstring) (w : World)
  : list Row :=
  filter (fun r => negb (jsstring_eqb (row_file_path r)
                                      (path_resolve e filePath)))
         (rows w).

(** [this.table] is only set on an open connection to a stored table. *)
Definition well_formed (w : World) : Prop :=
  table w = true -> db w = true /\ disk w <> None.

(** What each file of a directory pass came to: the outcome of
    [indexFile] on the world the files before it left behind. *)
Fixpoint file_outcomes (e : Env) (files : list jsstring) (w : World)
  : list (jsstring * result nat) :=
  match files with
  | [] => []
  | file :: files' =>
      (file, fst (Indexer.indexFile e file w))
        :: file_outcomes e files' (snd (Indexer.indexFile e file w))
  end.

Fixpoint world_after (e : Env) (files : list jsstring) (w : World) : World :=
  match files with
  | [] => w
  | file :: files' => world_after e files' (snd (Indexer.indexFile e file w))
  end.

(** The chunk counts of the files that succeeded, summed. *)
Fixpoint succeeded_chunks (os : list (jsstring * result nat)) : nat :=
  match os with
  | [] => 0
  | (_, Ok n) :: os' => n + succeeded_chunks os'
  | (_, Err _) :: os' => succeeded_chunks os'
  end.

(** The files that failed, in the order of the pass. *)
Fixpoint failed_files (os : list (jsstring * result nat)) : list jsstring :=
  match os with
  | [] => []
  | (_, Ok _) :: os' => failed_files os'
  | (file, Err _) :: os' => file :: failed_files os'
  end.

(** *** Retrieval *)

(** The keywords of [kws] found in the lowercased text of a result,
    each as often as it stands in [kws]. *)
Definition kmatches (e : Env) (kws : list jsstring) (r : SearchResult) : nat :=
  length (filter (includes (to_lower e (dc_text (chunk r)))) kws).


Definition higher_first (a b : SearchResult) : Prop := score b <= score a.

Definition sorted_desc (rs : list SearchResult) : Prop :=
  StronglySorted higher_first rs.


(** The list [hybridSearch] returns with hybrid mode on, from the
    candidates of the vector search. *)
Definition reranked (e : Env) (query : jsstring) (limit : nat)
           (cands : list SearchResult) : list SearchResult :=
  firstn limit
         (Retriever.js_sort Retriever.by_score_desc
            (map (Retriever.boost e (Retriever.keywords e query)) cands)).

(** ASCII stand-ins for Node's helpers, for the examples: paths are
    taken as already resolved, and only [A]..[Z] change case. *)
Definition ascii_lower (s : jsstring) : jsstring :=
  map (fun c => if ((65 <=? c) && (c <=? 90))%N then (c + 32)%N else c) s.

End Spec.

(** ** Sample inputs *)

Module Samples.

Import Chunker VectorDb Spec.

(** Stand-ins for Node: paths already resolved, a fixed clock. *)
Definition same (p : jsstring) : jsstring := p.
Definition path_hash (p : jsstring) (i : Z) : jsstring := p.
Definition stamp : jsstring := str "2026-02-08T21:49:00.000Z".

Definition chunk_sample : jsstring -> jsstring -> list Chunk :=
  Chunker.chunkDocument same same same path_hash stamp.

Definition letters (c : N) (n : nat) : jsstring := repeat c n.

Definition notes : jsstring := str "/notes/a.md".
Definition diary : jsstring := str "/notes/b.md".

(** 900 letters, a blank line, 150 letters. *)
Definition doc_short_tail : jsstring :=
  letters 97 900 ++ para_sep ++ letters 98 150.

(** 1500 letters, a blank line, 300 letters. *)
Definition doc_long_head : jsstring :=
  letters 97 1500 ++ para_sep ++ letters 98 300.

(** 900 letters, a blank line, 900 letters. *)
Definition doc_two_chunks : jsstring :=
  letters 97 900 ++ para_sep ++ letters 98 900.

(** A heading and one sentence. *)
Definition doc_small : jsstring :=
  str "# Title" ++ para_sep ++ str "Alpha beta gamma.".

(** Two blank lines, then a word. *)
Definition doc_late_start : jsstring := para_sep ++ str "foo".

(** A world in which [notes] reads as [content] and nothing else can be
    read, every text embeds, the store accepts every write, deletes if
    [can_delete], and answers every vector search with [hits]. *)
Definition env (content : jsstring) (can_delete : bool)
           (hits : list (Row * option Q)) : Env :=
  {| path_resolve := same;
     path_basename := same;
     path_dirname := same;
     sha256_hex16 := path_hash;
     now := stamp;
     to_lower := ascii_lower;
     read_file := fun p => if jsstring_eqb p notes then Some content else None;
     glob_sync := fun _ _ => Listed [notes; diary];
     embed := fun _ => Some [];
     connect_ok := true;
     open_ok := true;
     write_ok := fun _ => true;
     delete_ok := fun _ => can_delete;
     vector_search := fun _ _ _ _ => Some hits |}.

(** [notes] reads as one letter, but the store cannot be opened. *)
Definition env_offline : Env :=
  {| path_resolve := same;
     path_basename := same;
     path_dirname := same;
     sha256_hex16 := path_hash;
     now := stamp;
     to_lower := ascii_lower;
     read_file := fun p => if jsstring_eqb p notes then Some (str "a") else None;
     glob_sync := fun _ _ => Listed [notes];
     embed := fun _ => Some [];
     connect_ok := false;
     open_ok := false;
     write_ok := fun _ => false;
     delete_ok := fun _ => false;
     vector_search := fun _ _ _ _ => None |}.

Definition fresh : World := {| db := false; table := false; disk := None |}.

Definition opened (rs : list Row) : World :=
  {| db := true; table := true; disk := Some rs |}.

Definition row_with (txt : jsstring) : Row :=
  {| row_id := notes;
     row_text := txt;
     row_embedding := [];
     row_file_path := notes;
     row_line_start := 1;
     row_line_end := 1;
     row_chunk_index := 0;
     row_file_name := notes;
     row_directory := notes;
     row_indexed_at := stamp;
     row_char_count := length txt |}.

Definition hit (txt : jsstring) (d : Q) : Row * option Q :=
  (row_with txt, Some d).

(** The world [indexFile] leaves. *)
Definition after (e : Env) (filePath : jsstring) (w : World) : World :=
  snd (Indexer.indexFile e filePath w).

(** [notes] holds two chunks' worth of text; the store works. *)
Definition env_first : Env := env doc_two_chunks true [].

(** [notes] has shrunk to one letter; the store's delete throws. *)
Definition env_shrunk : Env := env (str "a") false [].


(** Two chunks at distance 0.1, the one with fewer words first. *)
Definition env_tie : Env :=
  env [] true [hit (str "alpha") (1 # 10); hit (str "alpha beta") (1 # 10)].

(** One chunk at distance 0.5. *)
Definition env_half : Env := env [] true [hit (str "alpha") (1 # 2)].

Definition tie_candidates : list SearchResult :=
  map to_result [hit (str "alpha") (1 # 10); hit (str "alpha beta") (1 # 10)].

(** A store that holds one row of an earlier pass over [notes]. *)
Definition stale : World := opened [row_with (str "old")].

(** A row of [diary]. *)
Definition diary_row : Row :=
  {| row_id := diary;
     row_text := str "dear";
     row_embedding := [];
     row_file_path := diary;
     row_line_start := 1;
     row_line_end := 1;
     row_chunk_index := 0;
     row_file_name := diary;
     row_directory := diary;
     row_indexed_at := stamp;
     row_char_count := 4 |}.

(** A store that holds two rows of an earlier pass over [notes], and
    between them a row of [diary]. *)
Definition shelf : World :=
  opened [row_with (str "old"); diary_row; row_with (str "older")].

(** [notes] has shrunk to one letter; the store works. *)
Definition env_small : Env := env (str "a") true [].

End Samples.

(** ** A second effect monad, over any type of errors *)

Module Raising.

Inductive outcome (E A : Type) : Type :=
  | Done (a : A)
  | Thrown (err : E).
Arguments Done {E A} a.
Arguments Thrown {E A} err.

Section Monad.
Variable E S : Type.

Definition P (A : Type) : Type := S -> outcome E A * S.

Definition unit_ {A} (a : A) : P A := fun s => (Done a, s).
Definition raise {A} (err : E) : P A := fun s => (Thrown err, s).
Definition then_ {A B} (m : P A) (k : A -> P B) : P B :=
  fun s => match m s with
           | (Done a, s') => k a s'
           | (Thrown err, s') => (Thrown err, s')
           end.
(** [try { m } catch (error) { h error }] *)
Definition catch {A} (m : P A) (h : E -> P A) : P A :=
  fun s => match m s with
           | (Done a, s') => (Done a, s')
           | (Thrown err, s') => h err s'
           end.
Definition state : P S := fun s => (Done s, s).
End Monad.

Arguments unit_ {E S A} a.
Arguments raise {E S A} err.
Arguments then_ {E S A B} m k.
Arguments catch {E S A} m h.
Arguments state {E S}.

Declare Scope raising_scope.
Delimit Scope raising_scope with raising.
Notation "x <- m ;; k" := (then_ m (fun x => k))
  (at level 61, m at next level, right associativity) : raising_scope.
Notation "m ;;; k" := (then_ m (fun _ => k))
  (at level 61, right associativity) : raising_scope.

End Raising.

(** ** The embedding service ([embeddings.ts]) *)

Module EmbeddingService.

Import Raising.

Open Scope raising_scope.

Inductive embed_error : Type :=
  | PipelineFailed                  (* pipeline(...) threw *)
  | InferenceFailed                 (* this.model(text, ...) threw *)
  | LoadError (cause : embed_error) (* 'Failed to load embedding model: ...' *)
  | ModelMissing                    (* 'Embedding model not initialized' *)
  | EmbedError (cause : embed_error)
                                    (* 'Embedding generation failed: ...' *)
  | BatchError (cause : embed_error).
                                    (* 'Batch embedding generation failed: ...' *)

(** Outside the service: whether the model can be loaded, and what it
    answers for a text ([Array.from(output.data)]), if it answers. *)
Record Model := {
  load_ok : bool;
  infer : jsstring -> option (list Q)
}.

(** The state of the service: [this.model !== null]. *)
Definition Service := bool.

Definition batchSize : nat := 32.

(** [texts.slice(i, j)] *)
Definition slice {A} (i j : nat) (l : list A) : list A :=
  firstn (j - i) (skipn i l).

Section WithModel.

Variable m : Model.

Definition initialize : P embed_error Service unit := fun loaded =>
  if loaded then (Done tt, loaded)
  else if load_ok m then (Done tt, true)
  else (Thrown (LoadError PipelineFailed), false).

Definition embed (text : jsstring) : P embed_error Service (list Q) :=
  initialize ;;;
  loaded <- state ;;
  if negb loaded then raise ModelMissing
  else
    catch
      (match infer m text with
       | Some embedding => unit_ embedding
       | None => raise InferenceFailed
       end)
      (fun err => raise (EmbedError err)).

(** [await Promise.all(batch.map(text => this.embed(text)))]: the
    vectors in the order of the texts, or the first failure. *)
Fixpoint promise_all (batch : list jsstring)
  : P embed_error Service (list (list Q)) :=
  match batch with
  | [] => unit_ []
  | text :: batch' =>
      v <- embed text ;;
      vs <- promise_all batch' ;;
      unit_ (v :: vs)
  end.

(** [for (let i = 0; i < texts.length; i += batchSize)]; the loop takes
    at most one turn per text, which [fuel] counts. *)
Fixpoint batch_loop (fuel : nat) (texts : list jsstring) (i : nat)
         (embeddings : list (list Q))
  : P embed_error Service (list (list Q)) :=
  match fuel with
  | O => unit_ embeddings
  | S fuel' =>
      if (i <? length texts)%nat then
        batchResults <- promise_all (slice i (i + batchSize) texts) ;;
        batch_loop fuel' texts (i + batchSize) (embeddings ++ batchResults)
      else unit_ embeddings
  end.

Definition embedBatch (texts : list jsstring)
  : P embed_error Service (list (list Q)) :=
  initialize ;;;
  loaded <- state ;;
  if negb loaded then raise ModelMissing
  else
    catch (batch_loop (length texts) texts 0 [])
          (fun err => raise (BatchError err)).

(** [getDimension] *)
Definition getDimension : nat := 384.

(** [isInitialized] *)
Definition isInitialized (s : Service) : bool := s.

End WithModel.

End EmbeddingService.

(** ** Clearing, statistics and the full rebuild
       ([clear], [getStats], [reindexAll]) *)

Module Maintenance.

Import Raising VectorDb Indexer.

Open Scope raising_scope.

Inductive failure : Type :=
  | Inner (err : error)             (* an error of the operations above *)
  | DropFailed                      (* db.dropTable threw *)
  | CountFailed                     (* table.countRows threw *)
  | ScanFailed                      (* table.query().toArray() threw *)
  | ClearError (cause : failure)    (* 'Failed to clear database: ...' *)
  | StatsError (cause : failure)    (* 'Failed to get stats: ...' *)
  | ReindexError (cause : failure). (* 'Reindex failed: ...' *)

(** More of what lies outside: the store's answers to drop, count and
    scan, and the size in MB the directory walk comes to, rounded
    ([parseFloat(dbSize.toFixed(2))], 0 when the walk throws). *)
Record StoreOps := {
  drop_ok : bool;
  count_ok : bool;
  scan_ok : bool;
  size_mb : Q
}.

Record Stats := {
  total_chunks : nat;
  total_files : nat;
  file_list : list jsstring;
  db_size_mb : Q
}.

(** [{ indexed, failed, files_count }] *)
Record ReindexReport := {
  re_indexed : nat;
  re_failed : list jsstring;
  files_count : nat
}.

(** An operation of the modules above, its errors kept as they are. *)
Definition lift {A} (m : M World A) : P failure World A :=
  fun w => match m w with
           | (Ok a, w') => (Done a, w')
           | (Err err, w') => (Thrown (Inner err), w')
           end.

(** [uniqueFiles.add(p)] on a [Set] kept in insertion order. *)
Definition set_add (p : jsstring) (s : list jsstring) : list jsstring :=
  if existsb (jsstring_eqb p) s then s else s ++ [p].

(** [Math.ceil(n / 5)] for a count [n]. *)
Definition ceil_fifth (n : nat) : nat := (n + 4) / 5.

(** The patterns [reindexAll] goes through. *)
Definition indexPaths : list jsstring :=
  [str "memory/**/*.md"; str "diaries/**/*.md"; str ".lane/plans/**/*.md";
   str "*.md"].

Section WithEnv.

Variable e : Env.
Variable o : StoreOps.

(** [db.dropTable(name)] *)
Definition dropTable : P failure World unit := fun w =>
  if drop_ok o
  then (Done tt, {| db := db w; table := table w; disk := None |})
  else (Thrown DropFailed, w).

Definition clear : P failure World unit :=
  lift (initialize e) ;;;
  w <- state ;;
  if negb (table w) then unit_ tt
  else
    catch
      (w1 <- state ;;
       if db w1 then
         dropTable ;;;
         (fun w2 => (Done tt, {| db := db w2; table := false;
                                 disk := disk w2 |}))
       else unit_ tt)
      (fun err => raise (ClearError err)).

(** [close]: both handles are dropped; what is stored stays. *)
Definition close : P failure World unit := fun w =>
  (Done tt, {| db := false; table := false; disk := disk w |}).

(** The loop [for (const row of allData)] over the unique paths. *)
Definition unique_paths (allData : list Row) : list jsstring :=
  fold_left
    (fun uniqueFiles row =>
       if is_empty (row_file_path row) then uniqueFiles
       else set_add (row_file_path row) uniqueFiles)
    allData [].

Definition getStats : P failure World Stats :=
  lift (initialize e) ;;;
  w <- state ;;
  if negb (table w) then
    unit_ {| total_chunks := 0; total_files := 0; file_list := [];
             db_size_mb := 0 |}
  else
    catch
      (count <- (if count_ok o then unit_ (length (rows w))
                 else raise CountFailed) ;;
       allData <- (if scan_ok o then unit_ (rows w) else raise ScanFailed) ;;
       let fileList := unique_paths allData in
       unit_ {| total_chunks := count;
                total_files := length fileList;
                file_list := fileList;
                db_size_mb := size_mb o |})
      (fun err => raise (StatsError err)).

(** One turn of [for (const pattern of indexPaths)]. *)
Definition reindex_pattern (workspaceRoot : jsstring) (acc : ReindexReport)
           (pattern : jsstring) : P failure World ReindexReport :=
  catch
    (result <- lift (indexDirectory e workspaceRoot pattern) ;;
     unit_ {| re_indexed := re_indexed acc + indexed result;
              re_failed := re_failed acc ++ failed result;
              files_count := files_count acc + ceil_fifth (indexed result) |})
    (fun _ => unit_ acc).

Fixpoint reindex_patterns (workspaceRoot : jsstring)
         (patterns : list jsstring) (acc : ReindexReport)
  : P failure World ReindexReport :=
  match patterns with
  | [] => unit_ acc
  | pattern :: patterns' =>
      acc' <- reindex_pattern workspaceRoot acc pattern ;;
      reindex_patterns workspaceRoot patterns' acc'
  end.

Definition reindexAll (workspaceRoot : jsstring)
  : P failure World ReindexReport :=
  catch
    (clear ;;;
     reindex_patterns workspaceRoot indexPaths
       {| re_indexed := 0; re_failed := []; files_count := 0 |})
    (fun err => raise (ReindexError err)).

End WithEnv.

End Maintenance.

(** ** The search tool ([formatResults], [handleSearch]) *)

Module Tools.

Import Raising Chunker VectorDb Retriever Maintenance.

Open Scope raising_scope.

(** [`${n}`] for an integer. *)
Definition show_int (z : Z) : jsstring :=
  str (NilZero.string_of_int (Z.to_int z)).

(** [s.substring(0, n)] *)
Definition substring0 (n : nat) (s : jsstring) : jsstring := firstn n s.

(** [s.replace(/\n/g, ' ')] *)
Definition flatten_lines (s : jsstring) : jsstring :=
  map (fun c => if (c =? LF)%N then 32%N else c) s.

(** [Math.min(Math.max(parseInt(limit) || 10, 1), 100)], from what
    [parseInt] gave: [None] is NaN. *)
Definition numLimit (parsed : option Z) : Z :=
  let given :=
    match parsed with
    | Some n => if (n =? 0)%Z then 10%Z else n
    | None => 10%Z
    end in
  Z.min (Z.max given 1) 100.

Inductive tool_error : Type :=
  | QueryRequired                   (* 'Query parameter is required ...' *)
  | Failed (cause : failure).

(** The arguments of the search tool: [query] when it is a string,
    what [parseInt(limit)] gives, and [hybrid]. *)
Record SearchArgs := {
  arg_query : option jsstring;
  arg_limit : option Z;
  arg_hybrid : bool
}.

Section WithFormat.

(** [x.toFixed(3)] *)
Variable to_fixed3 : Q -> jsstring.

(** The preview of a chunk: its first 150 code units on one line, and
    three dots when there are more. *)
Definition preview (txt : jsstring) : jsstring :=
  let snippet := flatten_lines (substring0 150 txt) in
  snippet ++ (if (150 <? length txt)%nat then str "..." else []).

(** The four lines [formatResults] writes for result [i]. *)
Definition format_entry (i : nat) (result : SearchResult) : jsstring :=
  let chunk := chunk result in
  show_int (Z.of_nat (i + 1)) ++ str ". "
    ++ file_name (dc_metadata chunk) ++ str " (lines "
    ++ show_int (dc_line_start chunk) ++ str "-"
    ++ show_int (dc_line_end chunk) ++ str ")" ++ [LF]
  ++ str "   Score: " ++ to_fixed3 (score result) ++ [LF]
  ++ str "   Path: " ++ dc_file_path chunk ++ [LF]
  ++ str "   Preview: " ++ preview (dc_text chunk) ++ [LF; LF].

(** The loop [for (let i = 0; i < results.length; i++)]. *)
Fixpoint format_loop (i : nat) (results : list SearchResult)
         (output : jsstring) : jsstring :=
  match results with
  | [] => output
  | result :: results' =>
      format_loop (i + 1) results' (output ++ format_entry i result)
  end.

Definition formatResults (results : list SearchResult) : jsstring :=
  if (length results =? 0)%nat then str "No results found."
  else
    format_loop 0 results
      (str "Found " ++ show_int (Z.of_nat (length results))
       ++ str " results:" ++ [LF; LF]).

Variable e : Env.

Definition handleSearch (args : SearchArgs) : P tool_error World jsstring :=
  match arg_query args with
  | None => raise QueryRequired
  | Some query =>
      if (length (trim query) =? 0)%nat then raise QueryRequired
      else
        let limit := Z.to_nat (numLimit (arg_limit args)) in
        fun w =>
          match hybridSearch e query limit (arg_hybrid args) w with
          | (Ok results, w') => (Done (formatResults results), w')
          | (Err err, w') => (Thrown (Failed (Inner err)), w')
          end
  end.

End WithFormat.

End Tools.

(** ** Further vocabulary *)

Module SpecMore.

Import Chunker VectorDb Spec.

(** The ordinals [0 .. n-1]. *)
Definition ordinals (n : nat) : list Z := map Z.of_nat (seq 0 n).

(** The line ranges of [cs] follow one another from [start], and the
    line after the last is [next]. *)
Fixpoint tiles (start : Z) (cs : list Chunk) (next : Z) : Prop :=
  match cs with
  | [] => start = next
  | c :: cs' => line_start c = start /\ tiles (line_end c + 1) cs' next
  end.

(** What of a chunk comes from the content alone. *)
Definition content_view (c : Chunk) : jsstring * Z * Z * Z * nat :=
  (text c, line_start c, line_end c, chunk_index c, char_count (metadata c)).

(** The counters of the loop of [chunkDocument]. *)
Record Numbered (st : Loop) : Prop := {
  num_chunks : map chunk_index (chunks st) = ordinals (length (chunks st));
  num_next : chunkIndex st = Z.of_nat (length (chunks st))
}.

Record Lined (st : Loop) : Prop := {
  lin_tiles : tiles 1 (chunks st) (currentLineStart st);
  lin_nonneg : (0 <= currentLineCount st)%Z;
  lin_count : (currentChunk st <> [] -> 1 <= currentLineCount st)%Z;
  lin_ranges : Forall (fun c => (line_start c <= line_end c)%Z) (chunks st)
}.

(** A chunk saved by the loop: trimmed, not empty, counted right, and
    not smaller than [minChunkSize]. *)
Definition saved_ok (c : Chunk) : Prop :=
  para_ok (text c) /\ char_count (metadata c) = length (text c) /\
  (minChunkSize <= length (text c))%nat.

(** [Omit<DocumentChunk, 'embedding'>] of a [DocumentChunk]. *)
Definition chunk_of (d : DocumentChunk) : Chunk :=
  {| id := dc_id d;
     text := dc_text d;
     file_path := dc_file_path d;
     line_start := dc_line_start d;
     line_end := dc_line_end d;
     chunk_index := dc_chunk_index d;
     metadata := dc_metadata d |}.

(** What of a result the re-ranking leaves alone. *)
Definition found (r : SearchResult) : DocumentChunk * Q :=
  (chunk r, distance r).

(** The store answers a vector search with rows it holds. *)
Definition answers_from_table (e : Env) : Prop :=
  forall rs v n f res,
    vector_search e rs v n f = Some res ->
    forall rd, In rd res -> In (fst rd) rs.

(** What the model answers for each of [texts], if it answers for
    all. *)
Fixpoint infer_all (m : EmbeddingService.Model) (texts : list jsstring)
  : option (list (list Q)) :=
  match texts with
  | [] => Some []
  | t :: ts =>
      match EmbeddingService.infer m t, infer_all m ts with
      | Some v, Some vs => Some (v :: vs)
      | _, _ => None
      end
  end.

(** The statistics of a store with no table. *)
Definition no_stats : Maintenance.Stats :=
  {| Maintenance.total_chunks := 0; Maintenance.total_files := 0;
     Maintenance.file_list := []; Maintenance.db_size_mb := 0 |}.

(** Two runs of the loop that differ in the path and in Node only. *)
Record Alike (st1 st2 : Loop) : Prop := {
  alike_chunks : map content_view (chunks st1) = map content_view (chunks st2);
  alike_cur : currentChunk st1 = currentChunk st2;
  alike_start : currentLineStart st1 = currentLineStart st2;
  alike_count : currentLineCount st1 = currentLineCount st2;
  alike_index : chunkIndex st1 = chunkIndex st2
}.

End SpecMore.

(** ** More sample worlds *)

Module SamplesMore.

Import Chunker VectorDb Indexer Retriever Spec Samples.

(** A store that answers a vector search with the first rows of its
    table, each at distance 0.25. *)
Definition env_echo (content : jsstring) : Env :=
  {| path_resolve := same;
     path_basename := same;
     path_dirname := same;
     sha256_hex16 := path_hash;
     now := stamp;
     to_lower := ascii_lower;
     read_file := fun p => if jsstring_eqb p notes then Some content else None;
     glob_sync := fun _ _ => Listed [notes];
     embed := fun _ => Some [];
     connect_ok := true;
     open_ok := true;
     write_ok := fun _ => true;
     delete_ok := fun _ => true;
     vector_search := fun rs _ n _ =>
       Some (map (fun r => (r, Some (1 # 4))) (firstn n rs)) |}.

(** No text can be embedded. *)
Definition env_mute : Env :=
  {| path_resolve := same;
     path_basename := same;
     path_dirname := same;
     sha256_hex16 := path_hash;
     now := stamp;
     to_lower := ascii_lower;
     read_file := fun _ => None;
     glob_sync := fun _ _ => Listed [];
     embed := fun _ => None;
     connect_ok := true;
     open_ok := true;
     write_ok := fun _ => true;
     delete_ok := fun _ => true;
     vector_search := fun _ _ _ _ => Some [] |}.

(** The connection is made, but the table cannot be opened. *)
Definition env_no_open : Env :=
  {| path_resolve := same;
     path_basename := same;
     path_dirname := same;
     sha256_hex16 := path_hash;
     now := stamp;
     to_lower := ascii_lower;
     read_file := fun _ => None;
     glob_sync := fun _ _ => Listed [];
     embed := fun _ => Some [];
     connect_ok := true;
     open_ok := false;
     write_ok := fun _ => true;
     delete_ok := fun _ => true;
     vector_search := fun _ _ _ _ => Some [] |}.

Definition env_echoed : Env := env_echo doc_two_chunks.

(** Connected, with no table. *)
Definition connected : World := {| db := true; table := false; disk := None |}.

(** Not connected yet, with a stored table. *)
Definition asleep (rs : list Row) : World :=
  {| db := false; table := false; disk := Some rs |}.

Definition small_chunks : list Chunk := chunk_sample doc_small notes.

Definition after_add (e : Env) (cs : list Chunk) (w : World) : World :=
  snd (addChunks e cs w).

(** What a search for one result finds after [notes] is indexed. *)
Definition echo_results : list SearchResult :=
  match search env_echoed (str "alpha") 1 None (after env_echoed notes fresh)
  with
  | (Effects.Ok rs, _) => rs
  | (Effects.Err _, _) => []
  end.

Definition two_words : jsstring := str "alpha beta".

(** A model that embeds a text as its length, and one that cannot be
    loaded. *)
Definition model_unit : EmbeddingService.Model :=
  {| EmbeddingService.load_ok := true;
     EmbeddingService.infer :=
       fun t => Some [inject_Z (Z.of_nat (length t))] |}.

Definition model_absent : EmbeddingService.Model :=
  {| EmbeddingService.load_ok := false;
     EmbeddingService.infer := fun _ => None |}.

(** A store that drops, counts and scans, of negligible size. *)
Definition ops_ok : Maintenance.StoreOps :=
  {| Maintenance.drop_ok := true;
     Maintenance.count_ok := true;
     Maintenance.scan_ok := true;
     Maintenance.size_mb := 0 |}.

Definition stats_of (chunks : nat) (files : list jsstring)
  : Maintenance.Stats :=
  {| Maintenance.total_chunks := chunks;
     Maintenance.total_files := length files;
     Maintenance.file_list := files;
     Maintenance.db_size_mb := 0 |}.

Definition no_digits (x : Q) : jsstring := [].

Definition ask (q : jsstring) : Tools.SearchArgs :=
  {| Tools.arg_query := Some q;
     Tools.arg_limit := Some 5%Z;
     Tools.arg_hybrid := true |}.

End SamplesMore.

(** ** Binary64 numbers

    The Numbers of the program are IEEE 754 binary64 numbers.  Every
    finite one is an integer multiple of 2^-1074, the smallest
    subnormal, and is kept here as that integer: [k] stands for
    k * 2^-1074.  The integers below 2^53 in size are numbers (the
    subnormals and the first binade); a larger [k] is a number when it
    is a multiple of 2^(log2 |k| - 52).  The sum and the difference of
    two numbers are integers, which [round] takes to the nearest
    number, ties to the even one.  Left out are the infinities, NaN and
    the sign of zero, and [round] knows no largest exponent: the sums
    [hybridSearch] forms from a finite distance stay far below 2^1024. *)

Module Binary64.

Open Scope Z_scope.

Definition double := Z.

(** [m * 2^e], for [e] from -1074 on. *)
Definition dbl (m e : Z) : double := m * 2 ^ (e + 1074).

(** The value of a number. *)
Definition value (x : double) : Q := Qmake x (2 ^ 1074)%positive.

(** [n / d] to the nearest integer, ties to the even one ([0 <= n],
    [0 < d]). *)
Definition nearest_even (n d : Z) : Z :=
  let q := n / d in
  match 2 * (n mod d) ?= d with
  | Lt => q
  | Gt => q + 1
  | Eq => if Z.even q then q else q + 1
  end.

(** The number nearest to [n / d] ([0 <= n], [0 < d]): below 2^53 the
    numbers are the integers; from there on a binade [2^p, 2^(p+1)) holds
    the multiples of 2^(p-52). *)
Definition round_pos (n d : Z) : double :=
  let k := n / d in
  if k <? 2 ^ 53 then nearest_even n d
  else
    let s := Z.log2 k - 52 in
    2 ^ s * nearest_even n (d * 2 ^ s).

Definition round_ratio (n d : Z) : double :=
  Z.sgn n * round_pos (Z.abs n) d.

Definition round (n : Z) : double := round_ratio n 1.

(** The Number a real value [q] is read as, as a literal is. *)
Definition number (q : Q) : double :=
  round_ratio (Qnum q * 2 ^ 1074) (Z.pos (Qden q)).

(** [x + y], [x - y] and [Math.min(x, y)] *)
Definition add (x y : double) : double := round (x + y).
Definition sub (x y : double) : double := round (x - y).
Definition min (x y : double) : double := Z.min x y.

(** The literals [1] and [0.2] (0x1.999999999999ap-3). *)
Definition one : double := dbl 1 0.
Definition fifth : double := dbl 7205759403792794 (-55).

End Binary64.

(** ** The Standard Library's binary64

    [SpecFloat] is the Standard Library's reference for the operations
    of binary64; a number goes over to it as sign, mantissa and
    exponent, and comes back as an integer of 2^-1074. *)

Module Ieee.

Import Binary64.

Open Scope Z_scope.

Definition units (f : SpecFloat.spec_float) : option double :=
  match f with
  | SpecFloat.S754_zero _ => Some 0
  | SpecFloat.S754_finite s m e =>
      Some ((if s then -1 else 1) * Z.pos m * 2 ^ (e + 1074))
  | _ => None
  end.

Definition spec (x : double) : SpecFloat.spec_float :=
  let s := Z.max 0 (Z.log2 (Z.abs x) - 52) in
  match Z.abs x / 2 ^ s with
  | Z.pos m => SpecFloat.S754_finite (x <? 0) m (s - 1074)
  | _ => SpecFloat.S754_zero false
  end.

(** [add] and [sub] give on [x] and [y] what the reference gives. *)
Definition agrees (x y : double) : bool :=
  match units (SpecFloat.SFadd 53 1024 (spec x) (spec y)),
        units (SpecFloat.SFsub 53 1024 (spec x) (spec y)) with
  | Some a, Some s => (a =? add x y) && (s =? sub x y)
  | _, _ => false
  end.

(** Sums and differences of every kind: exact ones, ones rounded up
    and down, ties to either side, subnormals, the turn of a binade,
    cancellation, a small number lost in a large one, both signs. *)
Definition grid : list (double * double) :=
  [(fifth, fifth); (number (4 # 10), fifth); (number (8 # 10), fifth);
   (one, number (1 # 10)); (one, number (2 # 10));
   (number (9 # 10), number (4 # 10)); (number (1 # 2), number (2 # 10));
   (- one, dbl 9007199254740991 (-52));
   (2 ^ 53, 1); (2 ^ 53 + 2, 1);
   (one, dbl 1 (-53)); (dbl (2 ^ 52 + 1) (-52), dbl 1 (-53));
   (dbl 1 60, one); (dbl (2 ^ 53 - 1) 0, one);
   (dbl (2 ^ 53 - 1) 0, number (1 # 2));
   (number (1 # 3), number (1 # 3)); (number (1 # 3), - number (1 # 10));
   (1, 1); (2 ^ 52 - 1, 1); (dbl 1 1000, dbl 1 1000);
   (number (123456789 # 1000), - number (3 # 2));
   (0, fifth); (- fifth, fifth); (- number (3 # 2), number (1 # 3))].

End Ieee.

(** ** [search] and [hybridSearch] in binary64

    The retriever once more, its scores and distances now binary64
    numbers and its arithmetic that of the program: [1 - distance],
    [keywordScore += 0.2], [result.score + keywordScore] and the
    difference the sort compares are rounded.  The distance the store
    reports reaches the program as the Number of its value. *)

Module Scoring.

Import JsString Chunker Effects VectorDb Retriever Binary64.

Open Scope effect_scope.
Open Scope Z_scope.

Record SearchResult := {
  chunk : DocumentChunk;
  score : double;
  distance : double
}.

Section WithEnv.

Variable e : Env.

(** [result._distance || 0] *)
Definition distance_or_zero (d : option Q) : double :=
  match d with Some q => number q | None => 0 end.

Definition to_result (rd : Row * option Q) : SearchResult :=
  let result := fst rd in
  {| chunk := {| dc_id := row_id result;
                 dc_text := row_text result;
                 dc_embedding := row_embedding result;
                 dc_file_path := row_file_path result;
                 dc_line_start := row_line_start result;
                 dc_line_end := row_line_end result;
                 dc_chunk_index := row_chunk_index result;
                 dc_metadata :=
                   {| file_name := row_file_name result;
                      directory := row_directory result;
                      indexed_at := row_indexed_at result;
                      char_count := row_char_count result |} |};
     score := sub one (distance_or_zero (snd rd));
     distance := distance_or_zero (snd rd) |}.

Definition search (query : jsstring) (limit : nat)
           (filePathFilter : option jsstring) : M World (list SearchResult) :=
  initialize e ;;;
  w <- get ;;
  if negb (table w) then ret []
  else
    try_catch
      (queryEmbedding <- lift_option (embed e query) EmbeddingFailed ;;
       results <- lift_option
                    (vector_search e (rows w) queryEmbedding limit
                       (where_clause e filePathFilter))
                    StoreQueryFailed ;;
       ret (map to_result results))
      (fun err => throw (SearchError err)).

(** The inner [for (const keyword of keywords)] with its
    [keywordScore += 0.2]. *)
Definition keywordScore (textLower : jsstring) (kws : list jsstring)
  : double :=
  fold_left
    (fun acc keyword =>
       if includes textLower keyword then add acc fifth else acc)
    kws 0.

Definition boost (kws : list jsstring) (result : SearchResult)
  : SearchResult :=
  let textLower := to_lower e (dc_text (chunk result)) in
  {| chunk := chunk result;
     score := min (add (score result) (keywordScore textLower kws)) one;
     distance := distance result |}.

(** [(a, b) => b.score - a.score]; the sort reads its sign. *)
Definition by_score_desc (a b : SearchResult) : Q :=
  inject_Z (sub (score b) (score a)).

Definition hybridSearch (query : jsstring) (limit : nat)
           (enableHybrid : bool) : M World (list SearchResult) :=
  semanticResults <- search query (limit * 2) None ;;
  if negb enableHybrid then ret (firstn limit semanticResults)
  else
    let boostedResults := map (boost (keywords e query)) semanticResults in
    ret (firstn limit (js_sort by_score_desc boostedResults)).

End WithEnv.

End Scoring.

(** ** Vocabulary for the scores *)

Module ScoringSpec.

Import JsString VectorDb Retriever Binary64 Scoring.

Open Scope Z_scope.

(** The keywords of [kws] found in the lowercased text of a result,
    each as often as it stands in [kws]. *)
Definition kmatches (e : Env) (kws : list jsstring) (r : SearchResult) : nat :=
  length (filter (includes (to_lower e (dc_text (chunk r)))) kws).

(** The same, each distinct keyword counted once. *)
Definition distinct_kmatches (e : Env) (kws : list jsstring)
           (r : SearchResult) : nat :=
  length (nodup (list_eq_dec N.eq_dec)
                (filter (includes (to_lower e (dc_text (chunk r)))) kws)).

(** 0.2 added to 0 [k] times, each sum rounded: 0.2, 0.4,
    0.6000000000000001, 0.8, 1, 1.2, ... *)
Fixpoint added (k : nat) : double :=
  match k with
  | O => 0
  | S k' => add (added k') fifth
  end.

Definition higher_first (a b : SearchResult) : Prop := score b <= score a.

Definition sorted_desc (rs : list SearchResult) : Prop :=
  StronglySorted higher_first rs.

(** The candidates, each boosted, in the order of the vector search. *)
Definition boosted (e : Env) (query : jsstring) (cands : list SearchResult)
  : list SearchResult :=
  map (boost e (keywords e query)) cands.

(** The list [hybridSearch] returns with hybrid mode on, from the
    candidates of the vector search. *)
Definition reranked (e : Env) (query : jsstring) (limit : nat)
           (cands : list SearchResult) : list SearchResult :=
  firstn limit (js_sort by_score_desc (boosted e query cands)).

(** The results of score [s], in the order they stand in. *)
Definition scored (s : double) (rs : list SearchResult) : list SearchResult :=
  filter (fun r => score r =? s) rs.

(** What the rule [min(base + 0.2 * k, 1)] gives in exact arithmetic. *)
Definition ideal (base : Q) (k : nat) : Q :=
  Qmin (base + (2 # 10) * inject_Z (Z.of_nat k)) 1.

End ScoringSpec.

(** ** Sample searches *)

Module ScoringSamples.

Import JsString VectorDb Samples SamplesMore Scoring.

(** Two chunks at distance 0.5, the one with fewer words first. *)
Definition env_pair : Env :=
  env [] true [hit (str "alpha") (1 # 2); hit (str "alpha beta") (1 # 2)].

Definition pair_candidates : list SearchResult :=
  map to_result [hit (str "alpha") (1 # 2); hit (str "alpha beta") (1 # 2)].

(** The candidates of [env_tie], at distance 0.1. *)
Definition capped_candidates : list SearchResult :=
  map to_result [hit (str "alpha") (1 # 10); hit (str "alpha beta") (1 # 10)].

(** One chunk of three words at distance 1. *)
Definition three_words : jsstring := str "alpha beta gamma".

Definition env_three : Env := env [] true [hit three_words 1].

(** One chunk at distance 2, and a query of one word ten times. *)
Definition env_two : Env := env [] true [hit (str "alpha") 2].

Definition ten_words : jsstring :=
  str "alpha alpha alpha alpha alpha alpha alpha alpha alpha alpha".

(** Two chunks at the distance 0.2. *)
Definition env_fifth : Env :=
  env [] true [hit (str "alpha") (2 # 10); hit (str "alpha beta") (2 # 10)].

End ScoringSamples.

(** ** Facts about strings *)

Module JsStringFacts.

Import Spec.

Lemma drop_ws_fix s :
  drop_ws s = s <->
  match s with [] => True | c :: _ => is_ws c = false end.
Proof.
  destruct s as [|c s]; simpl; [tauto|].
  destruct (is_ws c) eqn:E; split; intros H; try congruence; auto.
  exfalso.
  assert (L : forall t : jsstring, (length (drop_ws t) <= length t)%nat).
  { induction t as [|d t IH]; simpl; [lia|].
    destruct (is_ws d); simpl; lia. }
  specialize (L s). rewrite H in L. simpl in L. lia.
Qed.

Lemma drop_ws_head s :
  match drop_ws s with [] => True | c :: _ => is_ws c = false end.
Proof.
  induction s as [|c s IH]; simpl; auto.
  destruct (is_ws c) eqn:E; simpl; auto.
Qed.

Lemma drop_ws_idem s : drop_ws (drop_ws s) = drop_ws s.
Proof. apply drop_ws_fix, drop_ws_head. Qed.

Lemma drop_ws_suffix s : exists pre, s = pre ++ drop_ws s.
Proof.
  induction s as [|c s [pre IH]]; simpl.
  - exists []; reflexivity.
  - destruct (is_ws c).
    + exists (c :: pre). simpl. congruence.
    + exists []. reflexivity.
Qed.

Lemma drop_ws_length s : (length (drop_ws s) <= length s)%nat.
Proof.
  destruct (drop_ws_suffix s) as [pre E].
  rewrite E at 2. rewrite length_app. lia.
Qed.

Lemma trim_length s : (length (trim s) <= length s)%nat.
Proof.
  unfold trim. rewrite length_rev.
  etransitivity; [apply drop_ws_length|].
  rewrite length_rev. apply drop_ws_length.
Qed.

Lemma tight_trim s : tight (trim s).
Proof.
  unfold tight, trim. rewrite rev_involutive, drop_ws_idem.
  split; [|reflexivity].
  apply drop_ws_fix.
  destruct (drop_ws_suffix (rev (drop_ws s))) as [pre E].
  remember (drop_ws (rev (drop_ws s))) as b.
  apply (f_equal (@rev N)) in E.
  rewrite rev_involutive, rev_app_distr in E.
  pose proof (drop_ws_head s) as H. rewrite E in H.
  destruct (rev b); simpl in *; auto.
Qed.

Lemma trim_tight s : tight s -> trim s = s.
Proof.
  intros [H1 H2]. unfold trim. rewrite H1, H2. apply rev_involutive.
Qed.

Lemma tight_nil : tight [].
Proof. split; reflexivity. Qed.

Lemma tight_app a m b :
  tight a -> tight b -> a <> [] -> b <> [] -> tight (a ++ m ++ b).
Proof.
  intros [Ha _] [_ Hb] Na Nb. split; apply drop_ws_fix.
  - apply drop_ws_fix in Ha. destruct a; [congruence|]. exact Ha.
  - rewrite !rev_app_distr, <- app_assoc.
    apply drop_ws_fix in Hb.
    destruct (rev b) eqn:E; [|exact Hb].
    apply (f_equal (@rev N)) in E. rewrite rev_involutive in E.
    simpl in E. congruence.
Qed.

(** Whitespace only: [trim] leaves nothing. *)
Lemma drop_ws_blank s : forallb is_ws s = true -> drop_ws s = [].
Proof.
  induction s as [|c s IH]; simpl; auto.
  destruct (is_ws c); simpl; auto. discriminate.
Qed.

Lemma trim_blank s : forallb is_ws s = true -> trim s = [].
Proof. intros H. unfold trim. rewrite (drop_ws_blank _ H). reflexivity. Qed.

Lemma drop_ws_filter s : filter nonws (drop_ws s) = filter nonws s.
Proof.
  induction s as [|c s IH]; simpl; auto.
  unfold nonws at 2. destruct (is_ws c) eqn:E; simpl; auto.
  unfold nonws at 1. rewrite E. reflexivity.
Qed.

Lemma filter_rev (f : N -> bool) s : filter f (rev s) = rev (filter f s).
Proof.
  induction s as [|c s IH]; simpl; auto.
  rewrite filter_app, IH. simpl. destruct (f c); simpl; auto.
  rewrite app_nil_r. reflexivity.
Qed.

(** [trim] only removes whitespace. *)
Lemma trim_filter s : filter nonws (trim s) = filter nonws s.
Proof.
  unfold trim.
  rewrite filter_rev, drop_ws_filter, filter_rev, rev_involutive.
  apply drop_ws_filter.
Qed.

Lemma starts_with_app k b : starts_with (k ++ b) k = true.
Proof.
  induction k as [|c k IH]; cbn [starts_with app]; auto.
  rewrite N.eqb_refl. exact IH.
Qed.

Lemma includes_app a k b : includes (a ++ k ++ b) k = true.
Proof.
  induction a as [|c a IH]; cbn [app].
  - destruct (k ++ b) eqn:E; cbn [includes]; rewrite <- E, starts_with_app;
      reflexivity.
  - cbn [includes]. rewrite IH. apply orb_true_r.
Qed.

(** The units passed over by a match of [/\n\s*\n/] are whitespace. *)
Lemma sep_tail_ws t n :
  sep_tail t = Some n ->
  (n <= length t)%nat /\ forallb is_ws (firstn n t) = true.
Proof.
  revert n. induction t as [|c t IH]; simpl; intros n H; [discriminate|].
  destruct (is_ws c) eqn:E; [|discriminate].
  destruct (sep_tail t) as [m|].
  - injection H as <-. destruct (IH m eq_refl) as [L W].
    simpl. rewrite E, W. split; [lia|reflexivity].
  - destruct (c =? LF)%N; [|discriminate]. injection H as <-.
    simpl. rewrite E. split; [lia|]. destruct t; reflexivity.
Qed.

Lemma match_sep_ws s n :
  match_sep s = Some n ->
  (0 < n <= length s)%nat /\ forallb is_ws (firstn n s) = true.
Proof.
  destruct s as [|c t]; simpl; [discriminate|].
  destruct (c =? LF)%N eqn:E; [|discriminate].
  destruct (sep_tail t) as [m|] eqn:T; [|discriminate].
  intros H. injection H as <-.
  destruct (sep_tail_ws _ _ T) as [L W].
  apply N.eqb_eq in E. subst c. simpl. rewrite W. split; [lia|reflexivity].
Qed.

Lemma filter_nonws_cons c s :
  is_ws c = true -> filter nonws (c :: s) = filter nonws s.
Proof. intros H. cbn [filter]. unfold nonws at 1. rewrite H. reflexivity. Qed.

(** Splitting into paragraphs loses whitespace only. *)
Lemma split_go_filter s : forall skip cur,
  forallb is_ws (firstn skip s) = true ->
  filter nonws (concat (split_go skip cur s)) = filter nonws (cur ++ s).
Proof.
  induction s as [|c s IH]; intros skip cur W.
  - simpl. rewrite !app_nil_r. reflexivity.
  - cbn [split_go]. destruct skip as [|k].
    + destruct (match_sep (c :: s)) as [n|] eqn:M.
      * destruct (match_sep_ws _ _ M) as [[P L] Wn].
        destruct n as [|n]; [lia|]. cbn [Nat.pred].
        cbn [firstn forallb] in Wn. apply andb_prop in Wn as [Wc Wn].
        cbn [concat].
        rewrite filter_app, (IH n [] Wn), !filter_app.
        rewrite (filter_nonws_cons c s Wc). reflexivity.
      * rewrite (IH 0%nat (cur ++ [c]) eq_refl), <- app_assoc. reflexivity.
    + cbn [firstn forallb] in W. apply andb_prop in W as [Wc W].
      rewrite (IH k cur W), !filter_app.
      rewrite (filter_nonws_cons c s Wc). reflexivity.
Qed.

Lemma split_paragraphs_filter s :
  filter nonws (concat (split_paragraphs s)) = filter nonws s.
Proof. apply (split_go_filter s 0 []). reflexivity. Qed.

Lemma split_go_nonempty s : forall skip cur, split_go skip cur s <> [].
Proof.
  induction s as [|c s IH]; intros skip cur; cbn [split_go]; [discriminate|].
  destruct skip; [|apply IH].
  destruct (match_sep (c :: s)); [discriminate|apply IH].
Qed.

End JsStringFacts.

(** ** Facts about the chunker *)

Module ChunkerFacts.

Import Chunker Spec JsStringFacts.

Lemma join_snoc g p :
  g <> [] -> join (g ++ [p]) = join g ++ para_sep ++ p.
Proof.
  induction g as [|a g IH]; [congruence|]. intros _.
  destruct g as [|b g]; [reflexivity|].
  change (a ++ para_sep ++ join ((b :: g) ++ [p]) =
          (a ++ para_sep ++ join (b :: g)) ++ para_sep ++ p).
  rewrite IH by discriminate. rewrite <- !app_assoc. reflexivity.
Qed.

Lemma join_ok g : Forall para_ok g -> g <> [] -> para_ok (join g).
Proof.
  induction g as [|a g IH]; [congruence|]. intros F _.
  inversion F as [|? ? Ha Fg]; subst.
  destruct g as [|b g]; [exact Ha|].
  destruct (IH Fg ltac:(discriminate)) as [T N].
  destruct Ha as [Ta Na]. split.
  - apply tight_app; assumption.
  - cbn [join]. destruct a; [congruence|discriminate].
Qed.

Lemma join_tight g : Forall para_ok g -> tight (join g).
Proof.
  destruct g as [|a g]; [intros _; apply tight_nil|].
  intros F. apply join_ok; [exact F|discriminate].
Qed.

Lemma join_nil g : Forall para_ok g -> join g = [] -> g = [].
Proof.
  destruct g as [|a g]; [reflexivity|]. intros F E.
  destruct (join_ok (a :: g) F ltac:(discriminate)) as [_ N]. congruence.
Qed.

Lemma includes_prefix pre s k :
  includes s k = true -> includes (pre ++ s) k = true.
Proof.
  intros H. induction pre as [|c pre IH]; [exact H|].
  cbn [app includes]. rewrite IH. apply orb_true_r.
Qed.

Lemma includes_join g p : In p g -> includes (join g) p = true.
Proof.
  induction g as [|a g IH]; [contradiction|].
  destruct g as [|b g].
  - intros [->|[]]. cbn [join]. rewrite <- (app_nil_r p) at 1.
    apply (includes_app [] p []).
  - change (join (a :: b :: g)) with (a ++ para_sep ++ join (b :: g)).
    intros [->|H].
    + apply (includes_app [] p (para_sep ++ join (b :: g))).
    + rewrite app_assoc. apply includes_prefix, IH, H.
Qed.

Lemma tight_filter_nil s : tight s -> filter nonws s = [] -> s = [].
Proof.
  intros [H _] F. apply drop_ws_fix in H.
  destruct s as [|c s]; [reflexivity|].
  cbn [filter] in F. unfold nonws at 1 in F. rewrite H in F. discriminate.
Qed.

Lemma filter_concat_nil (f : N -> bool) (l : list jsstring) :
  filter f (concat l) = [] -> forall x, In x l -> filter f x = [].
Proof.
  induction l as [|a l IH]; [contradiction|].
  cbn [concat]. rewrite filter_app. intros E x [<-|H].
  - destruct (filter f a); [reflexivity|discriminate].
  - apply IH; [|exact H]. destruct (filter f a); [exact E|discriminate].
Qed.

Lemma filter_concat_not_nil (f : N -> bool) (l : list jsstring) :
  filter f (concat l) <> [] -> exists x, In x l /\ filter f x <> [].
Proof.
  induction l as [|a l IH]; [intros H; elim H; reflexivity|].
  cbn [concat]. rewrite filter_app. intros E.
  destruct (filter f a) eqn:Fa.
  - destruct (IH E) as [x [I Nx]]. exists x. split; [right; exact I|exact Nx].
  - exists a. split; [left; reflexivity|]. rewrite Fa. discriminate.
Qed.

(** A blank document has no paragraph ... *)
Lemma paragraphs_of_blank doc :
  forallb is_ws doc = true ->
  forall p, In p (split_paragraphs doc) -> trim p = [].
Proof.
  intros W p I.
  apply tight_filter_nil; [apply tight_trim|].
  rewrite trim_filter.
  apply (filter_concat_nil nonws (split_paragraphs doc)); [|exact I].
  rewrite split_paragraphs_filter.
  clear p I. induction doc as [|c doc IH]; [reflexivity|].
  cbn [forallb] in W. apply andb_prop in W as [Wc W].
  rewrite (filter_nonws_cons c doc Wc). apply IH, W.
Qed.

(** ... and any other document has one. *)
Lemma paragraphs_of_nonblank doc :
  Exists (fun c => is_ws c = false) doc -> paragraphs_of doc <> [].
Proof.
  intros E.
  assert (F : filter nonws doc <> []).
  { induction E as [c l H|c l _ IH]; cbn [filter].
    - unfold nonws at 1. rewrite H. discriminate.
    - destruct (nonws c); [discriminate|exact IH]. }
  rewrite <- split_paragraphs_filter in F.
  destruct (filter_concat_not_nil _ _ F) as [p [I Np]].
  rewrite <- trim_filter in Np.
  assert (In (trim p) (paragraphs_of doc)) as J.
  { apply filter_In. split; [apply in_map, I|].
    destruct (trim p); [elim Np; reflexivity|reflexivity]. }
  intros Z. rewrite Z in J. exact J.
Qed.

Lemma paragraphs_of_ok doc : Forall para_ok (paragraphs_of doc).
Proof.
  apply Forall_forall. intros p I.
  apply filter_In in I as [I N].
  apply in_map_iff in I as [q [<- _]].
  split; [apply tight_trim|].
  destruct (trim q); [discriminate|discriminate].
Qed.

Section WithNode.

Variable path_resolve path_basename path_dirname : jsstring -> jsstring.
Variable sha256_hex16 : jsstring -> Z -> jsstring.
Variable now : jsstring.

Local Abbreviation createChunk :=
  (createChunk path_resolve path_basename path_dirname sha256_hex16 now).
Local Abbreviation loop_body :=
  (loop_body path_resolve path_basename path_dirname sha256_hex16 now).
Local Abbreviation final_flush :=
  (final_flush path_resolve path_basename path_dirname sha256_hex16 now).
Local Abbreviation chunkDocument :=
  (chunkDocument path_resolve path_basename path_dirname sha256_hex16 now).

(** *** The buffer and the chunks as groups of paragraphs *)


Lemma grouped_init : Grouped loop_init [] [].
Proof. split; auto. Qed.

Lemma grouped_body filePath st gs g p :
  Grouped st gs g ->
  exists gs' g',
    Grouped (loop_body filePath st p) gs' g' /\
    concat gs' ++ g' =
    concat gs ++ g ++ (if is_empty (trim p) then [] else [trim p]).
Proof.
  intros [Ht Hc Ho Hn Hf]. unfold Chunker.loop_body.
  destruct (is_empty (trim p)) eqn:E.
  { exists gs, g. rewrite app_nil_r. split; [split; assumption|reflexivity]. }
  assert (Hp : para_ok (trim p)).
  { split; [apply tight_trim|]. destruct (trim p); discriminate. }
  destruct (must_flush (currentChunk st) (trim p)) eqn:M.
  - unfold must_flush in M.
    apply andb_prop in M as [M _]. apply andb_prop in M as [M _].
    apply Nat.ltb_lt in M.
    assert (Ng : g <> []).
    { intros ->. rewrite Hc in M. simpl in M. lia. }
    exists (gs ++ [g]), [trim p]. split.
    + split; cbn [chunks currentChunk].
      * rewrite !map_app, Ht. cbn [map text Chunker.createChunk].
        rewrite Hc, (trim_tight _ (join_tight g Ho)). reflexivity.
      * reflexivity.
      * constructor; [exact Hp|constructor].
      * apply Forall_app. split; [exact Hn|]. constructor; [exact Ng|constructor].
      * discriminate.
    + rewrite concat_app. cbn [concat]. rewrite app_nil_r, <- app_assoc.
      reflexivity.
  - exists gs, (g ++ [trim p]). split; [|reflexivity].
    split; cbn [chunks currentChunk].
    + exact Ht.
    + destruct (0 <? length (currentChunk st))%nat eqn:P.
      * apply Nat.ltb_lt in P.
        assert (Ng : g <> []).
        { intros ->. rewrite Hc in P. simpl in P. lia. }
        rewrite (join_snoc g (trim p) Ng), Hc. reflexivity.
      * apply Nat.ltb_ge in P.
        assert (Eg : g = []).
        { apply (join_nil g Ho). rewrite <- Hc.
          destruct (currentChunk st); [reflexivity|simpl in P; lia]. }
        subst g. reflexivity.
    + apply Forall_app. split; [exact Ho|]. constructor; [exact Hp|constructor].
    + exact Hn.
    + intros Z. destruct g; discriminate.
Qed.

Lemma grouped_loop filePath ps : forall st gs g,
  Grouped st gs g ->
  exists gs' g',
    Grouped (fold_left (loop_body filePath) ps st) gs' g' /\
    concat gs' ++ g' =
    concat gs ++ g ++
    filter (fun p => negb (is_empty p)) (map trim ps).
Proof.
  induction ps as [|p ps IH]; intros st gs g G.
  - exists gs, g. cbn [map filter]. rewrite app_nil_r. split; [exact G|reflexivity].
  - destruct (grouped_body filePath st gs g p G) as [gs1 [g1 [G1 E1]]].
    destruct (IH _ _ _ G1) as [gs2 [g2 [G2 E2]]].
    exists gs2, g2. split; [exact G2|].
    rewrite E2, app_assoc, E1. cbn [map filter].
    destruct (is_empty (trim p)); cbn [negb];
      rewrite <- ?app_assoc; reflexivity.
Qed.

Lemma grouped_document doc filePath :
  exists gs g,
    Grouped (fold_left (loop_body filePath) (split_paragraphs doc) loop_init)
            gs g /\
    concat gs ++ g = paragraphs_of doc.
Proof.
  destruct (grouped_loop filePath (split_paragraphs doc) _ _ _ grouped_init)
    as [gs [g [G E]]].
  exists gs, g. split; [exact G|exact E].
Qed.

(** C1 (amended): a document with a non-blank character gives at least
    one chunk; the chunk texts are, in source order, the joins of
    consecutive non-empty groups of the trimmed paragraphs, so each
    paragraph of a group is a substring of its chunk; the only
    paragraphs absent are those of the last buffer, and only when that
    buffer is shorter than [minChunkSize] and a chunk was saved before. *)
Theorem chunk_coverage_amended doc filePath :
  Exists (fun c => is_ws c = false) doc ->
  chunkDocument doc filePath <> [] /\
  exists groups dropped,
    paragraphs_of doc = concat groups ++ dropped /\
    map text (chunkDocument doc filePath) = map join groups /\
    Forall (fun g => g <> []) groups /\
    (dropped <> [] ->
     groups <> [] /\ (length (join dropped) < minChunkSize)%nat) /\
    (forall p, In p (concat groups) ->
       exists c, In c (chunkDocument doc filePath) /\
                 includes (text c) p = true).
Proof.
  intros NB.
  destruct (grouped_document doc filePath) as [gs [g [G E]]].
  assert (Ng : g <> []).
  { intros Z. pose proof (grp_first _ _ _ G Z) as Zs. subst.
    apply (paragraphs_of_nonblank doc NB). rewrite <- E. reflexivity. }
  unfold Chunker.chunkDocument, Chunker.final_flush.
  set (st := fold_left _ _ _) in *.
  assert (Sub : forall groups cs, map text cs = map join groups ->
            forall p, In p (concat groups) ->
            exists c, In c cs /\ includes (text c) p = true).
  { intros groups cs M p I.
    apply in_concat in I as [h [Ih Ip]].
    assert (J : In (join h) (map text cs)).
    { rewrite M. apply in_map, Ih. }
    apply in_map_iff in J as [c [Ec Ic]].
    exists c. split; [exact Ic|]. rewrite Ec. apply includes_join, Ip. }
  destruct ((minChunkSize <=? length (currentChunk st))%nat
            || (length (chunks st) =? 0)%nat) eqn:C.
  - assert (M : map text (chunks st ++
               [createChunk (currentChunk st) filePath (currentLineStart st)
                  (currentLineStart st + currentLineCount st - 1)
                  (chunkIndex st)]) = map join (gs ++ [g])).
    { rewrite !map_app, (grp_texts _ _ _ G).
      cbn [map text Chunker.createChunk].
      rewrite (grp_cur _ _ _ G),
        (trim_tight _ (join_tight g (grp_ok _ _ _ G))). reflexivity. }
    split; [intros Z; apply app_eq_nil in Z as [_ Z]; discriminate|].
    exists (gs ++ [g]), []. repeat split.
    + rewrite concat_app, app_nil_r. cbn [concat].
      rewrite app_nil_r. symmetry. exact E.
    + exact M.
    + apply Forall_app. split; [exact (grp_nonempty _ _ _ G)|].
      constructor; [exact Ng|constructor].
    + elim H. reflexivity.
    + elim H. reflexivity.
    + apply Sub, M.
  - apply orb_false_elim in C as [C1 C2].
    apply Nat.leb_gt in C1. apply Nat.eqb_neq in C2.
    assert (Nc : chunks st <> []).
    { intros Z. rewrite Z in C2. apply C2. reflexivity. }
    split; [exact Nc|].
    exists gs, g. repeat split.
    + symmetry. exact E.
    + exact (grp_texts _ _ _ G).
    + exact (grp_nonempty _ _ _ G).
    + intros Z. subst gs. pose proof (grp_texts _ _ _ G) as T.
      destruct (chunks st); [congruence|discriminate].
    + rewrite <- (grp_cur _ _ _ G). exact C1.
    + apply Sub, (grp_texts _ _ _ G).
Qed.

(** *** Sizes *)



Lemma sized_body L filePath st p :
  (is_empty (trim p) = false -> (length (trim p) <= L)%nat) ->
  Sized (size_bound L) st ->
  Sized (size_bound L) (loop_body filePath st p).
Proof.
  intros Hp [Hc Hb]. unfold Chunker.loop_body.
  destruct (is_empty (trim p)) eqn:E; [split; assumption|].
  specialize (Hp eq_refl).
  destruct (must_flush (currentChunk st) (trim p)) eqn:M.
  - split; cbn [chunks currentChunk].
    + apply Forall_app. split; [exact Hc|].
      constructor; [|constructor]. cbn [text Chunker.createChunk].
      pose proof (trim_length (currentChunk st)). lia.
    + unfold size_bound. lia.
  - split; cbn [chunks currentChunk]; [exact Hc|].
    destruct (0 <? length (currentChunk st))%nat eqn:P.
    + unfold must_flush in M. rewrite P in M. cbn [andb] in M.
      rewrite !length_app. cbn [para_sep length].
      unfold size_bound, maxChunkSize, minChunkSize in *.
      apply andb_false_iff in M as [M|M];
        [apply Nat.ltb_ge in M|apply Nat.leb_gt in M]; lia.
    + unfold size_bound. lia.
Qed.

Lemma sized_loop L filePath ps : forall st,
  (forall p, In p ps ->
     is_empty (trim p) = false -> (length (trim p) <= L)%nat) ->
  Sized (size_bound L) st ->
  Sized (size_bound L) (fold_left (loop_body filePath) ps st).
Proof.
  induction ps as [|p ps IH]; intros st Hp Hs; [exact Hs|].
  cbn [fold_left]. apply IH.
  - intros q I. apply Hp. right. exact I.
  - apply sized_body; [apply Hp; left; reflexivity|exact Hs].
Qed.

(** C4 (amended): when no trimmed paragraph is longer than [L], every
    chunk, the final one included, has a text of at most
    [max (maxChunkSize + 2) (L + minChunkSize + 1)] code units; a
    paragraph is never cut, so a long one gives a long chunk wherever
    it stands. *)
Theorem chunk_size_bound_amended doc filePath L :
  (forall p, In p (paragraphs_of doc) -> (length p <= L)%nat) ->
  forall c, In c (chunkDocument doc filePath) ->
    (length (text c) <= Nat.max (maxChunkSize + 2) (L + minChunkSize + 1))%nat.
Proof.
  intros Hp.
  assert (S0 : Sized (size_bound L) loop_init).
  { split; [constructor|]. unfold size_bound. simpl. lia. }
  pose proof (sized_loop L filePath (split_paragraphs doc) loop_init) as H.
  specialize (H ltac:(intros p I Ne; apply Hp, filter_In; split;
                      [apply in_map, I|rewrite Ne; reflexivity]) S0).
  destruct H as [Hc Hb].
  unfold Chunker.chunkDocument, Chunker.final_flush.
  set (st := fold_left _ _ _) in *.
  rewrite Forall_forall in Hc.
  assert (Hall : forall c,
    In c (chunks st ++
          [createChunk (currentChunk st) filePath (currentLineStart st)
             (currentLineStart st + currentLineCount st - 1)
             (chunkIndex st)]) ->
    (length (text c) <= size_bound L)%nat).
  { intros c I. apply in_app_or in I as [I|[<-|[]]]; [apply Hc, I|].
    cbn [text Chunker.createChunk].
    pose proof (trim_length (currentChunk st)). lia. }
  destruct (_ || _); intros c I; [apply Hall, I|apply Hc, I].
Qed.

(** *** Blank input *)

Lemma blank_loop filePath ps : forall st,
  (forall p, In p ps -> trim p = []) ->
  fold_left (loop_body filePath) ps st = st.
Proof.
  induction ps as [|p ps IH]; intros st Hp; [reflexivity|].
  cbn [fold_left]. unfold Chunker.loop_body at 2.
  rewrite (Hp p (or_introl eq_refl)). cbn [is_empty].
  apply IH. intros q I. apply Hp. right. exact I.
Qed.

(** On an empty or whitespace-only document the loop saves nothing,
    and the final test, true because no chunk was saved, pushes the
    empty buffer. *)
Lemma chunkDocument_blank doc filePath :
  forallb is_ws doc = true ->
  chunkDocument doc filePath = [createChunk [] filePath 1 0 0].
Proof.
  intros W. unfold Chunker.chunkDocument.
  rewrite blank_loop by (apply paragraphs_of_blank, W). reflexivity.
Qed.

(** C5 (defect): on every document that is empty or holds only
    whitespace, [chunkDocument] returns exactly one chunk, whose text is
    empty and whose line range is 1 to 0, where the claim has it return
    no chunk. *)
Theorem blank_input_yields_one_chunk doc filePath :
  forallb is_ws doc = true ->
  exists c,
    chunkDocument doc filePath = [c] /\
    text c = [] /\ line_start c = 1%Z /\ line_end c = 0%Z /\
    chunk_index c = 0%Z.
Proof.
  intros W. exists (createChunk [] filePath 1 0 0).
  split; [apply chunkDocument_blank, W|]. repeat split.
Qed.

End WithNode.

End ChunkerFacts.

(** ** Facts about the store adapter and the indexer *)

Module IndexerFacts.

Import Chunker VectorDb Indexer Spec JsStringFacts ChunkerFacts.

Ltac run :=
  cbv beta iota zeta delta
      [bind ret throw try_catch get guard lift_option] in *.

Ltac destruct_write :=
  match goal with
  | |- context [write_ok ?e ?rs] => destruct (write_ok e rs); [|discriminate]
  end.

Lemma jsstring_eqb_refl a : jsstring_eqb a a = true.
Proof.
  induction a as [|c a IH]; [reflexivity|].
  cbn [jsstring_eqb]. rewrite N.eqb_refl. exact IH.
Qed.

Lemma filter_filter_neg {A} (f : A -> bool) l :
  filter f (filter (fun x => negb (f x)) l) = [].
Proof.
  induction l as [|x l IH]; [reflexivity|].
  cbn [filter]. destruct (f x) eqn:E; cbn [negb filter]; [exact IH|].
  rewrite E. exact IH.
Qed.

Lemma filter_idem {A} (f : A -> bool) l :
  filter f (filter f l) = filter f l.
Proof.
  induction l as [|x l IH]; [reflexivity|].
  cbn [filter]. destruct (f x) eqn:E; [|exact IH].
  cbn [filter]. rewrite E, IH. reflexivity.
Qed.

Lemma filter_all {A} (f : A -> bool) l :
  Forall (fun x => f x = true) l -> filter f l = l.
Proof.
  induction 1 as [|x l H _ IH]; [reflexivity|].
  cbn [filter]. rewrite H, IH. reflexivity.
Qed.

Lemma filter_none {A} (f : A -> bool) l :
  Forall (fun x => f x = true) l -> filter (fun x => negb (f x)) l = [].
Proof.
  induction 1 as [|x l H _ IH]; [reflexivity|].
  cbn [filter]. rewrite H. exact IH.
Qed.

(** The predicate built for a path is read back as that path. *)
Lemma sql_literal_escape p :
  sql_literal (escape_quotes p ++ [QUOTE]) = Some p.
Proof.
  induction p as [|c p IH]; [reflexivity|].
  cbn [escape_quotes]. destruct (c =? QUOTE)%N eqn:E.
  - apply N.eqb_eq in E. subst c.
    change (sql_literal (QUOTE :: QUOTE :: escape_quotes p ++ [QUOTE]) =
            Some (QUOTE :: p)).
    cbn [sql_literal]. rewrite N.eqb_refl, IH. reflexivity.
  - cbn [app sql_literal]. rewrite E, IH. reflexivity.
Qed.

Lemma strip_prefix_app pre s : strip_prefix pre (pre ++ s) = Some s.
Proof.
  induction pre as [|c pre IH]; [reflexivity|].
  cbn [app strip_prefix]. rewrite N.eqb_refl. exact IH.
Qed.

Lemma predicate_path_of_path p : predicate_path (path_predicate p) = Some p.
Proof.
  unfold predicate_path, path_predicate.
  rewrite strip_prefix_app. apply sql_literal_escape.
Qed.

Section WithEnv.

Variable e : Env.

Lemma chunkDocument_nonempty doc filePath :
  chunkDocument e doc filePath <> [].
Proof.
  unfold chunkDocument, Chunker.chunkDocument, final_flush.
  set (st := fold_left _ _ _).
  destruct (chunks st) eqn:C.
  - cbn [length Nat.eqb]. rewrite orb_true_r. discriminate.
  - destruct (_ || _); discriminate.
Qed.

Lemma chunkDocument_file_path doc filePath :
  Forall (fun c => file_path c = path_resolve e filePath)
         (chunkDocument e doc filePath).
Proof.
  unfold chunkDocument, Chunker.chunkDocument.
  set (body := Chunker.loop_body _ _ _ _ _ _).
  assert (L : forall ps st,
    Forall (fun c => file_path c = path_resolve e filePath) (chunks st) ->
    Forall (fun c => file_path c = path_resolve e filePath)
           (chunks (fold_left body ps st))).
  { induction ps as [|p ps IH]; intros st H; [exact H|].
    cbn [fold_left]. apply IH. unfold body, loop_body.
    destruct (is_empty (trim p)); [exact H|].
    destruct (must_flush _ _); cbn [chunks]; [|exact H].
    apply Forall_app. split; [exact H|].
    constructor; [reflexivity|constructor]. }
  specialize (L (split_paragraphs doc) loop_init (Forall_nil _)).
  unfold final_flush. destruct (_ || _); [|exact L].
  apply Forall_app. split; [exact L|].
  constructor; [reflexivity|constructor].
Qed.

Lemma embedBatch_length ts vs :
  embedBatch e ts = Some vs -> length vs = length ts.
Proof.
  revert vs. induction ts as [|t ts IH]; intros vs H; cbn [embedBatch] in H.
  - injection H as <-. reflexivity.
  - destruct (embed e t); [|discriminate].
    destruct (embedBatch e ts) as [vs'|]; [|discriminate].
    injection H as <-. cbn [length]. rewrite (IH vs' eq_refl). reflexivity.
Qed.

Lemma chunksWithEmbeddings_paths p cs vs :
  Forall (fun c => file_path c = p) cs ->
  Forall (fun r => jsstring_eqb (row_file_path r) p = true)
         (chunksWithEmbeddings cs vs).
Proof.
  intros H. revert vs. induction H as [|c cs Hc _ IH]; intros vs.
  - constructor.
  - destruct vs as [|v vs]; [constructor|].
    unfold chunksWithEmbeddings. cbn [combine map].
    constructor; [|apply IH].
    cbn [row_of row_file_path fst]. rewrite Hc. apply jsstring_eqb_refl.
Qed.

Lemma chunksWithEmbeddings_length cs vs :
  length vs = length cs -> length (chunksWithEmbeddings cs vs) = length cs.
Proof.
  intros H. unfold chunksWithEmbeddings.
  rewrite length_map, length_combine. lia.
Qed.

Lemma wf_intro w : db w = true -> disk w <> None -> well_formed w.
Proof. intros D K _. split; assumption. Qed.

(** *** [initialize] *)

Lemma initialize_ok w w1 :
  well_formed w ->
  initialize e w = (Ok tt, w1) ->
  well_formed w1 /\ db w1 = true /\ disk w1 = disk w /\
  (table w = true -> w1 = w).
Proof.
  intros WF. unfold initialize.
  destruct (db w) eqn:D.
  { intros H. injection H as <-. auto. }
  destruct (connect_ok e); cbn [negb]; [|discriminate].
  destruct (open_ok e); cbn [negb]; [|discriminate].
  assert (T : table w = false).
  { destruct (table w) eqn:T; [|reflexivity].
    destruct (WF T) as [D' _]. congruence. }
  destruct (disk w) eqn:K; intros H; injection H as <-;
    cbn [db table disk]; (split; [|split; [reflexivity|split]]);
    try reflexivity; try congruence.
  - intros _. cbn [db table disk]. split; [reflexivity|discriminate].
  - unfold well_formed. cbn [db table disk]. rewrite T. discriminate.
Qed.

Lemma initialize_open w :
  db w = true -> initialize e w = (Ok tt, w).
Proof. intros D. unfold initialize. rewrite D. reflexivity. Qed.

(** *** [deleteFileChunks] *)


Lemma deleteFileChunks_ok filePath w k w1 :
  well_formed w ->
  deleteFileChunks e filePath w = (Ok k, w1) ->
  well_formed w1 /\ db w1 = true /\
  ((table w1 = false /\ disk w1 = disk w /\ k = 0%Z) \/
   (table w1 = true /\
    delete_ok e (path_predicate (path_resolve e filePath)) = true /\
    k = 1%Z /\ rows w1 = without (path_resolve e filePath) (rows w)) \/
   (table w1 = true /\
    delete_ok e (path_predicate (path_resolve e filePath)) = false /\
    k = 0%Z /\ disk w1 = disk w)).
Proof.
  intros WF. unfold deleteFileChunks. run.
  destruct (initialize e w) as [[[]|err] w0] eqn:I; [|discriminate].
  destruct (initialize_ok w w0 WF I) as [WF0 [D0 [K0 _]]].
  destruct (table w0) eqn:T0; cbn [negb].
  - unfold tableDelete. rewrite predicate_path_of_path.
    destruct (delete_ok e (path_predicate (path_resolve e filePath))) eqn:Del;
      intros H; injection H as <- <-.
    + split; [|split; [exact D0|]].
      * unfold well_formed. cbn. intros _. split; [exact D0|discriminate].
      * right. left. cbn. rewrite T0. repeat split; auto.
        unfold rows at 2. rewrite <- K0. reflexivity.
    + split; [exact WF0|split; [exact D0|]].
      right. right. auto.
  - intros H. injection H as <- <-.
    split; [exact WF0|split; [exact D0|]]. left. auto.
Qed.

(** *** [addChunks] *)

Lemma addChunks_ok cs w w' :
  well_formed w -> db w = true -> cs <> [] ->
  addChunks e cs w = (Ok tt, w') ->
  exists vs,
    embedBatch e (map text cs) = Some vs /\
    rows w' = rows w ++ chunksWithEmbeddings cs vs /\
    (table w = false -> disk w = None) /\
    well_formed w' /\ db w' = true.
Proof.
  intros WF D N. unfold addChunks. run.
  rewrite (initialize_open w D), D.
  destruct cs as [|c cs]; [congruence|]. cbn [length Nat.eqb].
  destruct (embedBatch e (map text (c :: cs))) as [vs|]; [|discriminate].
  run. destruct (table w) eqn:T; cbn [negb].
  - unfold tableAdd. destruct_write.
    intros H. injection H as <-. exists vs.
    split; [reflexivity|]. split; [reflexivity|].
    split; [discriminate|]. split; [|exact D].
    apply wf_intro; [exact D|discriminate].
  - unfold createTable. destruct (disk w) eqn:K; [discriminate|].
    destruct_write.
    intros H. injection H as <-. exists vs.
    split; [reflexivity|]. split.
    { unfold rows. cbn [disk]. rewrite K. reflexivity. }
    split; [reflexivity|]. split; [|exact D].
    apply wf_intro; [exact D|discriminate].
Qed.

(** *** [indexFile] *)

Lemma filter_app_rows (f : Row -> bool) a b :
  Forall (fun r => f r = true) b ->
  filter f (filter (fun r => negb (f r)) a ++ b) = b /\
  filter (fun r => negb (f r)) (filter (fun r => negb (f r)) a ++ b) =
  filter (fun r => negb (f r)) a.
Proof.
  intros H. rewrite !filter_app, filter_filter_neg, (filter_all f b H).
  rewrite (filter_none f b H), app_nil_r. split; [reflexivity|].
  apply (filter_idem (fun r => negb (f r))).
Qed.

Lemma indexFile_replaces filePath w n w' :
  well_formed w ->
  delete_ok e (path_predicate (path_resolve e filePath)) = true ->
  indexFile e filePath w = (Ok n, w') ->
  exists content vs,
    read_file e filePath = Some content /\
    embedBatch e (map text (chunkDocument e content filePath)) = Some vs /\
    rows_for e filePath w' =
      chunksWithEmbeddings (chunkDocument e content filePath) vs /\
    length (rows_for e filePath w') = n /\
    n = length (chunkDocument e content filePath) /\
    rows_not_for e filePath w' = rows_not_for e filePath w /\
    well_formed w'.
Proof.
  intros WF Del. unfold indexFile. run.
  destruct (read_file e filePath) as [content|] eqn:R; [|discriminate].
  run.
  destruct (deleteFileChunks e filePath w) as [[k|err] w1] eqn:D;
    [|discriminate].
  destruct (deleteFileChunks_ok filePath w k w1 WF D) as [WF1 [D1 Cases]].
  pose proof (chunkDocument_nonempty content filePath) as Ne.
  pose proof (chunkDocument_file_path content filePath) as Fp.
  set (cs := chunkDocument e content filePath) in *.
  destruct (length cs =? 0)%nat eqn:L0.
  { apply Nat.eqb_eq in L0. destruct cs; [congruence|discriminate]. }
  destruct (addChunks e cs w1) as [[[]|err] w2] eqn:A; [|discriminate].
  intros H. injection H as <- <-.
  destruct (addChunks_ok cs w1 w2 WF1 D1 Ne A) as [vs [Eb [Rw [Tn [WF2 _]]]]].
  pose proof (chunksWithEmbeddings_paths (path_resolve e filePath) cs vs Fp)
    as Paths.
  exists content, vs. split; [reflexivity|]. split; [exact Eb|].
  assert (Len : length (chunksWithEmbeddings cs vs) = length cs).
  { apply chunksWithEmbeddings_length.
    rewrite (embedBatch_length _ _ Eb). apply length_map. }
  assert (Core : rows_for e filePath w2 = chunksWithEmbeddings cs vs /\
                 rows_not_for e filePath w2 = rows_not_for e filePath w).
  { unfold rows_for, rows_not_for. rewrite Rw.
    destruct Cases as [[T1 [K1 _]]|[[T1 [_ [_ R1]]]|[_ [Bad _]]]].
    - assert (K : disk w1 = None) by (apply Tn, T1).
      assert (E1 : rows w1 = []) by (unfold rows; rewrite K; reflexivity).
      assert (E0 : rows w = []).
      { unfold rows. rewrite <- K1, K. reflexivity. }
      rewrite E1, E0. cbn [app filter].
      split; [apply filter_all, Paths|].
      apply (filter_none _ _ Paths).
    - rewrite R1. unfold without.
      apply (filter_app_rows
               (fun r => jsstring_eqb (row_file_path r)
                                      (path_resolve e filePath))
               (rows w) _ Paths).
    - congruence. }
  destruct Core as [C1 C2].
  split; [exact C1|]. split; [rewrite C1; exact Len|].
  split; [reflexivity|]. split; [exact C2|exact WF2].
Qed.

(** C2 (amended): when the call of the store's delete does not fail, a
    successful [indexFile] leaves for the path exactly the rows of the
    chunks of the content it read, as many as the count it returns,
    whatever the store held for the path before, and leaves the rows of
    the other paths as they were; indexing the same content again
    gives the same count and the same number of rows. *)
Theorem replace_semantics_amended filePath w n w' :
  well_formed w ->
  delete_ok e (path_predicate (path_resolve e filePath)) = true ->
  indexFile e filePath w = (Ok n, w') ->
  (exists content vs,
     read_file e filePath = Some content /\
     embedBatch e (map text (chunkDocument e content filePath)) = Some vs /\
     rows_for e filePath w' =
       chunksWithEmbeddings (chunkDocument e content filePath) vs /\
     length (rows_for e filePath w') = n /\
     n = length (chunkDocument e content filePath)) /\
  rows_not_for e filePath w' = rows_not_for e filePath w /\
  (forall n2 w2,
     indexFile e filePath w' = (Ok n2, w2) ->
     n2 = n /\ length (rows_for e filePath w2) = n).
Proof.
  intros WF Del I1.
  destruct (indexFile_replaces filePath w n w' WF Del I1)
    as [c1 [v1 [R1 [E1 [Rows1 [L1 [N1 [Other WF1]]]]]]]].
  split; [exists c1, v1; auto|]. split; [exact Other|].
  intros n2 w2 I2.
  destruct (indexFile_replaces filePath w' n2 w2 WF1 Del I2)
    as [c2 [v2 [R2 [_ [_ [L2 [N2 _]]]]]]].
  assert (c1 = c2) by congruence. subst c2.
  split; [congruence|]. rewrite L2. congruence.
Qed.

Lemma initialize_result w w0 :
  initialize e w = (Ok tt, w0) -> db w0 = true /\ disk w0 = disk w.
Proof.
  unfold initialize. destruct (db w) eqn:D.
  { intros H. injection H as <-. auto. }
  destruct (connect_ok e); cbn [negb]; [|discriminate].
  destruct (open_ok e); cbn [negb]; [|discriminate].
  destruct (disk w) eqn:K; intros H; injection H as <-; auto.
Qed.

(** C10 (amended): [deleteFileChunks] lets no failure of the store's
    delete out: the only error it can end with is that of [initialize],
    raised before the guarded block; once the store is open on a table,
    a failed delete is answered by [0] and changes nothing, and
    [indexFile] goes on to embed and add the new rows beside the old
    ones and returns their count. *)
Theorem deleteFileChunks_swallows_delete_failure filePath w :
  (forall err w1,
     deleteFileChunks e filePath w = (Err err, w1) ->
     initialize e w = (Err err, w1)) /\
  (forall w0,
     initialize e w = (Ok tt, w0) -> table w0 = true ->
     delete_ok e (path_predicate (path_resolve e filePath)) = false ->
     deleteFileChunks e filePath w = (Ok 0%Z, w0) /\
     forall content vs,
       read_file e filePath = Some content ->
       embedBatch e (map text (chunkDocument e content filePath)) = Some vs ->
       write_ok e (chunksWithEmbeddings
                     (chunkDocument e content filePath) vs) = true ->
       indexFile e filePath w =
       (Ok (length (chunkDocument e content filePath)),
        {| db := true; table := true;
           disk := Some (rows w ++
                         chunksWithEmbeddings
                           (chunkDocument e content filePath) vs) |})).
Proof.
  split.
  - intros err w1. unfold deleteFileChunks. run.
    destruct (initialize e w) as [[[]|err0] w0];
      [|intros H; injection H as <- <-; reflexivity].
    destruct (table w0); cbn [negb]; [|discriminate].
    unfold tableDelete. rewrite predicate_path_of_path.
    destruct (delete_ok e _); discriminate.
  - intros w0 I T Del.
    destruct (initialize_result w w0 I) as [D K].
    assert (E0 : deleteFileChunks e filePath w = (Ok 0%Z, w0)).
    { unfold deleteFileChunks. run.
      rewrite I, T. cbn [negb].
      unfold tableDelete. rewrite Del. reflexivity. }
    split; [exact E0|].
    intros content vs R Eb Wr. unfold indexFile. run.
    rewrite R. run. rewrite E0.
    pose proof (chunkDocument_nonempty content filePath) as Ne.
    set (cs := chunkDocument e content filePath) in *.
    destruct (length cs =? 0)%nat eqn:L0.
    { apply Nat.eqb_eq in L0. destruct cs; [congruence|discriminate]. }
    unfold addChunks. run.
    rewrite (initialize_open w0 D), D, L0, Eb. run.
    rewrite T. cbn [negb]. unfold tableAdd. rewrite Wr, D, T.
    unfold rows. rewrite K. reflexivity.
Qed.

(** *** Every world the program reaches is well formed *)

Lemma initialize_wf w : well_formed w -> well_formed (snd (initialize e w)).
Proof.
  intros WF. unfold initialize.
  destruct (db w) eqn:D; [exact WF|].
  assert (T : table w = false).
  { destruct (table w) eqn:T; [|reflexivity].
    destruct (WF T) as [D' _]. congruence. }
  destruct (connect_ok e); cbn [negb snd]; [|exact WF].
  destruct (open_ok e); cbn [negb snd].
  - destruct (disk w) eqn:K; cbn [snd].
    + apply wf_intro; [reflexivity|discriminate].
    + intros T'. cbn [table] in T'. congruence.
  - intros T'. cbn [table] in T'. congruence.
Qed.

Lemma deleteFileChunks_wf filePath w :
  well_formed w -> well_formed (snd (deleteFileChunks e filePath w)).
Proof.
  intros WF. pose proof (initialize_wf w WF) as WF0.
  unfold deleteFileChunks. run.
  destruct (initialize e w) as [[[]|err] w0]; cbn [snd] in *; [|exact WF0].
  destruct (table w0) eqn:T; cbn [negb snd]; [|exact WF0].
  unfold tableDelete. rewrite predicate_path_of_path.
  destruct (delete_ok e _); cbn [snd]; [|exact WF0].
  destruct (WF0 T) as [D _].
  apply wf_intro; [exact D|discriminate].
Qed.

Lemma addChunks_wf cs w :
  well_formed w -> well_formed (snd (addChunks e cs w)).
Proof.
  intros WF. pose proof (initialize_wf w WF) as WF0.
  unfold addChunks. run.
  destruct (initialize e w) as [[[]|err] w0]; cbn [snd] in *; [|exact WF0].
  destruct (db w0) eqn:D; cbn [snd]; [|exact WF0].
  destruct (length cs =? 0)%nat; cbn [snd]; [exact WF0|].
  destruct (embedBatch e (map text cs)) as [vs|]; run; cbn [snd];
    [|exact WF0].
  destruct (table w0) eqn:T; cbn [negb].
  - unfold tableAdd.
    destruct (write_ok e (chunksWithEmbeddings cs vs)); cbn [snd];
      [|exact WF0].
    apply wf_intro; [exact D|discriminate].
  - unfold createTable. destruct (disk w0) eqn:K; cbn [snd]; [exact WF0|].
    destruct (write_ok e (chunksWithEmbeddings cs vs)); cbn [snd];
      [|exact WF0].
    apply wf_intro; [exact D|discriminate].
Qed.

Lemma indexFile_wf filePath w :
  well_formed w -> well_formed (snd (indexFile e filePath w)).
Proof.
  intros WF. unfold indexFile. run.
  destruct (read_file e filePath) as [content|]; run; cbn [snd]; [|exact WF].
  pose proof (deleteFileChunks_wf filePath w WF) as WF1.
  destruct (deleteFileChunks e filePath w) as [[k|err] w1]; cbn [snd] in *;
    [|exact WF1].
  destruct (length (chunkDocument e content filePath) =? 0)%nat; cbn [snd];
    [exact WF1|].
  pose proof (addChunks_wf (chunkDocument e content filePath) w1 WF1) as WF2.
  destruct (addChunks e (chunkDocument e content filePath) w1)
    as [[[]|err] w2]; cbn [snd] in *; exact WF2.
Qed.

Lemma world_after_wf files : forall w,
  well_formed w -> well_formed (world_after e files w).
Proof.
  induction files as [|file files IH]; intros w WF; [exact WF|].
  cbn [world_after]. apply IH, indexFile_wf, WF.
Qed.

(** *** [indexDirectory] *)

Lemma index_files_outcomes files : forall acc w,
  index_files e files acc w =
  (Ok {| indexed := indexed acc + succeeded_chunks (file_outcomes e files w);
         failed := failed acc ++ failed_files (file_outcomes e files w) |},
   world_after e files w).
Proof.
  induction files as [|file files IH]; intros acc w.
  - cbn [index_files file_outcomes succeeded_chunks failed_files world_after].
    unfold ret. rewrite Nat.add_0_r, app_nil_r. destruct acc; reflexivity.
  - cbn [index_files file_outcomes world_after]. run.
    destruct (indexFile e file w) as [[n|err] w1];
      cbn [fst snd succeeded_chunks failed_files]; rewrite IH;
      cbn [indexed failed].
    + rewrite Nat.add_assoc. reflexivity.
    + rewrite <- app_assoc. reflexivity.
Qed.

Lemma file_outcomes_files files : forall w,
  map fst (file_outcomes e files w) = files.
Proof.
  induction files as [|file files IH]; intros w; [reflexivity|].
  cbn [file_outcomes map fst]. rewrite IH. reflexivity.
Qed.

(** C9: whatever each file comes to, [indexDirectory] tries every file
    that matched, in order; it returns the sum of the chunk counts of
    the files whose [indexFile] succeeded and the paths of those whose
    [indexFile] failed. *)
Theorem directory_error_isolation dirPath pattern files w :
  glob_sync e (path_resolve e dirPath) pattern = Listed files ->
  indexDirectory e dirPath pattern w =
  (Ok {| indexed := succeeded_chunks (file_outcomes e files w);
         failed := failed_files (file_outcomes e files w) |},
   world_after e files w) /\
  map fst (file_outcomes e files w) = files.
Proof.
  intros G. split; [|apply file_outcomes_files].
  unfold indexDirectory. rewrite G. unfold import_glob, sync. run.
  rewrite index_files_outcomes. reflexivity.
Qed.

End WithEnv.

End IndexerFacts.

(** ** Facts about the retriever *)

Module RetrieverFacts.

Import VectorDb Retriever Spec IndexerFacts.

Open Scope Q_scope.

(** *** The stable sort *)

Section SortFacts.

Variable A : Type.
Variable compare : A -> A -> Q.

Lemma sort_insert_perm x l : Permutation (sort_insert compare x l) (x :: l).
Proof.
  induction l as [|y l IH]; cbn [sort_insert]; [reflexivity|].
  destruct (Qle_bool (compare x y) 0); [reflexivity|].
  rewrite IH. apply perm_swap.
Qed.

Lemma js_sort_perm l : Permutation (js_sort compare l) l.
Proof.
  induction l as [|x l IH]; cbn [js_sort fold_right]; [reflexivity|].
  rewrite sort_insert_perm. constructor. exact IH.
Qed.

Lemma js_sort_in l x : In x (js_sort compare l) <-> In x l.
Proof.
  split; apply Permutation_in;
    [apply js_sort_perm|symmetry; apply js_sort_perm].
Qed.

End SortFacts.

Lemma by_score_desc_le x y :
  Qle_bool (by_score_desc x y) 0 = true <-> score y <= score x.
Proof.
  unfold by_score_desc. rewrite Qle_bool_iff. split; intros H; lra.
Qed.

Lemma sort_insert_sorted x l :
  sorted_desc l -> sorted_desc (sort_insert by_score_desc x l).
Proof.
  unfold sorted_desc.
  induction 1 as [|y l Sl IH Hy]; cbn [sort_insert].
  - constructor; constructor.
  - destruct (Qle_bool (by_score_desc x y) 0) eqn:C.
    + apply by_score_desc_le in C.
      constructor; [constructor; assumption|].
      constructor; [exact C|].
      rewrite Forall_forall in Hy |- *. intros z Iz.
      specialize (Hy z Iz). unfold higher_first in *. lra.
    + assert (Lt : score x <= score y).
      { destruct (Qlt_le_dec (score x) (score y)) as [L|L]; [lra|].
        apply by_score_desc_le in L. congruence. }
      constructor; [exact IH|].
      rewrite Forall_forall in Hy |- *. intros z Iz.
      apply (Permutation_in _ (sort_insert_perm _ by_score_desc x l)) in Iz.
      destruct Iz as [<-|Iz]; [exact Lt|apply Hy, Iz].
Qed.

Lemma js_sort_sorted l : sorted_desc (js_sort by_score_desc l).
Proof.
  induction l as [|x l IH].
  - constructor.
  - apply (sort_insert_sorted x (js_sort by_score_desc l)), IH.
Qed.

(** The sort is stable: results of one score keep their order. *)
Lemma sort_insert_stable (s : Q) x l :
  sorted_desc l ->
  filter (fun r => Qeq_bool (score r) s) (sort_insert by_score_desc x l) =
  filter (fun r => Qeq_bool (score r) s) (x :: l).
Proof.
  unfold sorted_desc.
  induction 1 as [|y l Sl IH Hy]; cbn [sort_insert]; [reflexivity|].
  destruct (Qle_bool (by_score_desc x y) 0) eqn:C; [reflexivity|].
  assert (Lt : score x < score y).
  { destruct (Qlt_le_dec (score x) (score y)) as [L|L]; [exact L|].
    apply by_score_desc_le in L. congruence. }
  change (filter ?f (y :: ?t)) with
    (if f y then y :: filter f t else filter f t).
  rewrite IH. cbn [filter].
  destruct (Qeq_bool (score x) s) eqn:Ex; [|reflexivity].
  destruct (Qeq_bool (score y) s) eqn:Ey; [|reflexivity].
  apply Qeq_bool_iff in Ex, Ey. lra.
Qed.

Lemma js_sort_stable (s : Q) l :
  filter (fun r => Qeq_bool (score r) s) (js_sort by_score_desc l) =
  filter (fun r => Qeq_bool (score r) s) l.
Proof.
  induction l as [|x l IH]; [reflexivity|].
  change (js_sort by_score_desc (x :: l))
    with (sort_insert by_score_desc x (js_sort by_score_desc l)).
  rewrite (sort_insert_stable s x _ (js_sort_sorted l)).
  cbn [filter]. rewrite IH. reflexivity.
Qed.

(** *** Positions in a sorted list *)

Lemma sorted_nth l : sorted_desc l ->
  forall i j a b, (i < j)%nat ->
    nth_error l i = Some a -> nth_error l j = Some b -> score b <= score a.
Proof.
  unfold sorted_desc.
  induction 1 as [|x l Sl IH Hx]; intros i j a b Lt Ha Hb.
  - destruct i; discriminate.
  - destruct j as [|j]; [lia|]. cbn [nth_error] in Hb.
    destruct i as [|i]; cbn [nth_error] in Ha.
    + injection Ha as <-. rewrite Forall_forall in Hx.
      apply Hx. eapply nth_error_In, Hb.
    + apply (IH i j a b); [lia|assumption|assumption].
Qed.

Lemma sorted_before l i j a b :
  sorted_desc l ->
  nth_error l i = Some a -> nth_error l j = Some b ->
  score b < score a -> (i < j)%nat.
Proof.
  intros S Ha Hb Lt.
  destruct (Nat.lt_trichotomy i j) as [H|[H|H]]; [exact H| |].
  - subst j. rewrite Ha in Hb. injection Hb as <-. lra.
  - pose proof (sorted_nth l S j i b a H Hb Ha). lra.
Qed.

Lemma nth_error_firstn_some {A} n (l : list A) : forall i x,
  nth_error (firstn n l) i = Some x <->
  (i < n)%nat /\ nth_error l i = Some x.
Proof.
  revert l. induction n as [|n IH]; intros l i x.
  - cbn [firstn]. split; [destruct i; discriminate|lia].
  - destruct l as [|y l]; cbn [firstn].
    + split; [destruct i; discriminate|intros [_ H]; destruct i; discriminate].
    + destruct i as [|i]; cbn [nth_error].
      * split; [intros H; split; [lia|exact H]|tauto].
      * rewrite IH. split; intros [L H]; (split; [lia|exact H]).
Qed.

Lemma sorted_firstn n l : sorted_desc l -> sorted_desc (firstn n l).
Proof.
  unfold sorted_desc. intros S. revert n.
  induction S as [|x l Sl IH Hx]; intros n.
  - destruct n; constructor.
  - destruct n as [|n]; cbn [firstn]; constructor; [apply IH|].
    rewrite Forall_forall in Hx |- *. intros z Iz.
    apply Hx. revert Iz. clear. revert n.
    induction l as [|y l IHl]; intros n; destruct n; cbn [firstn];
      try contradiction.
    intros [<-|I]; [left; reflexivity|right; apply (IHl n), I].
Qed.

Lemma in_firstn {A} n (l : list A) x : In x (firstn n l) -> In x l.
Proof.
  revert n. induction l as [|y l IH]; intros n; destruct n; cbn [firstn];
    try contradiction.
  intros [<-|I]; [left; reflexivity|right; apply (IH n), I].
Qed.

(** *** Boosting *)



Section WithEnv.

Variable e : Env.






(** *** What [search] and [hybridSearch] return *)



Lemma hybridSearch_ok query limit hybrid w rs w' :
  hybridSearch e query limit hybrid w = (Ok rs, w') ->
  exists cands,
    search e query (limit * 2) None w = (Ok cands, w') /\
    rs = if hybrid then reranked e query limit cands
         else firstn limit cands.
Proof.
  unfold hybridSearch. run.
  destruct (search e query (limit * 2) None w) as [[cands|err] w1];
    [|discriminate].
  destruct hybrid; cbn [negb]; intros H; injection H as <- <-;
    exists cands; auto.
Qed.

Lemma hybridSearch_of_search query limit hybrid w cands w' :
  search e query (limit * 2) None w = (Ok cands, w') ->
  hybridSearch e query limit hybrid w =
  (Ok (if hybrid then reranked e query limit cands else firstn limit cands),
   w').
Proof.
  intros S. unfold hybridSearch. run. rewrite S.
  destruct hybrid; reflexivity.
Qed.



End WithEnv.

End RetrieverFacts.

(** ** The claims on sample inputs *)

Module Cases.

Import Chunker VectorDb Indexer Retriever Spec Samples.

Open Scope Q_scope.

(** *** Small runs *)

Example split_blank_lines :
  split_paragraphs (str "a" ++ [LF; 32; LF; LF]%N ++ str "b c" ++ [LF]%N
                    ++ str "d")
  = [str "a"; str "b c" ++ [LF]%N ++ str "d"].
Proof. reflexivity. Qed.

Example split_keeps_single_breaks :
  split_paragraphs (str "a" ++ [LF]%N ++ str "b") =
  [str "a" ++ [LF]%N ++ str "b"].
Proof. reflexivity. Qed.

Example split_empty : split_paragraphs [] = [[]].
Proof. reflexivity. Qed.

Example split_ws_words :
  split_ws (str " find  the" ++ [9; LF]%N ++ str "plan ")
  = [[]; str "find"; str "the"; str "plan"; []].
Proof. reflexivity. Qed.

Example trim_both_ends :
  trim ([32; 9]%N ++ str "a b" ++ [LF; 13]%N) = str "a b".
Proof. reflexivity. Qed.

Example keywords_longer_than_three :
  keywords env_half (str "When DID we discuss Security") =
  [str "when"; str "discuss"; str "security"].
Proof. reflexivity. Qed.

(** The scenario of the specification: three short paragraphs make one
    chunk, from line 1; its last line is given as 3, the blank lines not
    being counted (the text ends on line 5). *)
Example title_and_two_paragraphs :
  map (fun c => (text c, line_start c, line_end c, chunk_index c))
      (chunk_sample
         (str "# Title" ++ para_sep ++ str "Alpha beta gamma." ++ para_sep
          ++ str "Delta epsilon zeta.") notes)
  = [(str "# Title" ++ para_sep ++ str "Alpha beta gamma." ++ para_sep
      ++ str "Delta epsilon zeta.", 1%Z, 3%Z, 0%Z)].
Proof. reflexivity. Qed.

(** One short paragraph still makes one chunk. *)
Example one_short_paragraph :
  map text (chunk_sample (str "Alpha") notes) = [str "Alpha"].
Proof. reflexivity. Qed.

(** The size test leaves the separator out: 500 + 499 is not above 1000,
    and the joined buffer is 1001 long. *)
Example separator_not_counted :
  map (fun c => length (text c))
      (chunk_sample (letters 97 500 ++ para_sep ++ letters 98 499 ++ para_sep
                     ++ letters 99 300) notes)
  = [1001%nat; 300%nat].
Proof. vm_compute. reflexivity. Qed.

(** *** Chunking *)

Lemma paragraphs_short_tail :
  paragraphs_of doc_short_tail = [letters 97 900; letters 98 150].
Proof. vm_compute. reflexivity. Qed.

(** C1 (counterexample): 900 letters, a blank line, 150 letters.  The
    first paragraph is saved when the second arrives; the second, 150
    code units long, stays in the buffer and is not pushed at the end,
    a chunk being saved already: it is in no chunk. *)
Lemma chunk_coverage_counterexample :
  Exists (fun c => is_ws c = false) doc_short_tail /\
  exists p,
    In p (paragraphs_of doc_short_tail) /\
    forall c, In c (chunk_sample doc_short_tail notes) ->
              includes (text c) p = false.
Proof.
  split; [apply Exists_cons_hd; reflexivity|].
  exists (letters 98 150). split.
  - rewrite paragraphs_short_tail. right. left. reflexivity.
  - assert (F : forallb (fun c => negb (includes (text c) (letters 98 150)))
                        (chunk_sample doc_short_tail notes) = true)
      by (vm_compute; reflexivity).
    rewrite forallb_forall in F. intros c I.
    apply negb_true_iff, F, I.
Qed.

(** C4 (counterexample): 1500 letters, a blank line, 300 letters give
    two chunks, and the first, not the final one, is 1500 long. *)
Lemma chunk_size_bound_counterexample :
  exists c rest,
    chunk_sample doc_long_head notes = c :: rest /\ rest <> [] /\
    (maxChunkSize < length (text c))%nat.
Proof.
  destruct (chunk_sample doc_long_head notes) as [|c [|d rest]] eqn:E;
    try (vm_compute in E; discriminate).
  exists c, (d :: rest). split; [reflexivity|]. split; [discriminate|].
  assert (H : hd_error (map (fun c => length (text c))
                            (chunk_sample doc_long_head notes)) = Some 1500%nat)
    by (vm_compute; reflexivity).
  rewrite E in H. cbn [map hd_error] in H. injection H as ->.
  unfold maxChunkSize. lia.
Qed.

(** C8 (defect): the line counter adds up the lines of the
    paragraphs only.  A word after two blank lines is on line 3 and is
    given line 1; the second of two chunks parted by a blank line starts
    on line 3 and is given line 2. *)
Theorem line_tracking_failing_input :
  map (fun c => (text c, line_start c, line_end c))
      (chunk_sample doc_late_start notes) = [(str "foo", 1%Z, 1%Z)] /\
  skipn 2 doc_late_start = str "foo" /\
  line_at doc_late_start 2 = 3%Z /\
  map (fun c => (text c, line_start c, line_end c))
      (chunk_sample doc_two_chunks notes) =
    [(letters 97 900, 1%Z, 1%Z); (letters 98 900, 2%Z, 2%Z)] /\
  skipn 902 doc_two_chunks = letters 98 900 /\
  line_at doc_two_chunks 902 = 3%Z.
Proof. repeat split; vm_compute; reflexivity. Qed.

(** *** Indexing *)

(** C2 (counterexample): [notes] is indexed into two rows, shrinks, and
    is indexed again while the store's delete throws: [indexFile]
    succeeds with count 1 and the path has three rows. *)
Lemma replace_semantics_counterexample :
  indexFile env_first notes fresh = (Ok 2%nat, after env_first notes fresh) /\
  well_formed (after env_first notes fresh) /\
  length (rows_for env_first notes (after env_first notes fresh)) = 2%nat /\
  indexFile env_shrunk notes (after env_first notes fresh) =
    (Ok 1%nat, after env_shrunk notes (after env_first notes fresh)) /\
  length (rows_for env_shrunk notes
            (after env_shrunk notes (after env_first notes fresh))) = 3%nat.
Proof.
  split; [vm_compute; reflexivity|].
  split; [intros _; split; [vm_compute; reflexivity|vm_compute; discriminate]|].
  repeat split; vm_compute; reflexivity.
Qed.

(** C10 (counterexample): when the store cannot be opened,
    [deleteFileChunks] ends with the error of [initialize], and
    [indexFile] wraps it. *)
Lemma deleteFileChunks_error_counterexample :
  deleteFileChunks env_offline notes fresh =
    (Err (InitializeError ConnectFailed), fresh) /\
  indexFile env_offline notes fresh =
    (Err (IndexFileError notes (InitializeError ConnectFailed)), fresh).
Proof. split; vm_compute; reflexivity. Qed.

(** *** Retrieval *)



(** *** The theorems at work *)

(** C1 (instance): a heading and one sentence. *)
Lemma chunk_coverage_amended_witness :
  Exists (fun c => is_ws c = false) doc_small /\
  (chunk_sample doc_small notes <> [] /\
   exists groups dropped,
     paragraphs_of doc_small = concat groups ++ dropped /\
     map text (chunk_sample doc_small notes) = map join groups /\
     Forall (fun g => g <> []) groups /\
     (dropped <> [] ->
      groups <> [] /\ (length (join dropped) < minChunkSize)%nat) /\
     (forall p, In p (concat groups) ->
        exists c, In c (chunk_sample doc_small notes) /\
                  includes (text c) p = true)).
Proof.
  assert (H : Exists (fun c => is_ws c = false) doc_small)
    by (apply Exists_cons_hd; reflexivity).
  split; [exact H|].
  exact (ChunkerFacts.chunk_coverage_amended
           same same same path_hash stamp doc_small notes H).
Defined.

(** C5 (instance): the empty string, and blanks around a blank line. *)
Lemma blank_input_yields_one_chunk_witness :
  (forallb is_ws [] = true /\
   forallb is_ws (str "  " ++ para_sep ++ str " ") = true) /\
  (exists c, chunk_sample [] notes = [c] /\ text c = [] /\
             line_start c = 1%Z /\ line_end c = 0%Z /\ chunk_index c = 0%Z) /\
  (exists c, chunk_sample (str "  " ++ para_sep ++ str " ") notes = [c] /\
             text c = [] /\
             line_start c = 1%Z /\ line_end c = 0%Z /\ chunk_index c = 0%Z).
Proof.
  split; [split; reflexivity|].
  split.
  - exact (ChunkerFacts.blank_input_yields_one_chunk
             same same same path_hash stamp [] notes eq_refl).
  - exact (ChunkerFacts.blank_input_yields_one_chunk
             same same same path_hash stamp
             (str "  " ++ para_sep ++ str " ") notes eq_refl).
Defined.

(** C4 (instance): the same document, its paragraphs at most 17 long. *)
Lemma chunk_size_bound_amended_witness :
  (forall p, In p (paragraphs_of doc_small) -> (length p <= 17)%nat) /\
  (forall c, In c (chunk_sample doc_small notes) ->
     (length (text c) <=
      Nat.max (maxChunkSize + 2) (17 + minChunkSize + 1))%nat).
Proof.
  assert (H : forall p, In p (paragraphs_of doc_small) ->
                        (length p <= 17)%nat).
  { intros p I.
    assert (E : paragraphs_of doc_small =
                [str "# Title"; str "Alpha beta gamma."])
      by (vm_compute; reflexivity).
    rewrite E in I. destruct I as [<-|[<-|[]]]; cbn; lia. }
  split; [exact H|].
  exact (ChunkerFacts.chunk_size_bound_amended
           same same same path_hash stamp doc_small notes 17 H).
Defined.

(** C2 (instance): the store holds two rows of [notes] and one of
    [diary]; [notes] has shrunk to one chunk and is indexed again.  The
    store's delete is called and works: the two old rows go, the one
    new row is there, the row of [diary] is as it was. *)
Lemma replace_semantics_amended_witness :
  (well_formed shelf /\
   delete_ok env_small (path_predicate (path_resolve env_small notes)) = true /\
   indexFile env_small notes shelf = (Ok 1%nat, after env_small notes shelf)) /\
  (deleteFileChunks env_small notes shelf = (Ok 1%Z, opened [diary_row]) /\
   length (rows_for env_small notes shelf) = 2%nat /\
   rows_not_for env_small notes shelf = [diary_row]) /\
  (exists content vs,
     read_file env_small notes = Some content /\
     embedBatch env_small
       (map text (Indexer.chunkDocument env_small content notes)) = Some vs /\
     rows_for env_small notes (after env_small notes shelf) =
       chunksWithEmbeddings (Indexer.chunkDocument env_small content notes) vs /\
     length (rows_for env_small notes (after env_small notes shelf)) = 1%nat /\
     1%nat = length (Indexer.chunkDocument env_small content notes)) /\
  rows_not_for env_small notes (after env_small notes shelf) =
    rows_not_for env_small notes shelf /\
  (forall n2 w2,
     indexFile env_small notes (after env_small notes shelf) = (Ok n2, w2) ->
     n2 = 1%nat /\ length (rows_for env_small notes w2) = 1%nat).
Proof.
  assert (WF : well_formed shelf)
    by (intros _; split; [reflexivity|discriminate]).
  assert (I : indexFile env_small notes shelf =
              (Ok 1%nat, after env_small notes shelf))
    by (vm_compute; reflexivity).
  split; [split; [exact WF|split; [reflexivity|exact I]]|].
  split; [repeat split; vm_compute; reflexivity|].
  exact (IndexerFacts.replace_semantics_amended
           env_small notes shelf 1 (after env_small notes shelf)
           WF eq_refl I).
Defined.

(** C9 (instance): a directory of two files, the second of which
    cannot be read. *)
Lemma directory_error_isolation_witness :
  glob_sync env_first (path_resolve env_first (str "/notes")) (str "**/*.md")
    = Listed [notes; diary] /\
  indexDirectory env_first (str "/notes") (str "**/*.md") fresh =
    (Ok {| indexed := 2; failed := [diary] |},
     world_after env_first [notes; diary] fresh).
Proof.
  split; [reflexivity|].
  destruct (IndexerFacts.directory_error_isolation
              env_first (str "/notes") (str "**/*.md") [notes; diary] fresh
              eq_refl) as [E _].
  rewrite E. vm_compute. reflexivity.
Defined.

(** C10 (instance): a store that holds a row and refuses to delete. *)
Lemma deleteFileChunks_swallows_delete_failure_witness :
  (db stale = true /\ table stale = true /\
   delete_ok env_shrunk (path_predicate (path_resolve env_shrunk notes)) = false) /\
  deleteFileChunks env_shrunk notes stale = (Ok 0%Z, stale) /\
  length (rows (after env_shrunk notes stale)) = 2%nat.
Proof.
  split; [repeat split|].
  destruct (proj2 (IndexerFacts.deleteFileChunks_swallows_delete_failure
                     env_shrunk notes stale) stale eq_refl eq_refl eq_refl)
    as [E I].
  split; [exact E|].
  unfold after.
  rewrite (I (str "a") [[]] eq_refl eq_refl eq_refl).
  vm_compute. reflexivity.
Defined.


End Cases.

(** ** More facts about the chunker *)

Module ChunkerMore.

Import Chunker Spec SpecMore JsStringFacts ChunkerFacts.

Lemma split_char_go_length sep s : forall cur,
  (1 <= length (split_char_go sep cur s))%nat.
Proof.
  induction s as [|c s IH]; intros cur; cbn [split_char_go]; [cbn; lia|].
  destruct (c =? sep)%N; [cbn [length]; lia|apply IH].
Qed.

Lemma ordinals_snoc n : ordinals (S n) = ordinals n ++ [Z.of_nat n].
Proof.
  unfold ordinals. rewrite seq_S, map_app. reflexivity.
Qed.

Lemma tiles_snoc c : forall cs start next,
  tiles start cs next -> line_start c = next ->
  tiles start (cs ++ [c]) (line_end c + 1).
Proof.
  induction cs as [|d cs IH]; intros start next T E; cbn [tiles app] in *.
  - split; [congruence|reflexivity].
  - destruct T as [Sd T]. split; [exact Sd|]. apply (IH _ next); assumption.
Qed.

Section WithNode.

Variable path_resolve path_basename path_dirname : jsstring -> jsstring.
Variable sha256_hex16 : jsstring -> Z -> jsstring.
Variable now : jsstring.

Local Abbreviation createChunk :=
  (createChunk path_resolve path_basename path_dirname sha256_hex16 now).
Local Abbreviation loop_body :=
  (loop_body path_resolve path_basename path_dirname sha256_hex16 now).
Local Abbreviation chunkDocument :=
  (chunkDocument path_resolve path_basename path_dirname sha256_hex16 now).

Lemma loop_invariant (I : Loop -> Prop) filePath :
  (forall st p, I st -> I (loop_body filePath st p)) ->
  forall ps st, I st -> I (fold_left (loop_body filePath) ps st).
Proof.
  intros Step. induction ps as [|p ps IH]; intros st H; [exact H|].
  cbn [fold_left]. apply IH, Step, H.
Qed.

(** *** Ordinals *)

Lemma numbered_body filePath st p :
  Numbered st -> Numbered (loop_body filePath st p).
Proof.
  intros [Hc Hn]. unfold Chunker.loop_body.
  destruct (is_empty (trim p)); [split; assumption|].
  destruct (must_flush _ _); [|split; assumption].
  split; cbn [chunks chunkIndex].
  - rewrite map_app, length_app, Hc. cbn [map length chunk_index
                                           Chunker.createChunk].
    rewrite Nat.add_1_r, ordinals_snoc, Hn. reflexivity.
  - rewrite length_app, Hn. cbn [length]. lia.
Qed.

(** X1: The chunks are numbered from 0 in the order they are returned;
    each carries the normalized path and the hash of that path and of
    its own number. *)
Theorem chunk_ordinals_contiguous doc filePath :
  map chunk_index (chunkDocument doc filePath) =
    ordinals (length (chunkDocument doc filePath)) /\
  forall c, In c (chunkDocument doc filePath) ->
    file_path c = path_resolve filePath /\
    id c = sha256_hex16 (path_resolve filePath) (chunk_index c).
Proof.
  unfold Chunker.chunkDocument.
  set (st := fold_left _ _ _).
  assert (N : Numbered st).
  { apply loop_invariant; [apply numbered_body|]. split; reflexivity. }
  assert (F : Forall (fun c =>
                file_path c = path_resolve filePath /\
                id c = sha256_hex16 (path_resolve filePath) (chunk_index c))
              (chunks st)).
  { apply (loop_invariant
             (fun st => Forall (fun c =>
                file_path c = path_resolve filePath /\
                id c = sha256_hex16 (path_resolve filePath) (chunk_index c))
                (chunks st))); [|constructor].
    intros st0 p H. unfold Chunker.loop_body.
    destruct (is_empty (trim p)); [exact H|].
    destruct (must_flush _ _); cbn [chunks]; [|exact H].
    apply Forall_app. split; [exact H|].
    constructor; [split; reflexivity|constructor]. }
  destruct N as [Hc Hn]. unfold final_flush.
  destruct (_ || _).
  - split.
    + rewrite map_app, length_app, Hc. cbn [map length chunk_index
                                             Chunker.createChunk].
      rewrite Nat.add_1_r, ordinals_snoc, Hn. reflexivity.
    + intros c I. apply in_app_or in I as [I|[<-|[]]].
      * rewrite Forall_forall in F. apply F, I.
      * split; reflexivity.
  - split; [exact Hc|]. rewrite Forall_forall in F. exact F.
Qed.

(** *** Line ranges *)

Lemma lined_body filePath st p :
  Lined st -> Lined (loop_body filePath st p).
Proof.
  intros [Ht Hn Hc Hr]. unfold Chunker.loop_body.
  destruct (is_empty (trim p)) eqn:E; [split; assumption|].
  pose proof (split_char_go_length LF (trim p) []) as L.
  fold (split_char LF (trim p)) in L.
  destruct (must_flush (currentChunk st) (trim p)) eqn:M.
  - unfold must_flush in M.
    apply andb_prop in M as [M _]. apply andb_prop in M as [M _].
    apply Nat.ltb_lt in M.
    assert (Ne : currentChunk st <> []).
    { intros Z. rewrite Z in M. cbn in M. lia. }
    specialize (Hc Ne).
    split; cbn [chunks currentChunk currentLineStart currentLineCount].
    + set (c := createChunk _ _ _ _ _).
      replace (currentLineStart st + currentLineCount st)%Z
        with (line_end c + 1)%Z
        by (unfold c; cbn [line_end Chunker.createChunk]; lia).
      apply (tiles_snoc _ _ _ (currentLineStart st)); [exact Ht|reflexivity].
    + lia.
    + intros _. lia.
    + apply Forall_app. split; [exact Hr|].
      constructor; [|constructor].
      cbn [line_start line_end Chunker.createChunk]. lia.
  - split; cbn [chunks currentChunk currentLineStart currentLineCount];
      [exact Ht| | |exact Hr]; [lia|intros _; lia].
Qed.

Lemma lined_document doc filePath :
  Lined (fold_left (loop_body filePath) (split_paragraphs doc) loop_init).
Proof.
  apply loop_invariant; [apply lined_body|].
  split; cbn [loop_init chunks currentChunk currentLineStart
              currentLineCount tiles].
  - reflexivity.
  - lia.
  - intros H. elim H. reflexivity.
  - constructor.
Qed.

(** X2: The line ranges follow one another: the first chunk starts at line
    1 and every later chunk at the line after the end of the chunk
    before it. *)
Theorem chunk_line_ranges_tile doc filePath :
  exists next, tiles 1 (chunkDocument doc filePath) next.
Proof.
  destruct (lined_document doc filePath) as [Ht _ _ _].
  unfold Chunker.chunkDocument, final_flush.
  set (st := fold_left _ _ _) in *.
  destruct (_ || _); [|exists (currentLineStart st); exact Ht].
  eexists. apply (tiles_snoc _ _ _ (currentLineStart st));
    [exact Ht|reflexivity].
Qed.

(** *** What a saved chunk looks like *)

Lemma saved_body filePath st gs g p :
  Grouped st gs g -> Forall saved_ok (chunks st) ->
  Forall saved_ok (chunks (loop_body filePath st p)).
Proof.
  intros [Ht Hc Ho Hn Hf] F. unfold Chunker.loop_body.
  destruct (is_empty (trim p)); [exact F|].
  destruct (must_flush (currentChunk st) (trim p)) eqn:M; cbn [chunks];
    [|exact F].
  unfold must_flush in M.
  apply andb_prop in M as [M M3]. apply andb_prop in M as [M1 _].
  apply Nat.ltb_lt in M1. apply Nat.leb_le in M3.
  assert (Ng : g <> []).
  { intros ->. rewrite Hc in M1. cbn in M1. lia. }
  apply Forall_app. split; [exact F|]. constructor; [|constructor].
  unfold saved_ok. cbn [text metadata char_count Chunker.createChunk].
  rewrite Hc in *. rewrite (trim_tight _ (join_tight g Ho)).
  split; [apply (join_ok g Ho Ng)|]. split; [reflexivity|exact M3].
Qed.

Lemma saved_loop filePath ps : forall st gs g,
  Grouped st gs g -> Forall saved_ok (chunks st) ->
  Forall saved_ok (chunks (fold_left (loop_body filePath) ps st)).
Proof.
  induction ps as [|p ps IH]; intros st gs g G F; [exact F|].
  cbn [fold_left].
  destruct (grouped_body path_resolve path_basename path_dirname
              sha256_hex16 now filePath st gs g p G) as [gs1 [g1 [G1 _]]].
  apply (IH _ gs1 g1 G1). apply (saved_body filePath st gs g p G F).
Qed.

Lemma final_state doc filePath :
  exists gs g,
    Grouped (fold_left (loop_body filePath) (split_paragraphs doc) loop_init)
            gs g /\
    concat gs ++ g = paragraphs_of doc /\
    Forall saved_ok
      (chunks (fold_left (loop_body filePath) (split_paragraphs doc)
                 loop_init)).
Proof.
  destruct (grouped_document path_resolve path_basename path_dirname
              sha256_hex16 now doc filePath) as [gs [g [G E]]].
  exists gs, g. split; [exact G|]. split; [exact E|].
  apply (saved_loop filePath _ loop_init [] []); [apply grouped_init|].
  constructor.
Qed.

(** X3: For a document with a non-blank character every chunk has a text
    that is not empty and has no whitespace at either end, a character
    count equal to the length of that text, and a line range that is
    not empty. *)
Theorem chunks_of_nonblank_document doc filePath :
  Exists (fun c => is_ws c = false) doc ->
  forall c, In c (chunkDocument doc filePath) ->
    text c <> [] /\ trim (text c) = text c /\
    char_count (metadata c) = length (text c) /\
    (line_start c <= line_end c)%Z.
Proof.
  intros NB.
  destruct (final_state doc filePath) as [gs [g [G [E F]]]].
  destruct (lined_document doc filePath) as [_ _ Hc Hr].
  assert (Ng : g <> []).
  { intros Z. pose proof (grp_first _ _ _ G Z) as Zs. subst.
    apply (paragraphs_of_nonblank doc NB). rewrite <- E. reflexivity. }
  unfold Chunker.chunkDocument, final_flush.
  set (st := fold_left _ _ _) in *.
  assert (Old : forall c, In c (chunks st) ->
            text c <> [] /\ trim (text c) = text c /\
            char_count (metadata c) = length (text c) /\
            (line_start c <= line_end c)%Z).
  { intros c I. rewrite Forall_forall in F, Hr.
    destruct (F c I) as [[T N] [C _]].
    repeat split; [exact N|apply trim_tight, T|exact C|apply Hr, I]. }
  destruct (_ || _); [|exact Old].
  intros c I. apply in_app_or in I as [I|[<-|[]]]; [apply Old, I|].
  cbn [text metadata char_count line_start line_end Chunker.createChunk].
  pose proof (grp_cur _ _ _ G) as Cur.
  destruct (join_ok g (grp_ok _ _ _ G) Ng) as [T N].
  rewrite Cur in *. rewrite (trim_tight _ T).
  repeat split; [exact N|apply trim_tight, T|].
  specialize (Hc N). lia.
Qed.

(** X4: A chunk shorter than [minChunkSize] is the only chunk of its
    document. *)
Theorem small_chunk_stands_alone doc filePath :
  forall c, In c (chunkDocument doc filePath) ->
    (minChunkSize <= length (text c))%nat \/
    chunkDocument doc filePath = [c].
Proof.
  destruct (final_state doc filePath) as [gs [g [G [E F]]]].
  unfold Chunker.chunkDocument, final_flush.
  set (st := fold_left _ _ _) in *.
  rewrite Forall_forall in F.
  destruct (minChunkSize <=? length (currentChunk st))%nat eqn:Big;
    cbn [orb].
  - intros c I. left. apply in_app_or in I as [I|[<-|[]]];
      [apply (F c I)|].
    cbn [text Chunker.createChunk].
    rewrite (grp_cur _ _ _ G) in *.
    rewrite (trim_tight _ (join_tight g (grp_ok _ _ _ G))).
    apply Nat.leb_le, Big.
  - destruct (chunks st) as [|d ds] eqn:C; cbn [length Nat.eqb app].
    + intros c [<-|[]]. right. reflexivity.
    + intros c I. left. apply (F c I).
Qed.

(** *** Documents that fit in one chunk *)

Lemma join_length_app a : forall b,
  (length (join a) <= length (join (a ++ b)))%nat.
Proof.
  induction a as [|x a IH]; intros b; [cbn; lia|].
  destruct a as [|y a].
  - cbn [app join]. destruct b; [lia|]. rewrite length_app. lia.
  - change (length (x ++ para_sep ++ join (y :: a)) <=
            length (x ++ para_sep ++ join ((y :: a) ++ b)))%nat.
    rewrite !length_app. specialize (IH b). lia.
Qed.

Lemma fitting_loop filePath ps : forall st g,
  chunks st = [] -> currentChunk st = join g -> Forall para_ok g ->
  (length (join (g ++ filter (fun p => negb (is_empty p)) (map trim ps)))
   <= maxChunkSize)%nat ->
  chunks (fold_left (loop_body filePath) ps st) = [] /\
  currentChunk (fold_left (loop_body filePath) ps st) =
    join (g ++ filter (fun p => negb (is_empty p)) (map trim ps)) /\
  currentLineStart (fold_left (loop_body filePath) ps st) =
    currentLineStart st /\
  chunkIndex (fold_left (loop_body filePath) ps st) = chunkIndex st.
Proof.
  induction ps as [|p ps IH]; intros st g C Cur Ok Fit.
  - cbn [map filter fold_left] in *. rewrite app_nil_r. auto.
  - cbn [fold_left map filter] in *.
    unfold Chunker.loop_body at 2 4 6 8.
    destruct (is_empty (trim p)) eqn:E; cbn [negb] in *.
    { apply (IH st g); assumption. }
    assert (Hp : para_ok (trim p)).
    { split; [apply tight_trim|]. destruct (trim p); discriminate. }
    assert (Fit1 : (length (join (g ++ [trim p])) <= maxChunkSize)%nat).
    { pose proof (join_length_app (g ++ [trim p])
                    (filter (fun p => negb (is_empty p)) (map trim ps))) as L.
      rewrite <- app_assoc in L. cbn [app] in L. lia. }
    assert (NoFlush : must_flush (currentChunk st) (trim p) = false).
    { unfold must_flush. destruct (0 <? length (currentChunk st))%nat eqn:P;
        [|reflexivity].
      apply Nat.ltb_lt in P.
      assert (Ng : g <> []).
      { intros ->. rewrite Cur in P. cbn in P. lia. }
      rewrite (join_snoc g (trim p) Ng), !length_app in Fit1.
      rewrite Cur. cbn [andb].
      replace (maxChunkSize <? length (join g) + length (trim p))%nat
        with false; [reflexivity|].
      symmetry. apply Nat.ltb_ge. lia. }
    rewrite NoFlush.
    match goal with
    | |- context [fold_left _ ps ?s1] =>
        destruct (IH s1 (g ++ [trim p])) as [A [B [D F]]]
    end; cbn [chunks currentChunk currentLineStart chunkIndex].
    + exact C.
    + destruct (0 <? length (currentChunk st))%nat eqn:P.
      * apply Nat.ltb_lt in P.
        assert (Ng : g <> []).
        { intros ->. rewrite Cur in P. cbn in P. lia. }
        rewrite (join_snoc g (trim p) Ng), Cur. reflexivity.
      * apply Nat.ltb_ge in P.
        assert (Eg : g = []).
        { apply (join_nil g Ok). rewrite <- Cur.
          destruct (currentChunk st); [reflexivity|cbn in P; lia]. }
        subst g. reflexivity.
    + apply Forall_app. split; [exact Ok|]. constructor; [exact Hp|constructor].
    + rewrite <- app_assoc. exact Fit.
    + cbn [chunks currentChunk currentLineStart chunkIndex] in *.
      rewrite <- app_assoc in B. auto.
Qed.

(** X5: A document with a non-blank character whose paragraphs, joined by
    blank lines, are at most [maxChunkSize] long makes exactly one
    chunk: all its paragraphs, from line 1, numbered 0. *)
Theorem short_document_one_chunk doc filePath :
  Exists (fun c => is_ws c = false) doc ->
  (length (join (paragraphs_of doc)) <= maxChunkSize)%nat ->
  exists c,
    chunkDocument doc filePath = [c] /\
    text c = join (paragraphs_of doc) /\
    line_start c = 1%Z /\ chunk_index c = 0%Z.
Proof.
  intros NB Fit.
  destruct (fitting_loop filePath (split_paragraphs doc) loop_init []
              eq_refl eq_refl (Forall_nil _) Fit) as [C [Cur [Ls Ix]]].
  unfold Chunker.chunkDocument, final_flush.
  set (st := fold_left _ _ _) in *.
  rewrite C. cbn [length Nat.eqb app]. rewrite orb_true_r.
  eexists. split; [reflexivity|].
  cbn [text line_start chunk_index Chunker.createChunk].
  rewrite Cur, Ls, Ix. cbn [app].
  split; [|split; reflexivity].
  apply trim_tight, join_tight, paragraphs_of_ok.
Qed.

End WithNode.

(** *** The path and Node do not bear on the chunking *)

Section TwoRuns.

Variable resolve1 basename1 dirname1 : jsstring -> jsstring.
Variable hash1 : jsstring -> Z -> jsstring.
Variable now1 : jsstring.
Variable resolve2 basename2 dirname2 : jsstring -> jsstring.
Variable hash2 : jsstring -> Z -> jsstring.
Variable now2 : jsstring.

Lemma alike_body path1 path2 st1 st2 p :
  Alike st1 st2 ->
  Alike (loop_body resolve1 basename1 dirname1 hash1 now1 path1 st1 p)
        (loop_body resolve2 basename2 dirname2 hash2 now2 path2 st2 p).
Proof.
  intros [Hc Hu Hs Hn Hi]. unfold loop_body.
  destruct (is_empty (trim p)); [split; assumption|].
  rewrite <- Hu, <- Hs, <- Hn, <- Hi.
  destruct (must_flush (currentChunk st1) (trim p));
    split; cbn [chunks currentChunk currentLineStart currentLineCount
                chunkIndex]; try reflexivity; try assumption.
  rewrite !map_app, Hc. reflexivity.
Qed.

(** X6: The texts, line ranges, ordinals and character counts of the chunks
    are those of the content alone: the path, the clock and Node's
    helpers bear on nothing else than the id, the path fields and the
    time stamp. *)
Theorem chunking_reads_content_only doc path1 path2 :
  map content_view
      (chunkDocument resolve1 basename1 dirname1 hash1 now1 doc path1) =
  map content_view
      (chunkDocument resolve2 basename2 dirname2 hash2 now2 doc path2).
Proof.
  unfold chunkDocument.
  assert (A : forall ps st1 st2, Alike st1 st2 ->
    Alike (fold_left (loop_body resolve1 basename1 dirname1 hash1 now1 path1)
                     ps st1)
          (fold_left (loop_body resolve2 basename2 dirname2 hash2 now2 path2)
                     ps st2)).
  { induction ps as [|p ps IH]; intros st1 st2 H; [exact H|].
    cbn [fold_left]. apply IH, alike_body, H. }
  specialize (A (split_paragraphs doc) loop_init loop_init
                ltac:(split; reflexivity)).
  destruct A as [Hc Hu Hs Hn Hi]. unfold final_flush.
  assert (L : length (chunks (fold_left
                (loop_body resolve1 basename1 dirname1 hash1 now1 path1)
                (split_paragraphs doc) loop_init)) =
              length (chunks (fold_left
                (loop_body resolve2 basename2 dirname2 hash2 now2 path2)
                (split_paragraphs doc) loop_init))).
  { rewrite <- (length_map content_view), Hc, length_map. reflexivity. }
  rewrite <- Hu, <- Hs, <- Hn, <- Hi, <- L.
  destruct (_ || _); [|exact Hc].
  rewrite !map_app, Hc. reflexivity.
Qed.

End TwoRuns.

End ChunkerMore.

(** ** More facts about the store adapter and the indexer *)

Module StoreMore.

Import Chunker VectorDb Indexer Spec SpecMore IndexerFacts.

Section WithEnv.

Variable e : Env.

Lemma filter_without_same p rs :
  filter (fun r => jsstring_eqb (row_file_path r) p) (without p rs) = [].
Proof.
  apply (filter_filter_neg (fun r => jsstring_eqb (row_file_path r) p)).
Qed.

Lemma without_without p rs : without p (without p rs) = without p rs.
Proof.
  apply (filter_idem (fun r => negb (jsstring_eqb (row_file_path r) p))).
Qed.

(** X7: [deleteFileChunks], when it returns, has either removed every row
    of the path, whatever characters the path holds, and answers 1, or
    has changed no row and answers 0; the rows of other paths stay as
    they were, in their order. *)
Theorem deleteFileChunks_effect filePath w k w1 :
  deleteFileChunks e filePath w = (Ok k, w1) ->
  rows_not_for e filePath w1 = rows_not_for e filePath w /\
  ((k = 1%Z /\ rows_for e filePath w1 = []) \/
   (k = 0%Z /\ rows w1 = rows w)).
Proof.
  unfold deleteFileChunks. run.
  destruct (initialize e w) as [[[]|err] w0] eqn:I; [|discriminate].
  destruct (initialize_result e w w0 I) as [_ K].
  assert (R0 : rows w0 = rows w) by (unfold rows; rewrite K; reflexivity).
  destruct (table w0); cbn [negb].
  - unfold tableDelete. rewrite predicate_path_of_path.
    destruct (delete_ok e _); intros H; injection H as <- <-.
    + unfold rows_not_for, rows_for, rows at 1 3. cbn [disk].
      rewrite R0. split; [apply without_without|].
      left. split; [reflexivity|apply filter_without_same].
    + unfold rows_not_for. rewrite R0. split; [reflexivity|].
      right. split; reflexivity.
  - intros H. injection H as <- <-.
    unfold rows_not_for. rewrite R0. split; [reflexivity|].
    right. split; reflexivity.
Qed.

(** X8: When no table is stored, [deleteFileChunks] answers 0 as soon as
    the store is open and attempts no delete. *)
Theorem deleteFileChunks_without_table filePath w w0 :
  initialize e w = (Ok tt, w0) -> table w0 = false ->
  deleteFileChunks e filePath w = (Ok 0%Z, w0).
Proof.
  intros I T. unfold deleteFileChunks. run. rewrite I, T. reflexivity.
Qed.

Lemma embedBatch_each ts : forall vs,
  embedBatch e ts = Some vs -> Forall2 (fun t v => embed e t = Some v) ts vs.
Proof.
  induction ts as [|t ts IH]; intros vs H; cbn [embedBatch] in H.
  - injection H as <-. constructor.
  - destruct (embed e t) as [v|] eqn:E; [|discriminate].
    destruct (embedBatch e ts) as [vs'|]; [|discriminate].
    injection H as <-. constructor; [exact E|apply IH; reflexivity].
Qed.

(** X9: A successful [addChunks] appends one row per chunk, in the order
    of the chunks, each with the fields of its chunk and the embedding
    of its text, and leaves the rows stored before in place. *)
Theorem addChunks_appends cs w w' :
  addChunks e cs w = (Ok tt, w') ->
  exists vs,
    Forall2 (fun c v => embed e (text c) = Some v) cs vs /\
    rows w' = rows w ++ map (fun cv => row_of (fst cv) (snd cv))
                            (combine cs vs) /\
    length (rows w') = (length (rows w) + length cs)%nat.
Proof.
  unfold addChunks. run.
  destruct (initialize e w) as [[[]|err] w0] eqn:I; [|discriminate].
  destruct (initialize_result e w w0 I) as [D K].
  assert (R0 : rows w0 = rows w) by (unfold rows; rewrite K; reflexivity).
  rewrite D.
  destruct (length cs =? 0)%nat eqn:L0.
  { apply Nat.eqb_eq in L0. destruct cs; [|discriminate].
    intros H. injection H as <-. exists []. rewrite R0, app_nil_r.
    split; [constructor|]. split; [reflexivity|cbn; lia]. }
  destruct (embedBatch e (map text cs)) as [vs|] eqn:Eb; run; [|discriminate].
  assert (F : Forall2 (fun c v => embed e (text c) = Some v) cs vs).
  { pose proof (embedBatch_each _ _ Eb) as F. clear -F.
    remember (map text cs) as ts eqn:Ets. revert cs Ets.
    induction F as [|t v ts vs Hv _ IH]; intros cs Ets.
    - destruct cs; [constructor|discriminate].
    - destruct cs as [|c cs]; [discriminate|].
      injection Ets as -> ->. constructor; [exact Hv|apply IH; reflexivity]. }
  assert (Len : length (chunksWithEmbeddings cs vs) = length cs).
  { apply chunksWithEmbeddings_length.
    rewrite (embedBatch_length e _ _ Eb). apply length_map. }
  assert (Done : forall rs0 : list Row,
            rs0 = rows w ++ chunksWithEmbeddings cs vs ->
            rs0 = rows w ++ map (fun cv => row_of (fst cv) (snd cv))
                                (combine cs vs) /\
            length rs0 = (length (rows w) + length cs)%nat).
  { intros rs0 ->. split; [reflexivity|]. rewrite length_app, Len.
    reflexivity. }
  destruct (table w0) eqn:T; cbn [negb].
  - unfold tableAdd.
    destruct (write_ok e (chunksWithEmbeddings cs vs)); [|discriminate].
    intros H. injection H as <-. exists vs. split; [exact F|].
    apply Done. unfold rows at 1. cbn [disk]. rewrite R0. reflexivity.
  - unfold createTable. destruct (disk w0) eqn:K0; [discriminate|].
    destruct (write_ok e (chunksWithEmbeddings cs vs)); [|discriminate].
    intros H. injection H as <-. exists vs. split; [exact F|].
    apply Done.
    assert (Rw : rows w = []).
    { unfold rows. rewrite <- K. try rewrite K0. reflexivity. }
    rewrite Rw. reflexivity.
Qed.

(** X10: [addChunks] embeds every text before it writes: when a text cannot
    be embedded it fails and the stored rows are as they were. *)
Theorem addChunks_embedding_failure cs w w0 :
  initialize e w = (Ok tt, w0) -> cs <> [] ->
  embedBatch e (map text cs) = None ->
  addChunks e cs w = (Err (AddChunksError EmbeddingFailed), w0) /\
  rows w0 = rows w.
Proof.
  intros I N Eb.
  destruct (initialize_result e w w0 I) as [D K].
  split; [|unfold rows; rewrite K; reflexivity].
  unfold addChunks. run. rewrite I, D.
  destruct cs as [|c cs]; [congruence|]. cbn [length Nat.eqb].
  rewrite Eb. reflexivity.
Qed.

End WithEnv.

End StoreMore.

(** ** More facts about retrieval *)

Module RetrieverMore.

Import Chunker VectorDb Indexer Retriever Spec SpecMore IndexerFacts
       RetrieverFacts.

Open Scope Q_scope.

Lemma chunk_of_to_result c v d :
  chunk_of (chunk (to_result (row_of c v, d))) = c.
Proof. destruct c as [i t f ls le ci [fn dir at_ cc]]. reflexivity. Qed.

Lemma in_chunksWithEmbeddings cs : forall vs r,
  In r (chunksWithEmbeddings cs vs) ->
  exists c v, In c cs /\ r = row_of c v.
Proof.
  induction cs as [|c cs IH]; intros vs r I; [contradiction|].
  destruct vs as [|v vs]; [contradiction|].
  unfold chunksWithEmbeddings in I. cbn [combine map fst snd] in I.
  destruct I as [<-|I].
  - exists c, v. split; [left; reflexivity|reflexivity].
  - destruct (IH vs r I) as [c' [v' [Ic E]]].
    exists c', v'. split; [right; exact Ic|exact E].
Qed.

Section WithEnv.

Variable e : Env.

Lemma search_inv query limit f w rs w' :
  search e query limit f w = (Ok rs, w') ->
  initialize e w = (Ok tt, w') /\
  (rs = [] \/
   exists v raw,
     vector_search e (rows w') v limit (where_clause e f) = Some raw /\
     rs = map to_result raw).
Proof.
  unfold search. run.
  destruct (initialize e w) as [[[]|err] w0]; [|discriminate].
  destruct (table w0); cbn [negb].
  - destruct (embed e query) as [v|]; run; [|discriminate].
    destruct (vector_search e (rows w0) v limit (where_clause e f))
      as [raw|] eqn:V; run; [|discriminate].
    intros H. injection H as <- <-. split; [reflexivity|].
    right. exists v, raw. auto.
  - intros H. injection H as <- <-. split; [reflexivity|left; reflexivity].
Qed.

Lemma indexFile_fresh_rows filePath w n w1 :
  well_formed w -> disk w = None ->
  indexFile e filePath w = (Ok n, w1) ->
  db w1 = true /\
  exists content vs,
    read_file e filePath = Some content /\
    rows w1 = chunksWithEmbeddings (chunkDocument e content filePath) vs.
Proof.
  intros WF K. unfold indexFile. run.
  destruct (read_file e filePath) as [content|] eqn:R; [|discriminate].
  run.
  destruct (deleteFileChunks e filePath w) as [[k|err] w0] eqn:D;
    [|discriminate].
  destruct (deleteFileChunks_ok e filePath w k w0 WF D) as [WF0 [D0 Cases]].
  pose proof (chunkDocument_nonempty e content filePath) as Ne.
  set (cs := chunkDocument e content filePath) in *.
  destruct (length cs =? 0)%nat eqn:L0.
  { apply Nat.eqb_eq in L0. destruct cs; [congruence|discriminate]. }
  destruct (addChunks e cs w0) as [[[]|err] w2] eqn:A; [|discriminate].
  intros H. injection H as <- <-.
  destruct (addChunks_ok e cs w0 w2 WF0 D0 Ne A) as [vs [_ [Rw [_ [_ D2]]]]].
  split; [exact D2|]. exists content, vs. split; [reflexivity|].
  assert (R0 : rows w0 = []).
  { assert (Rw0 : rows w = []) by (unfold rows; rewrite K; reflexivity).
    destruct Cases as [[_ [K0 _]]|[[_ [_ [_ R1]]]|[_ [_ [_ K0]]]]].
    - unfold rows. rewrite K0, K. reflexivity.
    - rewrite R1, Rw0. reflexivity.
    - unfold rows. rewrite K0, K. reflexivity. }
  rewrite Rw, R0. reflexivity.
Qed.

(** X11: Index a file into an empty store, then search: when the store
    answers with rows of its table, the chunk of every result is one of
    the chunks [chunkDocument] made of the file, field for field. *)
Theorem search_returns_indexed_chunks filePath w n w1 query limit f rs w2 :
  well_formed w -> disk w = None ->
  answers_from_table e ->
  indexFile e filePath w = (Ok n, w1) ->
  search e query limit f w1 = (Ok rs, w2) ->
  exists content,
    read_file e filePath = Some content /\
    forall r, In r rs ->
      In (chunk_of (chunk r)) (chunkDocument e content filePath).
Proof.
  intros WF K Ans I S.
  destruct (indexFile_fresh_rows filePath w n w1 WF K I)
    as [D1 [content [vs [R Rw]]]].
  exists content. split; [exact R|]. intros r Ir.
  destruct (search_inv query limit f w1 rs w2 S) as [Init [->|[v [raw [V ->]]]]];
    [contradiction|].
  rewrite (initialize_open e w1 D1) in Init. injection Init as <-.
  apply in_map_iff in Ir as [[row d] [<- Ird]].
  pose proof (Ans _ _ _ _ _ V (row, d) Ird) as Irow. cbn [fst] in Irow.
  rewrite Rw in Irow.
  destruct (in_chunksWithEmbeddings _ _ _ Irow) as [c [v' [Ic ->]]].
  rewrite chunk_of_to_result. exact Ic.
Qed.

(** X12: While no table is stored, [search] and [hybridSearch] return no
    result and no error once the store is open; the query is not
    embedded, so they do so with no embedding model at hand. *)
Theorem search_without_table query limit f hybrid w w0 :
  initialize e w = (Ok tt, w0) -> table w0 = false ->
  search e query limit f w = (Ok [], w0) /\
  hybridSearch e query limit hybrid w = (Ok [], w0).
Proof.
  intros I T.
  assert (S : forall n g, search e query n g w = (Ok [], w0)).
  { intros n g. unfold search. run. rewrite I, T. reflexivity. }
  split; [apply S|].
  unfold hybridSearch. run. rewrite S.
  destruct hybrid; cbn [negb]; [|destruct limit; reflexivity].
  destruct limit; reflexivity.
Qed.

(** *** What the re-ranking keeps *)

Lemma found_boost kws r : found (boost e kws r) = found r.
Proof. reflexivity. Qed.

Lemma map_found_boost kws rs :
  map found (map (boost e kws) rs) = map found rs.
Proof. rewrite map_map. apply map_ext. intros r. apply found_boost. Qed.

(** X13: Hybrid mode on or off, [hybridSearch] returns as many results:
    [limit] of them, or every candidate if there are fewer.  With
    hybrid mode on each result is a candidate whose chunk and distance
    are untouched, and when the candidates are no more than [limit]
    none is lost and none comes twice. *)
Theorem hybrid_rerank_keeps_candidates query limit w cands w' :
  search e query (limit * 2) None w = (Ok cands, w') ->
  exists on off,
    hybridSearch e query limit true w = (Ok on, w') /\
    hybridSearch e query limit false w = (Ok off, w') /\
    length on = Nat.min limit (length cands) /\
    length off = Nat.min limit (length cands) /\
    (forall r, In r on -> In (found r) (map found cands)) /\
    ((length cands <= limit)%nat ->
     Permutation (map found on) (map found cands)).
Proof.
  intros S.
  exists (reranked e query limit cands), (firstn limit cands).
  split; [apply (hybridSearch_of_search e query limit true w cands w' S)|].
  split; [apply (hybridSearch_of_search e query limit false w cands w' S)|].
  unfold reranked.
  set (kws := keywords e query).
  pose proof (js_sort_perm _ by_score_desc (map (boost e kws) cands)) as P.
  assert (Lp : length (js_sort by_score_desc (map (boost e kws) cands)) =
               length cands).
  { rewrite (Permutation_length P). apply length_map. }
  split; [rewrite length_firstn, Lp; reflexivity|].
  split; [apply length_firstn|].
  split.
  - intros r I. apply in_firstn in I.
    apply (Permutation_in _ P) in I.
    apply in_map_iff in I as [c [<- Ic]].
    rewrite found_boost. apply in_map, Ic.
  - intros Le. rewrite firstn_all2 by lia.
    rewrite (Permutation_map found P). rewrite map_found_boost. reflexivity.
Qed.


End WithEnv.

End RetrieverMore.

(** ** Facts about the embedding service *)

Module EmbeddingFacts.

Import Raising EmbeddingService SpecMore.

Ltac go :=
  cbv beta iota zeta delta [then_ unit_ raise catch state] in *.

Lemma infer_all_app m a : forall b,
  infer_all m (a ++ b) =
  match infer_all m a, infer_all m b with
  | Some va, Some vb => Some (va ++ vb)
  | _, _ => None
  end.
Proof.
  induction a as [|t a IH]; intros b; cbn [app infer_all].
  - destruct (infer_all m b); reflexivity.
  - rewrite IH. destruct (infer m t); [|reflexivity].
    destruct (infer_all m a); [|reflexivity].
    destruct (infer_all m b); reflexivity.
Qed.

Lemma infer_all_each m texts : forall vs,
  infer_all m texts = Some vs <->
  Forall2 (fun t v => infer m t = Some v) texts vs.
Proof.
  induction texts as [|t ts IH]; intros vs; cbn [infer_all].
  - split; [intros H; injection H as <-; constructor|].
    intros H. inversion H. reflexivity.
  - split.
    + destruct (infer m t) as [v|] eqn:E; [|discriminate].
      destruct (infer_all m ts) as [vs'|]; [|discriminate].
      intros H. injection H as <-. constructor; [exact E|].
      apply IH. reflexivity.
    + intros H. inversion H as [|? v ? vs' Hv Hr]; subst.
      rewrite Hv. apply IH in Hr. rewrite Hr. reflexivity.
Qed.

Lemma infer_all_none m texts :
  infer_all m texts = None <-> exists t, In t texts /\ infer m t = None.
Proof.
  induction texts as [|t ts IH]; cbn [infer_all].
  - split; [discriminate|intros [t [[] _]]].
  - destruct (infer m t) as [v|] eqn:E.
    + destruct (infer_all m ts) as [vs|].
      * split; [discriminate|]. intros [u [[Eu|I] N]].
        { subst u. rewrite E in N. discriminate. }
        assert (Some vs = None) as Z by (apply IH; exists u; auto).
        discriminate.
      * split; [|reflexivity]. intros _.
        destruct (proj1 IH eq_refl) as [u [I N]]. exists u.
        split; [right; exact I|exact N].
    + split; [|reflexivity]. intros _. exists t.
      split; [left; reflexivity|exact E].
Qed.

Section WithModel.

Variable m : Model.

Lemma embed_loaded text :
  embed m text true =
  match infer m text with
  | Some v => (Done v, true)
  | None => (Thrown (EmbedError InferenceFailed), true)
  end.
Proof.
  unfold embed, initialize. go. cbn [negb].
  destruct (infer m text); reflexivity.
Qed.

Lemma promise_all_loaded batch :
  promise_all m batch true =
  match infer_all m batch with
  | Some vs => (Done vs, true)
  | None => (Thrown (EmbedError InferenceFailed), true)
  end.
Proof.
  induction batch as [|t batch IH]; [reflexivity|].
  cbn [promise_all infer_all]. go.
  rewrite embed_loaded. destruct (infer m t); [|reflexivity].
  rewrite IH. destruct (infer_all m batch); reflexivity.
Qed.

Lemma batch_loop_loaded texts : forall fuel i acc,
  (length texts - i <= fuel)%nat ->
  batch_loop m fuel texts i acc true =
  match infer_all m (skipn i texts) with
  | Some vs => (Done (acc ++ vs), true)
  | None => (Thrown (EmbedError InferenceFailed), true)
  end.
Proof.
  induction fuel as [|fuel IH]; intros i acc Hf.
  - cbn [batch_loop]. rewrite skipn_all2 by lia.
    cbn [infer_all]. rewrite app_nil_r. reflexivity.
  - cbn [batch_loop]. destruct (i <? length texts)%nat eqn:Lt.
    + apply Nat.ltb_lt in Lt. go. unfold slice.
      replace (i + batchSize - i)%nat with batchSize by lia.
      rewrite promise_all_loaded.
      rewrite <- (firstn_skipn batchSize (skipn i texts)) at 2.
      rewrite infer_all_app, skipn_skipn.
      destruct (infer_all m (firstn batchSize (skipn i texts))) as [va|];
        [|reflexivity].
      rewrite IH by (unfold batchSize; lia).
      rewrite (Nat.add_comm batchSize i).
      destruct (infer_all m (skipn (i + batchSize) texts)); [|reflexivity].
      rewrite app_assoc. reflexivity.
    + apply Nat.ltb_ge in Lt. rewrite skipn_all2 by lia.
      cbn [infer_all]. unfold unit_. rewrite app_nil_r. reflexivity.
Qed.

(** X15: Once the model is loaded or can be loaded, [embedBatch] returns
    one vector per text, in the order of the texts, each what the model
    answers for its text, the batches of 32 leaving no trace; and it
    fails, returning nothing, as soon as the model fails on one text. *)
Theorem embedBatch_in_order texts s :
  s = true \/ load_ok m = true ->
  (forall vs,
     Forall2 (fun t v => infer m t = Some v) texts vs ->
     embedBatch m texts s = (Done vs, true)) /\
  ((exists t, In t texts /\ infer m t = None) ->
   embedBatch m texts s =
     (Thrown (BatchError (EmbedError InferenceFailed)), true)).
Proof.
  intros Hs.
  assert (E : embedBatch m texts s =
              match infer_all m texts with
              | Some vs => (Done vs, true)
              | None => (Thrown (BatchError (EmbedError InferenceFailed)),
                         true)
              end).
  { unfold embedBatch, initialize. go.
    assert (L : batch_loop m (length texts) texts 0 [] true =
                match infer_all m texts with
                | Some vs => (Done vs, true)
                | None => (Thrown (EmbedError InferenceFailed), true)
                end).
    { rewrite batch_loop_loaded by lia. reflexivity. }
    destruct s; [|destruct Hs as [Hs|Hs]; [discriminate|rewrite Hs]];
      cbn [negb]; rewrite L; destruct (infer_all m texts); reflexivity. }
  split.
  - intros vs F. apply infer_all_each in F. rewrite E, F. reflexivity.
  - intros N. apply infer_all_none in N. rewrite E, N. reflexivity.
Qed.

(** X16: When the model cannot be loaded, [embed] and [embedBatch] fail with
    the load error, [embedBatch] also for no text at all, and the
    service stays without a model. *)
Theorem embedding_needs_the_model text texts :
  load_ok m = false ->
  embed m text false = (Thrown (LoadError PipelineFailed), false) /\
  embedBatch m texts false = (Thrown (LoadError PipelineFailed), false).
Proof.
  intros L. unfold embed, embedBatch, initialize. go. rewrite L.
  split; reflexivity.
Qed.

End WithModel.

End EmbeddingFacts.

(** ** Facts about clearing, statistics and the full rebuild *)

Module MaintenanceFacts.

Import Raising Chunker VectorDb Indexer Retriever Maintenance Spec SpecMore
       IndexerFacts.

Ltac go :=
  cbv beta iota zeta delta [then_ unit_ raise catch state lift] in *.

Lemma jsstring_eqb_eq a : forall b, jsstring_eqb a b = true <-> a = b.
Proof.
  induction a as [|x a IH]; intros [|y b]; cbn [jsstring_eqb];
    try (split; [discriminate|discriminate]); [tauto|].
  rewrite andb_true_iff, N.eqb_eq, IH. split.
  - intros [-> ->]. reflexivity.
  - intros H. injection H as -> ->. auto.
Qed.

Lemma existsb_eqb_in p s : existsb (jsstring_eqb p) s = true <-> In p s.
Proof.
  rewrite existsb_exists. split.
  - intros [x [I E]]. apply jsstring_eqb_eq in E. subst. exact I.
  - intros I. exists p. split; [exact I|apply jsstring_eqb_refl].
Qed.

Lemma ceil_fifth_bounds n :
  (ceil_fifth n <= n /\ n <= 5 * ceil_fifth n)%nat.
Proof.
  unfold ceil_fifth.
  pose proof (Nat.div_mod_eq (n + 4) 5) as E.
  pose proof (Nat.mod_upper_bound (n + 4) 5 ltac:(discriminate)) as U.
  lia.
Qed.

(** *** The unique paths *)

Lemma unique_fold rs : forall acc,
  NoDup acc ->
  NoDup (fold_left
           (fun uniqueFiles row =>
              if is_empty (row_file_path row) then uniqueFiles
              else set_add (row_file_path row) uniqueFiles) rs acc) /\
  (forall p,
     In p (fold_left
             (fun uniqueFiles row =>
                if is_empty (row_file_path row) then uniqueFiles
                else set_add (row_file_path row) uniqueFiles) rs acc) <->
     In p acc \/
     (p <> [] /\ exists r, In r rs /\ row_file_path r = p)) /\
  (length (fold_left
             (fun uniqueFiles row =>
                if is_empty (row_file_path row) then uniqueFiles
                else set_add (row_file_path row) uniqueFiles) rs acc)
   <= length acc + length rs)%nat.
Proof.
  induction rs as [|r rs IH]; intros acc N; cbn [fold_left].
  - split; [exact N|]. split; [|cbn; lia].
    intros p. split; [auto|]. intros [H|[_ [r [[] _]]]]. exact H.
  - set (acc' := if is_empty (row_file_path r) then acc
                 else set_add (row_file_path r) acc).
    assert (N' : NoDup acc').
    { unfold acc', set_add. destruct (is_empty (row_file_path r)); [exact N|].
      destruct (existsb (jsstring_eqb (row_file_path r)) acc) eqn:X;
        [exact N|].
      apply NoDup_app; [exact N|repeat constructor; intros []|].
      intros x Ix [<-|[]]. apply existsb_eqb_in in Ix. congruence. }
    assert (In' : forall p, In p acc' <->
              In p acc \/ (p <> [] /\ row_file_path r = p)).
    { intros p. unfold acc', set_add.
      destruct (row_file_path r) as [|c f] eqn:F; cbn [is_empty].
      - split; [auto|]. intros [H|[Np E]]; [exact H|congruence].
      - destruct (existsb (jsstring_eqb (c :: f)) acc) eqn:X.
        + apply existsb_eqb_in in X. split; [auto|].
          intros [H|[_ <-]]; assumption.
        + rewrite in_app_iff. cbn [In]. split.
          * intros [H|[<-|[]]]; [auto|]. right. split; [discriminate|auto].
          * intros [H|[_ <-]]; auto. }
    assert (L' : (length acc' <= length acc + 1)%nat).
    { unfold acc', set_add. destruct (is_empty (row_file_path r)); [lia|].
      destruct (existsb _ acc); [lia|]. rewrite length_app. cbn. lia. }
    destruct (IH acc' N') as [A [B C]].
    split; [exact A|]. split; [|cbn [length]; lia].
    intros p. rewrite B, In'. split.
    + intros [[H|[Np E]]|[Np [x [Ix E]]]]; auto.
      * right. split; [exact Np|]. exists r. split; [left; reflexivity|exact E].
      * right. split; [exact Np|]. exists x. split; [right; exact Ix|exact E].
    + intros [H|[Np [x [[<-|Ix] E]]]]; auto.
      right. split; [exact Np|]. exists x. auto.
Qed.

Lemma unique_paths_one p rs :
  p <> [] -> rs <> [] -> Forall (fun r => row_file_path r = p) rs ->
  unique_paths rs = [p].
Proof.
  intros Np Nr F. unfold unique_paths.
  assert (G : forall l, Forall (fun r => row_file_path r = p) l ->
    fold_left
      (fun uniqueFiles row =>
         if is_empty (row_file_path row) then uniqueFiles
         else set_add (row_file_path row) uniqueFiles) l [p] = [p]).
  { induction l as [|r l IH]; intros Fl; [reflexivity|].
    inversion Fl as [|? ? Hr Hl]; subst. cbn [fold_left].
    destruct (row_file_path r) as [|c f] eqn:E; [congruence|].
    cbn [is_empty]. unfold set_add. cbn [existsb].
    rewrite jsstring_eqb_refl. cbn [orb]. apply IH, Hl. }
  destruct rs as [|r rs]; [congruence|].
  inversion F as [|? ? Hr Hl]; subst. cbn [fold_left].
  destruct (row_file_path r) as [|c f] eqn:E; [congruence|].
  cbn [is_empty set_add existsb app]. apply G. exact Hl.
Qed.

Section WithEnv.

Variable e : Env.
Variable o : StoreOps.

(** *** [getStats] *)

(** X17: The statistics [getStats] returns agree with the stored rows: as
    many chunks as rows; as files, each path that is not empty and has
    a row, once; hence no more files than chunks.  With no table they
    are all zero. *)
Theorem getStats_counts w st w1 :
  getStats e o w = (Done st, w1) ->
  (table w1 = false /\ st = no_stats) \/
  (table w1 = true /\
   total_chunks st = length (rows w1) /\
   total_files st = length (file_list st) /\
   NoDup (file_list st) /\
   (forall p, In p (file_list st) <->
      p <> [] /\ exists r, In r (rows w1) /\ row_file_path r = p) /\
   (total_files st <= total_chunks st)%nat /\
   db_size_mb st = size_mb o).
Proof.
  unfold getStats. go.
  destruct (initialize e w) as [[[]|err] w0]; [|discriminate].
  destruct (table w0) eqn:T; cbn [negb].
  - destruct (count_ok o); [|discriminate].
    destruct (scan_ok o); [|discriminate].
    intros H. injection H as <- <-. right.
    destruct (unique_fold (rows w0) [] (NoDup_nil _)) as [A [B C]].
    fold (unique_paths (rows w0)) in A, B, C.
    cbn [total_chunks total_files file_list db_size_mb].
    split; [exact T|]. split; [reflexivity|].
    split; [reflexivity|]. split; [exact A|].
    split; [|split; [cbn [length] in C; lia|reflexivity]].
    intros p. rewrite (B p). cbn [In]. tauto.
  - intros H. injection H as <- <-. left. auto.
Qed.

(** *** [clear] *)

Lemma search_closed_table query limit f w :
  db w = true -> table w = false -> search e query limit f w = (Ok [], w).
Proof.
  intros D T. unfold search.
  cbv beta iota zeta delta [bind ret get].
  rewrite (initialize_open e w D), T. reflexivity.
Qed.

Lemma hybridSearch_closed_table query limit hybrid w :
  db w = true -> table w = false ->
  hybridSearch e query limit hybrid w = (Ok [], w).
Proof.
  intros D T. unfold hybridSearch.
  cbv beta iota zeta delta [bind ret get].
  rewrite (search_closed_table _ _ _ w D T).
  destruct hybrid, limit; reflexivity.
Qed.

Lemma getStats_closed_table w :
  db w = true -> table w = false -> getStats e o w = (Done no_stats, w).
Proof.
  intros D T. unfold getStats. go.
  rewrite (initialize_open e w D), T. reflexivity.
Qed.

(** X18: After a successful [clear] the index is empty to every reader:
    [getStats] gives zeros and [hybridSearch] gives no result, without
    error; and when [clear] found a table, none is stored any more. *)
Theorem clear_empties_the_index w w1 :
  clear e o w = (Done tt, w1) ->
  getStats e o w1 = (Done no_stats, w1) /\
  (forall query limit hybrid,
     hybridSearch e query limit hybrid w1 = (Ok [], w1)) /\
  (forall w0, initialize e w = (Ok tt, w0) -> table w0 = true ->
     disk w1 = None).
Proof.
  unfold clear. go.
  destruct (initialize e w) as [[[]|err] w0] eqn:I; [|discriminate].
  destruct (initialize_result e w w0 I) as [D _].
  destruct (table w0) eqn:T; cbn [negb].
  - rewrite D. unfold dropTable.
    destruct (drop_ok o); [|discriminate].
    intros H. injection H as <-.
    split; [apply getStats_closed_table; [exact D|reflexivity]|].
    split; [intros; apply hybridSearch_closed_table; [exact D|reflexivity]|].
    reflexivity.
  - intros H. injection H as <-.
    split; [apply getStats_closed_table; assumption|].
    split; [intros; apply hybridSearch_closed_table; assumption|].
    intros w0' E0 T0. injection E0 as <-. congruence.
Qed.

(** *** Statistics after indexing *)

Lemma addChunks_table cs w w' :
  cs <> [] -> addChunks e cs w = (Ok tt, w') -> table w' = true.
Proof.
  intros Ne. unfold addChunks. run.
  destruct (initialize e w) as [[[]|err] w0]; [|discriminate].
  destruct (db w0); run; [|discriminate].
  destruct (length cs =? 0)%nat eqn:L.
  { apply Nat.eqb_eq in L. destruct cs; [congruence|discriminate]. }
  destruct (embedBatch e (map text cs)) as [vs|]; run; [|discriminate].
  destruct (table w0) eqn:T; cbn [negb].
  - unfold tableAdd.
    destruct (write_ok e (chunksWithEmbeddings cs vs)); [|discriminate].
    intros H. injection H as <-. exact T.
  - unfold createTable. destruct (disk w0); [discriminate|].
    destruct (write_ok e (chunksWithEmbeddings cs vs)); [|discriminate].
    intros H. injection H as <-. reflexivity.
Qed.

Lemma indexFile_fresh filePath w n w1 :
  well_formed w -> disk w = None ->
  indexFile e filePath w = (Ok n, w1) ->
  db w1 = true /\ table w1 = true /\ length (rows w1) = n /\
  rows w1 <> [] /\
  Forall (fun r => row_file_path r = path_resolve e filePath) (rows w1).
Proof.
  intros WF K. unfold indexFile. run.
  destruct (read_file e filePath) as [content|] eqn:R; [|discriminate].
  run.
  destruct (deleteFileChunks e filePath w) as [[k|err] w0] eqn:D;
    [|discriminate].
  destruct (deleteFileChunks_ok e filePath w k w0 WF D) as [WF0 [D0 Cases]].
  pose proof (chunkDocument_nonempty e content filePath) as Ne.
  pose proof (chunkDocument_file_path e content filePath) as Fp.
  set (cs := chunkDocument e content filePath) in *.
  destruct (length cs =? 0)%nat eqn:L0.
  { apply Nat.eqb_eq in L0. destruct cs; [congruence|discriminate]. }
  destruct (addChunks e cs w0) as [[[]|err] w2] eqn:A; [|discriminate].
  intros H. injection H as <- <-.
  destruct (addChunks_ok e cs w0 w2 WF0 D0 Ne A) as [vs [Eb [Rw [_ [_ D2]]]]].
  assert (R0 : rows w0 = []).
  { assert (Rw0 : rows w = []) by (unfold rows; rewrite K; reflexivity).
    destruct Cases as [[_ [K0 _]]|[[_ [_ [_ R1]]]|[_ [_ [_ K0]]]]].
    - unfold rows. rewrite K0, K. reflexivity.
    - rewrite R1, Rw0. reflexivity.
    - unfold rows. rewrite K0, K. reflexivity. }
  assert (Lv : length vs = length cs).
  { rewrite (embedBatch_length e _ _ Eb). apply length_map. }
  assert (Lr : length (rows w2) = length cs).
  { rewrite Rw, R0. apply chunksWithEmbeddings_length, Lv. }
  split; [exact D2|]. split; [exact (addChunks_table cs w0 w2 Ne A)|].
  split; [exact Lr|]. split.
  - intros E. rewrite E in Lr. destruct cs; [congruence|discriminate].
  - rewrite Rw, R0. cbn [app].
    pose proof (chunksWithEmbeddings_paths (path_resolve e filePath) cs vs Fp)
      as Fr.
    eapply Forall_impl; [|exact Fr].
    intros r Hr. apply jsstring_eqb_eq. exact Hr.
Qed.

(** X19: Index one file into an empty store and ask for the statistics:
    they count the chunks [indexFile] reported and name that one file,
    by its resolved path. *)
Theorem stats_after_first_index filePath w n w1 st w2 :
  well_formed w -> disk w = None ->
  path_resolve e filePath <> [] ->
  indexFile e filePath w = (Ok n, w1) ->
  getStats e o w1 = (Done st, w2) ->
  w2 = w1 /\ (0 < n)%nat /\
  total_chunks st = n /\ total_files st = 1%nat /\
  file_list st = [path_resolve e filePath].
Proof.
  intros WF K Np I.
  destruct (indexFile_fresh filePath w n w1 WF K I)
    as [D [T [L [Ne F]]]].
  unfold getStats. go.
  rewrite (initialize_open e w1 D), T. cbn [negb].
  destruct (count_ok o); [|discriminate].
  destruct (scan_ok o); [|discriminate].
  intros H. injection H as <- <-.
  cbn [total_chunks total_files file_list].
  rewrite (unique_paths_one (path_resolve e filePath) (rows w1) Np Ne F).
  split; [reflexivity|]. split.
  - destruct (rows w1); [congruence|]. cbn [length] in L. lia.
  - split; [exact L|]. split; reflexivity.
Qed.

(** *** A failed open *)

(** X20: [initialize] keeps the connection it made even when opening the
    table then fails, and returns at once on every later call: from
    then on the adapter never opens the stored table again, whatever
    the store would answer, so [search] finds nothing and
    [deleteFileChunks] deletes nothing. *)
Theorem failed_open_is_never_retried w :
  db w = false -> table w = false ->
  connect_ok e = true -> open_ok e = false ->
  exists w1,
    initialize e w = (Err (InitializeError OpenTableFailed), w1) /\
    disk w1 = disk w /\
    forall e2 query limit f filePath,
      initialize e2 w1 = (Ok tt, w1) /\
      search e2 query limit f w1 = (Ok [], w1) /\
      deleteFileChunks e2 filePath w1 = (Ok 0%Z, w1).
Proof.
  intros D T C O.
  exists {| db := true; table := table w; disk := disk w |}.
  split; [unfold initialize; rewrite D, C, O; reflexivity|].
  split; [reflexivity|].
  intros e2 query limit f filePath.
  split; [reflexivity|].
  split.
  - unfold search. cbv beta iota zeta delta [bind ret get].
    cbn [initialize db table negb]. rewrite T. reflexivity.
  - unfold deleteFileChunks. cbv beta iota zeta delta [bind ret get].
    cbn [initialize db table negb]. rewrite T. reflexivity.
Qed.

(** *** [close] *)

(** X21: Closing forgets both handles and nothing that is stored: the next
    [initialize], when the store answers, opens the table again with
    the rows it had, also after an open that failed. *)
Theorem close_then_reopen w :
  connect_ok e = true -> open_ok e = true ->
  exists w1 w2,
    close w = (Done tt, w1) /\
    initialize e w1 = (Ok tt, w2) /\
    rows w2 = rows w /\ disk w2 = disk w /\ well_formed w2 /\
    (table w2 = true <-> disk w <> None).
Proof.
  intros C O. unfold close, initialize, rows, well_formed.
  cbn [db table disk]. rewrite C, O. cbn [negb].
  destruct (disk w) as [rs|] eqn:K.
  - exists {| db := false; table := false; disk := Some rs |},
           {| db := true; table := true; disk := Some rs |}.
    cbn [db table disk].
    repeat split; try reflexivity; try discriminate.
  - exists {| db := false; table := false; disk := None |},
           {| db := true; table := false; disk := None |}.
    cbn [db table disk].
    repeat split; try reflexivity; try discriminate; congruence.
Qed.

(** *** [reindexAll] *)

Lemma reindex_pattern_done root acc pattern w :
  (files_count acc <= re_indexed acc <= 5 * files_count acc)%nat ->
  exists acc' w',
    reindex_pattern e root acc pattern w = (Done acc', w') /\
    (files_count acc' <= re_indexed acc' <= 5 * files_count acc')%nat.
Proof.
  intros B. unfold reindex_pattern. go.
  destruct (indexDirectory e root pattern w) as [[result|err] w'].
  - eexists. eexists. split; [reflexivity|].
    cbn [files_count re_indexed].
    pose proof (ceil_fifth_bounds (indexed result)). lia.
  - exists acc, w'. split; [reflexivity|exact B].
Qed.

Lemma reindex_patterns_done root patterns : forall acc w,
  (files_count acc <= re_indexed acc <= 5 * files_count acc)%nat ->
  exists rep w',
    reindex_patterns e root patterns acc w = (Done rep, w') /\
    (files_count rep <= re_indexed rep <= 5 * files_count rep)%nat.
Proof.
  induction patterns as [|pattern patterns IH]; intros acc w B.
  - exists acc, w. split; [reflexivity|exact B].
  - cbn [reindex_patterns]. go.
    destruct (reindex_pattern_done root acc pattern w B)
      as [acc' [w' [E B']]].
    rewrite E. apply IH, B'.
Qed.

(** X22: [reindexAll] fails only when [clear] fails, with the error of
    [clear] wrapped; a pattern whose directory pass fails is passed
    over.  When it returns, the count of files it reports lies between
    a fifth of the chunks indexed and their number. *)
Theorem reindexAll_outcome root w :
  (forall err w1,
     reindexAll e o root w = (Thrown err, w1) ->
     exists cause,
       err = ReindexError cause /\ clear e o w = (Thrown cause, w1)) /\
  (forall rep w1,
     reindexAll e o root w = (Done rep, w1) ->
     (exists w0, clear e o w = (Done tt, w0)) /\
     (files_count rep <= re_indexed rep <= 5 * files_count rep)%nat).
Proof.
  unfold reindexAll.
  cbv beta iota zeta delta [then_ catch raise].
  destruct (clear e o w) as [[[]|cause] w0].
  - destruct (reindex_patterns_done root indexPaths
                {| re_indexed := 0; re_failed := []; files_count := 0 |} w0
                ltac:(cbn; lia)) as [rep [w' [E B]]].
    rewrite E. split.
    + intros err w1 H. discriminate.
    + intros rep' w1 H. injection H as <- <-.
      split; [exists w0; reflexivity|exact B].
  - split.
    + intros err w1 H. injection H as <- <-. exists cause. auto.
    + intros rep w1 H. discriminate.
Qed.

End WithEnv.

End MaintenanceFacts.

(** ** Facts about the search tool *)

Module ToolsFacts.

Import Raising JsString Chunker VectorDb Retriever Maintenance Tools Spec
       SpecMore JsStringFacts RetrieverFacts.

Lemma numLimit_bounds parsed : (1 <= numLimit parsed <= 100)%Z.
Proof. unfold numLimit. lia. Qed.

(** X23: The limit the search tool passes on always lies in 1..100: a limit
    in that range is kept, a smaller one gives 1 and a larger one 100,
    except that 0, like a limit that is no number, gives the
    default 10. *)
Theorem numLimit_range parsed :
  (1 <= numLimit parsed <= 100)%Z /\
  (forall n, parsed = Some n ->
     ((1 <= n <= 100)%Z -> numLimit parsed = n) /\
     ((n < 0)%Z -> numLimit parsed = 1%Z) /\
     ((100 < n)%Z -> numLimit parsed = 100%Z)) /\
  (parsed = None \/ parsed = Some 0%Z -> numLimit parsed = 10%Z).
Proof.
  split; [apply numLimit_bounds|]. split.
  - intros n ->. unfold numLimit.
    destruct (Z.eqb_spec n 0); repeat split; intros; lia.
  - intros [->| ->]; reflexivity.
Qed.

Lemma flatten_lines_no_LF s : ~ In LF (flatten_lines s).
Proof.
  unfold flatten_lines. intros I. apply in_map_iff in I as [c [E _]].
  destruct (N.eqb_spec c LF) as [_|Ne]; [discriminate|]. congruence.
Qed.

Lemma flatten_lines_id s : ~ In LF s -> flatten_lines s = s.
Proof.
  unfold flatten_lines. induction s as [|c s IH]; intros N; [reflexivity|].
  cbn [map]. destruct (N.eqb_spec c LF) as [E|_].
  - exfalso. apply N. left. exact E.
  - f_equal. apply IH. intros I. apply N. right. exact I.
Qed.

Section WithFormat.

Variable to_fixed3 : Q -> jsstring.
Variable e : Env.

(** X24: The preview [formatResults] shows of a chunk is one line of at most
    153 code units: a text of one line and at most 150 units is shown
    as it is, a longer one is cut to 150 units and three dots. *)
Theorem preview_is_one_short_line txt :
  (length (preview txt) <= 153)%nat /\
  ~ In LF (preview txt) /\
  ((length txt <= 150)%nat -> ~ In LF txt -> preview txt = txt) /\
  ((150 < length txt)%nat ->
   preview txt = flatten_lines (firstn 150 txt) ++ str "..." /\
   length (preview txt) = 153%nat).
Proof.
  unfold preview, substring0.
  assert (Lf : forall s, length (flatten_lines s) = length s)
    by (intros s; apply length_map).
  pose proof (firstn_le_length 150 txt) as L1.
  split; [|split; [|split]].
  - rewrite length_app, Lf.
    destruct (150 <? length txt)%nat;
      [change (length (str "...")) with 3%nat|cbn [length]]; lia.
  - intros I. apply in_app_or in I as [I|I].
    + exact (flatten_lines_no_LF _ I).
    + destruct (150 <? length txt)%nat; [|exact I].
      cbn in I. unfold LF in I.
      repeat (destruct I as [I|I]; [discriminate|]). exact I.
  - intros L N.
    destruct (Nat.ltb_spec 150 (length txt)) as [G|_]; [lia|].
    rewrite app_nil_r, firstn_all2 by exact L.
    apply flatten_lines_id, N.
  - intros G.
    destruct (Nat.ltb_spec 150 (length txt)) as [_|G']; [|lia].
    split; [reflexivity|].
    rewrite length_app, Lf, firstn_length_le by lia. reflexivity.
Qed.

Lemma hybridSearch_length query limit hybrid w rs w' :
  hybridSearch e query limit hybrid w = (Ok rs, w') ->
  (length rs <= limit)%nat.
Proof.
  intros H. destruct (hybridSearch_ok e _ _ _ _ _ _ H) as [cands [_ ->]].
  destruct hybrid; [unfold reranked|]; apply firstn_le_length.
Qed.

(** X25: The search tool refuses a query that is missing or blank before it
    touches the store.  Any other query it hands to [hybridSearch] with
    the limit clamped, so that the text it returns is [formatResults]
    of at most 100 results; an error of the search is passed on. *)
Theorem handleSearch_outcome args w :
  (arg_query args = None \/
   (exists q, arg_query args = Some q /\ forallb is_ws q = true) ->
   handleSearch to_fixed3 e args w = (Thrown QueryRequired, w)) /\
  (forall txt w',
     handleSearch to_fixed3 e args w = (Done txt, w') ->
     exists q results,
       arg_query args = Some q /\ trim q <> [] /\
       hybridSearch e q (Z.to_nat (numLimit (arg_limit args)))
                    (arg_hybrid args) w = (Ok results, w') /\
       txt = formatResults to_fixed3 results /\
       (length results <= 100)%nat) /\
  (forall err w',
     handleSearch to_fixed3 e args w = (Thrown (Failed err), w') ->
     exists q cause,
       arg_query args = Some q /\ err = Inner cause /\
       hybridSearch e q (Z.to_nat (numLimit (arg_limit args)))
                    (arg_hybrid args) w = (Err cause, w')).
Proof.
  unfold handleSearch. split; [|split].
  - intros [->|[q [-> B]]]; [reflexivity|].
    rewrite (trim_blank q B). reflexivity.
  - intros txt w'. destruct (arg_query args) as [q|]; [|discriminate].
    destruct (trim q) as [|c t] eqn:T; [discriminate|].
    cbn [length Nat.eqb].
    destruct (hybridSearch e q (Z.to_nat (numLimit (arg_limit args)))
                (arg_hybrid args) w) as [[results|err] w1] eqn:H;
      [|discriminate].
    intros X. injection X as <- <-.
    exists q, results. split; [reflexivity|].
    split; [rewrite T; discriminate|].
    split; [exact H|]. split; [reflexivity|].
    pose proof (hybridSearch_length _ _ _ _ _ _ H) as L.
    pose proof (numLimit_bounds (arg_limit args)). lia.
  - intros err w'. destruct (arg_query args) as [q|]; [|discriminate].
    destruct (trim q) as [|c t] eqn:T; [discriminate|].
    cbn [length Nat.eqb].
    destruct (hybridSearch e q (Z.to_nat (numLimit (arg_limit args)))
                (arg_hybrid args) w) as [[results|cause] w1] eqn:H;
      [discriminate|].
    intros X. injection X as <- <-.
    exists q, cause. split; [reflexivity|]. split; [reflexivity|exact H].
Qed.

(** X26: Before anything is indexed the search tool answers every query
    that is not blank with 'No results found.', whatever the limit and
    the mode. *)
Theorem handleSearch_on_empty_index args q w :
  arg_query args = Some q -> trim q <> [] ->
  db w = true -> table w = false ->
  handleSearch to_fixed3 e args w = (Done (str "No results found."), w).
Proof.
  intros A T D Tb. unfold handleSearch. rewrite A.
  destruct (trim q) as [|c t]; [congruence|]. cbn [length Nat.eqb].
  rewrite (MaintenanceFacts.hybridSearch_closed_table e _ _ _ w D Tb).
  reflexivity.
Qed.

End WithFormat.

End ToolsFacts.

(** ** More facts about the indexer *)

Module IndexerMore.

Import Chunker VectorDb Indexer Spec IndexerFacts.

Section WithEnv.

Variable e : Env.

(** X27: [indexFile] returns the number of chunks [chunkDocument] makes of
    what it read, which is never 0: its branch for a document without
    chunks is never taken.  When it fails, the error names the file and
    wraps the cause; a file that cannot be read leaves the store as it
    was. *)
Theorem indexFile_outcome filePath w :
  (forall n w1,
     indexFile e filePath w = (Ok n, w1) ->
     exists content,
       read_file e filePath = Some content /\
       n = length (chunkDocument e content filePath) /\ (0 < n)%nat) /\
  (forall err w1,
     indexFile e filePath w = (Err err, w1) ->
     exists cause,
       err = IndexFileError filePath cause /\
       (read_file e filePath = None -> cause = ReadFileFailed /\ w1 = w)).
Proof.
  unfold indexFile. run.
  destruct (read_file e filePath) as [content|] eqn:R; run.
  - pose proof (chunkDocument_nonempty e content filePath) as Ne.
    set (cs := chunkDocument e content filePath) in *.
    assert (L : (0 < length cs)%nat)
      by (destruct cs; [congruence|cbn [length]; lia]).
    destruct (deleteFileChunks e filePath w) as [[k|err0] w0].
    + destruct (length cs =? 0)%nat eqn:L0;
        [apply Nat.eqb_eq in L0; lia|].
      destruct (addChunks e cs w0) as [[[]|err1] w2]; split.
      * intros n w1 H. injection H as <- <-. exists content. auto.
      * intros err w1 H. discriminate.
      * intros n w1 H. discriminate.
      * intros err w1 H. injection H as <- <-. exists err1.
        split; [reflexivity|discriminate].
    + split.
      * intros n w1 H. discriminate.
      * intros err w1 H. injection H as <- <-. exists err0.
        split; [reflexivity|discriminate].
  - split.
    + intros n w1 H. discriminate.
    + intros err w1 H. injection H as <- <-. exists ReadFileFailed. auto.
Qed.

(** X28: [indexDirectory] fails in two cases only: when glob cannot be
    loaded, with the rejection of the import as it is, for the import
    stands before the guarded block; and when the files cannot be
    listed, with the error wrapped.  In both the store is as it was.
    No failure of a file makes it fail. *)
Theorem indexDirectory_fails_only_on_glob dirPath pattern w :
  (forall err w1,
     indexDirectory e dirPath pattern w = (Err err, w1) ->
     w1 = w /\
     ((glob_sync e (path_resolve e dirPath) pattern = ImportRejected /\
       err = ImportFailed) \/
      (glob_sync e (path_resolve e dirPath) pattern = SyncThrew /\
       err = IndexDirectoryError dirPath GlobFailed))) /\
  (glob_sync e (path_resolve e dirPath) pattern = ImportRejected ->
   indexDirectory e dirPath pattern w = (Err ImportFailed, w)) /\
  (glob_sync e (path_resolve e dirPath) pattern = SyncThrew ->
   indexDirectory e dirPath pattern w =
   (Err (IndexDirectoryError dirPath GlobFailed), w)).
Proof.
  unfold indexDirectory.
  destruct (glob_sync e (path_resolve e dirPath) pattern) as [| |files];
    unfold import_glob, sync; run.
  - split; [|split; [reflexivity|discriminate]].
    intros err w1 H. injection H as <- <-. auto.
  - split; [|split; [discriminate|reflexivity]].
    intros err w1 H. injection H as <- <-. auto.
  - rewrite index_files_outcomes.
    split; [|split; discriminate].
    intros err w1 H. discriminate.
Qed.

End WithEnv.

End IndexerMore.

(** ** Further instances *)

Module MoreCases.

Import JsString Chunker Effects VectorDb Indexer Retriever Spec Samples
       SpecMore SamplesMore.

Open Scope Q_scope.

(** *** The chunker *)

(** X3 (instance): A heading and a sentence: the one chunk is trimmed and counted. *)
Lemma chunks_of_nonblank_document_witness :
  Exists (fun c => is_ws c = false) doc_small /\
  forall c, In c (chunk_sample doc_small notes) ->
    text c <> [] /\ trim (text c) = text c /\
    char_count (metadata c) = length (text c) /\
    (line_start c <= line_end c)%Z.
Proof.
  assert (H : Exists (fun c => is_ws c = false) doc_small)
    by (left; reflexivity).
  split; [exact H|].
  exact (ChunkerMore.chunks_of_nonblank_document
           same same same path_hash stamp doc_small notes H).
Defined.

(** X4 (instance): The same document: its chunk is smaller than [minChunkSize], and
    alone. *)
Lemma small_chunk_stands_alone_witness :
  exists c,
    In c (chunk_sample doc_small notes) /\
    (length (text c) < minChunkSize)%nat /\
    ((minChunkSize <= length (text c))%nat \/
     chunk_sample doc_small notes = [c]).
Proof.
  assert (E : exists c, chunk_sample doc_small notes = [c] /\
                        (length (text c) < minChunkSize)%nat).
  { vm_compute. eexists. split; [reflexivity|]. cbn [length]. lia. }
  destruct E as [c [E L]]. exists c.
  assert (I : In c (chunk_sample doc_small notes))
    by (rewrite E; left; reflexivity).
  split; [exact I|]. split; [exact L|].
  exact (ChunkerMore.small_chunk_stands_alone
           same same same path_hash stamp doc_small notes c I).
Defined.

(** X5 (instance): The same document fits one chunk. *)
Lemma short_document_one_chunk_witness :
  (Exists (fun c => is_ws c = false) doc_small /\
   (length (join (paragraphs_of doc_small)) <= maxChunkSize)%nat) /\
  exists c,
    chunk_sample doc_small notes = [c] /\
    text c = join (paragraphs_of doc_small) /\
    line_start c = 1%Z /\ chunk_index c = 0%Z.
Proof.
  assert (H : Exists (fun c => is_ws c = false) doc_small)
    by (left; reflexivity).
  assert (L : (length (join (paragraphs_of doc_small)) <= maxChunkSize)%nat)
    by (vm_compute; lia).
  split; [split; [exact H|exact L]|].
  exact (ChunkerMore.short_document_one_chunk
           same same same path_hash stamp doc_small notes H L).
Defined.

(** *** The store *)

(** X7 (instance): Deleting the rows of [notes] from a store that holds one. *)
Lemma deleteFileChunks_effect_witness :
  deleteFileChunks env_first notes stale = (Ok 1%Z, opened []) /\
  rows_not_for env_first notes (opened []) = rows_not_for env_first notes stale /\
  ((1%Z = 1%Z /\ rows_for env_first notes (opened []) = []) \/
   (1%Z = 0%Z /\ rows (opened []) = rows stale)).
Proof.
  assert (H : deleteFileChunks env_first notes stale = (Ok 1%Z, opened []))
    by (vm_compute; reflexivity).
  split; [exact H|].
  exact (StoreMore.deleteFileChunks_effect
           env_first notes stale 1%Z (opened []) H).
Defined.

(** X8 (instance): Deleting from a store that has no table yet. *)
Lemma deleteFileChunks_without_table_witness :
  (initialize env_first fresh = (Ok tt, connected) /\
   table connected = false) /\
  deleteFileChunks env_first notes fresh = (Ok 0%Z, connected).
Proof.
  split; [split; reflexivity|].
  exact (StoreMore.deleteFileChunks_without_table
           env_first notes fresh connected eq_refl eq_refl).
Defined.

(** X9 (instance): Adding one chunk to a store that holds one row. *)
Lemma addChunks_appends_witness :
  addChunks env_first small_chunks stale =
    (Ok tt, after_add env_first small_chunks stale) /\
  length (rows (after_add env_first small_chunks stale)) = 2%nat /\
  exists vs,
    Forall2 (fun c v => embed env_first (text c) = Some v) small_chunks vs /\
    rows (after_add env_first small_chunks stale) =
      rows stale ++ map (fun cv => row_of (fst cv) (snd cv))
                        (combine small_chunks vs) /\
    length (rows (after_add env_first small_chunks stale)) =
      (length (rows stale) + length small_chunks)%nat.
Proof.
  assert (H : addChunks env_first small_chunks stale =
              (Ok tt, after_add env_first small_chunks stale))
    by (vm_compute; reflexivity).
  split; [exact H|]. split; [vm_compute; reflexivity|].
  exact (StoreMore.addChunks_appends
           env_first small_chunks stale
           (after_add env_first small_chunks stale) H).
Defined.

(** X10 (instance): Adding a chunk when no text can be embedded. *)
Lemma addChunks_embedding_failure_witness :
  (initialize env_mute fresh = (Ok tt, connected) /\
   small_chunks <> [] /\
   embedBatch env_mute (map text small_chunks) = None) /\
  addChunks env_mute small_chunks fresh =
    (Err (AddChunksError EmbeddingFailed), connected) /\
  rows connected = rows fresh.
Proof.
  assert (N : small_chunks <> []) by (vm_compute; discriminate).
  assert (B : embedBatch env_mute (map text small_chunks) = None)
    by (vm_compute; reflexivity).
  split; [split; [reflexivity|split; [exact N|exact B]]|].
  exact (StoreMore.addChunks_embedding_failure
           env_mute small_chunks fresh connected eq_refl N B).
Defined.

(** *** The retriever *)

Lemma env_echo_answers content : answers_from_table (env_echo content).
Proof.
  intros rs v n f res H rd I. cbn [vector_search env_echo] in H.
  injection H as <-. apply in_map_iff in I as [r [<- I]].
  cbn [fst]. exact (RetrieverFacts.in_firstn n rs r I).
Qed.

(** X11 (instance): Index [notes] and search for one result: it is a chunk of
    [notes]. *)
Lemma search_returns_indexed_chunks_witness :
  (well_formed fresh /\ disk fresh = None /\
   answers_from_table env_echoed /\
   indexFile env_echoed notes fresh =
     (Ok 2%nat, after env_echoed notes fresh) /\
   search env_echoed (str "alpha") 1 None (after env_echoed notes fresh) =
     (Ok echo_results, after env_echoed notes fresh)) /\
  length echo_results = 1%nat /\
  exists content,
    read_file env_echoed notes = Some content /\
    forall r, In r echo_results ->
      In (chunk_of (chunk r)) (Indexer.chunkDocument env_echoed content notes).
Proof.
  assert (WF : well_formed fresh) by (intros H; discriminate H).
  assert (A : answers_from_table env_echoed)
    by exact (env_echo_answers doc_two_chunks).
  assert (I : indexFile env_echoed notes fresh =
              (Ok 2%nat, after env_echoed notes fresh))
    by (vm_compute; reflexivity).
  assert (S : search env_echoed (str "alpha") 1 None
                     (after env_echoed notes fresh) =
              (Ok echo_results, after env_echoed notes fresh))
    by (vm_compute; reflexivity).
  split; [split; [exact WF|split; [reflexivity|split; [exact A|split;
            [exact I|exact S]]]]|].
  split; [vm_compute; reflexivity|].
  exact (RetrieverMore.search_returns_indexed_chunks
           env_echoed notes fresh 2%nat (after env_echoed notes fresh)
           (str "alpha") 1%nat None echo_results
           (after env_echoed notes fresh) WF eq_refl A I S).
Defined.

(** X12 (instance): Searching a store that has no table yet. *)
Lemma search_without_table_witness :
  (initialize env_first fresh = (Ok tt, connected) /\
   table connected = false) /\
  search env_first two_words 3 None fresh = (Ok [], connected) /\
  hybridSearch env_first two_words 3 true fresh = (Ok [], connected).
Proof.
  split; [split; reflexivity|].
  exact (RetrieverMore.search_without_table
           env_first two_words 3%nat None true fresh connected
           eq_refl eq_refl).
Defined.

(** X13 (instance): Two candidates, both kept by a search for two. *)
Lemma hybrid_rerank_keeps_candidates_witness :
  search env_tie two_words (2 * 2) None (opened []) =
    (Ok tie_candidates, opened []) /\
  exists on off,
    hybridSearch env_tie two_words 2 true (opened []) = (Ok on, opened []) /\
    hybridSearch env_tie two_words 2 false (opened []) = (Ok off, opened []) /\
    length on = Nat.min 2 (length tie_candidates) /\
    length off = Nat.min 2 (length tie_candidates) /\
    (forall r, In r on -> In (found r) (map found tie_candidates)) /\
    ((length tie_candidates <= 2)%nat ->
     Permutation (map found on) (map found tie_candidates)).
Proof.
  assert (S : search env_tie two_words (2 * 2) None (opened []) =
              (Ok tie_candidates, opened []))
    by (vm_compute; reflexivity).
  split; [exact S|].
  exact (RetrieverMore.hybrid_rerank_keeps_candidates
           env_tie two_words 2%nat (opened []) tie_candidates (opened []) S).
Defined.


(** *** The embedding service *)

(** X15 (instance): Two texts through a model that is loaded at the first call. *)
Lemma embedBatch_in_order_witness :
  (false = true \/ EmbeddingService.load_ok model_unit = true) /\
  EmbeddingService.embedBatch model_unit [str "a"; str "bc"] false =
    (Raising.Done [[1]; [2]], true).
Proof.
  split; [right; reflexivity|].
  apply (proj1 (EmbeddingFacts.embedBatch_in_order
                  model_unit [str "a"; str "bc"] false
                  (or_intror eq_refl))).
  repeat constructor.
Defined.

(** X16 (instance): A model that cannot be loaded. *)
Lemma embedding_needs_the_model_witness :
  EmbeddingService.load_ok model_absent = false /\
  EmbeddingService.embed model_absent (str "a") false =
    (Raising.Thrown (EmbeddingService.LoadError EmbeddingService.PipelineFailed),
     false) /\
  EmbeddingService.embedBatch model_absent [str "a"] false =
    (Raising.Thrown (EmbeddingService.LoadError EmbeddingService.PipelineFailed),
     false).
Proof.
  split; [reflexivity|].
  exact (EmbeddingFacts.embedding_needs_the_model
           model_absent (str "a") [str "a"] eq_refl).
Defined.

(** *** Statistics, clearing, closing *)

(** X17 (instance): The statistics of a store that holds one row of [notes]. *)
Lemma getStats_counts_witness :
  Maintenance.getStats env_first ops_ok stale =
    (Raising.Done (stats_of 1 [notes]), stale) /\
  ((table stale = false /\ stats_of 1 [notes] = no_stats) \/
   (table stale = true /\
    Maintenance.total_chunks (stats_of 1 [notes]) = length (rows stale) /\
    Maintenance.total_files (stats_of 1 [notes]) =
      length (Maintenance.file_list (stats_of 1 [notes])) /\
    NoDup (Maintenance.file_list (stats_of 1 [notes])) /\
    (forall p, In p (Maintenance.file_list (stats_of 1 [notes])) <->
       p <> [] /\ exists r, In r (rows stale) /\ row_file_path r = p) /\
    (Maintenance.total_files (stats_of 1 [notes]) <=
     Maintenance.total_chunks (stats_of 1 [notes]))%nat /\
    Maintenance.db_size_mb (stats_of 1 [notes]) =
      Maintenance.size_mb ops_ok)).
Proof.
  assert (H : Maintenance.getStats env_first ops_ok stale =
              (Raising.Done (stats_of 1 [notes]), stale))
    by (vm_compute; reflexivity).
  split; [exact H|].
  exact (MaintenanceFacts.getStats_counts
           env_first ops_ok stale (stats_of 1 [notes]) stale H).
Defined.

(** X18 (instance): Clearing that store. *)
Lemma clear_empties_the_index_witness :
  Maintenance.clear env_first ops_ok stale = (Raising.Done tt, connected) /\
  Maintenance.getStats env_first ops_ok connected =
    (Raising.Done no_stats, connected) /\
  (forall query limit hybrid,
     hybridSearch env_first query limit hybrid connected =
     (Ok [], connected)) /\
  (forall w0, initialize env_first stale = (Ok tt, w0) -> table w0 = true ->
     disk connected = None).
Proof.
  assert (H : Maintenance.clear env_first ops_ok stale =
              (Raising.Done tt, connected))
    by (vm_compute; reflexivity).
  split; [exact H|].
  exact (MaintenanceFacts.clear_empties_the_index
           env_first ops_ok stale connected H).
Defined.

(** X19 (instance): The statistics after [notes] is indexed into an empty store. *)
Lemma stats_after_first_index_witness :
  (well_formed fresh /\ disk fresh = None /\
   path_resolve env_first notes <> [] /\
   indexFile env_first notes fresh =
     (Ok 2%nat, after env_first notes fresh) /\
   Maintenance.getStats env_first ops_ok (after env_first notes fresh) =
     (Raising.Done (stats_of 2 [notes]), after env_first notes fresh)) /\
  after env_first notes fresh = after env_first notes fresh /\
  (0 < 2)%nat /\
  Maintenance.total_chunks (stats_of 2 [notes]) = 2%nat /\
  Maintenance.total_files (stats_of 2 [notes]) = 1%nat /\
  Maintenance.file_list (stats_of 2 [notes]) = [path_resolve env_first notes].
Proof.
  assert (WF : well_formed fresh) by (intros H; discriminate H).
  assert (N : path_resolve env_first notes <> [])
    by (vm_compute; discriminate).
  assert (I : indexFile env_first notes fresh =
              (Ok 2%nat, after env_first notes fresh))
    by (vm_compute; reflexivity).
  assert (G : Maintenance.getStats env_first ops_ok
                (after env_first notes fresh) =
              (Raising.Done (stats_of 2 [notes]),
               after env_first notes fresh))
    by (vm_compute; reflexivity).
  split; [split; [exact WF|split; [reflexivity|split; [exact N|split;
            [exact I|exact G]]]]|].
  exact (MaintenanceFacts.stats_after_first_index
           env_first ops_ok notes fresh 2%nat (after env_first notes fresh)
           (stats_of 2 [notes]) (after env_first notes fresh)
           WF eq_refl N I G).
Defined.

(** X20 (instance): A stored table that cannot be opened at the first call. *)
Lemma failed_open_is_never_retried_witness :
  (db (asleep [row_with (str "old")]) = false /\
   table (asleep [row_with (str "old")]) = false /\
   connect_ok env_no_open = true /\ open_ok env_no_open = false) /\
  exists w1,
    initialize env_no_open (asleep [row_with (str "old")]) =
      (Err (InitializeError OpenTableFailed), w1) /\
    disk w1 = disk (asleep [row_with (str "old")]) /\
    forall e2 query limit f filePath,
      initialize e2 w1 = (Ok tt, w1) /\
      search e2 query limit f w1 = (Ok [], w1) /\
      deleteFileChunks e2 filePath w1 = (Ok 0%Z, w1).
Proof.
  split; [repeat split|].
  exact (MaintenanceFacts.failed_open_is_never_retried
           env_no_open (asleep [row_with (str "old")])
           eq_refl eq_refl eq_refl eq_refl).
Defined.

(** X21 (instance): Closing and opening a store that holds one row. *)
Lemma close_then_reopen_witness :
  (connect_ok env_first = true /\ open_ok env_first = true) /\
  exists w1 w2,
    Maintenance.close stale = (Raising.Done tt, w1) /\
    initialize env_first w1 = (Ok tt, w2) /\
    rows w2 = rows stale /\ disk w2 = disk stale /\ well_formed w2 /\
    (table w2 = true <-> disk stale <> None).
Proof.
  split; [split; reflexivity|].
  exact (MaintenanceFacts.close_then_reopen env_first stale eq_refl eq_refl).
Defined.

(** *** The search tool *)

(** X26 (instance): A query put to a store with no table. *)
Lemma handleSearch_on_empty_index_witness :
  (Tools.arg_query (ask two_words) = Some two_words /\
   trim two_words <> [] /\
   db connected = true /\ table connected = false) /\
  Tools.handleSearch no_digits env_first (ask two_words) connected =
    (Raising.Done (str "No results found."), connected).
Proof.
  assert (T : trim two_words <> []) by (vm_compute; discriminate).
  split; [repeat split; exact T|].
  exact (ToolsFacts.handleSearch_on_empty_index
           no_digits env_first (ask two_words) two_words connected
           eq_refl T eq_refl eq_refl).
Defined.

End MoreCases.

(** ** Facts about rounding *)

Module Binary64Facts.

Import Binary64.

Open Scope Z_scope.

Lemma nearest_even_exact c d : 0 < d -> nearest_even (c * d) d = c.
Proof.
  intros D. unfold nearest_even.
  rewrite Z.div_mul, Z.mod_mul by lia.
  change (2 * 0) with 0. destruct (Z.compare_spec 0 d); try lia. 
Qed.

Lemma nearest_even_mono n1 n2 d :
  0 < d -> n1 <= n2 -> nearest_even n1 d <= nearest_even n2 d.
Proof.
  intros D L. unfold nearest_even.
  pose proof (Z.div_le_mono n1 n2 d D L) as Q.
  pose proof (Z.div_mod n1 d ltac:(lia)) as E1.
  pose proof (Z.div_mod n2 d ltac:(lia)) as E2.
  pose proof (Z.mod_pos_bound n1 d D) as B1.
  pose proof (Z.mod_pos_bound n2 d D) as B2.
  set (q1 := n1 / d) in *. set (q2 := n2 / d) in *.
  set (r1 := n1 mod d) in *. set (r2 := n2 mod d) in *.
  destruct (Z.eq_dec q1 q2) as [Eq|Ne].
  - rewrite <- Eq in *. assert (r1 <= r2) by nia.
    destruct (Z.compare_spec (2 * r1) d), (Z.compare_spec (2 * r2) d),
      (Z.even q1); lia.
  - assert (q1 + 1 <= q2) by lia.
    destruct (Z.compare_spec (2 * r1) d), (Z.compare_spec (2 * r2) d),
      (Z.even q1), (Z.even q2); lia.
Qed.

Lemma nearest_even_ge a n d : 0 < d -> a * d <= n -> a <= nearest_even n d.
Proof.
  intros D L. rewrite <- (nearest_even_exact a d D).
  apply nearest_even_mono; assumption.
Qed.

Lemma nearest_even_le b n d : 0 < d -> n <= b * d -> nearest_even n d <= b.
Proof.
  intros D L. rewrite <- (nearest_even_exact b d D).
  apply nearest_even_mono; assumption.
Qed.

Lemma nearest_even_1 n : nearest_even n 1 = n.
Proof. rewrite <- (Z.mul_1_r n) at 1. apply nearest_even_exact. lia. Qed.

(** *** [round] on the integers *)
Lemma round_pos_small n : n < 2 ^ 53 -> round_pos n 1 = n.
Proof.
  intros L. unfold round_pos. rewrite Z.div_1_r.
  destruct (Z.ltb_spec n (2 ^ 53)); [apply nearest_even_1|lia].
Qed.

Lemma round_pos_large n :
  2 ^ 53 <= n ->
  round_pos n 1 =
  2 ^ (Z.log2 n - 52) * nearest_even n (2 ^ (Z.log2 n - 52)).
Proof.
  intros L. unfold round_pos. rewrite Z.div_1_r.
  destruct (Z.ltb_spec n (2 ^ 53)); [lia|].
  rewrite Z.mul_1_l. reflexivity.
Qed.

Lemma log2_large n : 2 ^ 53 <= n -> 53 <= Z.log2 n.
Proof.
  intros L. apply Z.log2_le_pow2; [|exact L].
  pose proof (Z.pow_pos_nonneg 2 53). lia.
Qed.

Lemma round_pos_binade n :
  2 ^ 53 <= n ->
  2 ^ Z.log2 n <= round_pos n 1 <= 2 ^ (Z.log2 n + 1).
Proof.
  intros L. rewrite (round_pos_large n L).
  pose proof (log2_large n L) as P.
  assert (N : 0 < n) by (pose proof (Z.pow_pos_nonneg 2 53); lia).
  destruct (Z.log2_spec n N) as [Lo Hi].
  set (p := Z.log2 n) in *. set (s := p - 52).
  assert (S0 : 0 < 2 ^ s) by (apply Z.pow_pos_nonneg; lia).
  assert (E1 : 2 ^ p = 2 ^ 52 * 2 ^ s).
  { rewrite <- Z.pow_add_r by lia. f_equal. lia. }
  assert (E2 : 2 ^ (p + 1) = 2 ^ 53 * 2 ^ s).
  { rewrite <- Z.pow_add_r by lia. f_equal. lia. }
  pose proof (nearest_even_ge (2 ^ 52) n (2 ^ s) S0 ltac:(lia)).
  pose proof (nearest_even_le (2 ^ 53) n (2 ^ s) S0 ltac:(unfold Z.succ in Hi; lia)).
  rewrite E1, E2. nia.
Qed.

Lemma round_pos_nonneg n : 0 <= n -> 0 <= round_pos n 1.
Proof.
  intros N. destruct (Z.lt_ge_cases n (2 ^ 53)) as [L|L].
  - rewrite round_pos_small by exact L. exact N.
  - pose proof (round_pos_binade n L).
    pose proof (Z.pow_pos_nonneg 2 (Z.log2 n) ltac:(lia) (Z.log2_nonneg n)).
    lia.
Qed.

Lemma round_pos_mono a b : 0 <= a -> a <= b -> round_pos a 1 <= round_pos b 1.
Proof.
  intros A L.
  destruct (Z.lt_ge_cases b (2 ^ 53)) as [Lb|Lb].
  - rewrite !round_pos_small by lia. exact L.
  - pose proof (round_pos_binade b Lb) as [Bb _].
    pose proof (log2_large b Lb) as Pb.
    destruct (Z.lt_ge_cases a (2 ^ 53)) as [La|La].
    + rewrite (round_pos_small a La).
      assert (2 ^ 53 <= 2 ^ Z.log2 b) by (apply Z.pow_le_mono_r; lia).
      lia.
    + pose proof (round_pos_binade a La) as [_ Ba].
      pose proof (log2_large a La) as Pa.
      pose proof (Z.log2_le_mono a b L) as M.
      destruct (Z.eq_dec (Z.log2 a) (Z.log2 b)) as [E|N].
      * rewrite (round_pos_large a La), (round_pos_large b Lb), E.
        set (s := Z.log2 b - 52).
        assert (S0 : 0 < 2 ^ s) by (apply Z.pow_pos_nonneg; lia).
        pose proof (nearest_even_mono a b (2 ^ s) S0 L). nia.
      * assert (2 ^ (Z.log2 a + 1) <= 2 ^ Z.log2 b)
          by (apply Z.pow_le_mono_r; lia).
        lia.
Qed.

Lemma round_opp n : round (- n) = - round n.
Proof.
  unfold round, round_ratio. rewrite Z.sgn_opp, Z.abs_opp. lia.
Qed.

Lemma round_nonneg n : 0 <= n -> round n = round_pos n 1.
Proof.
  intros N. unfold round, round_ratio. rewrite Z.abs_eq by exact N.
  destruct (Z.eq_dec n 0) as [->|Ne]; [reflexivity|].
  rewrite Z.sgn_pos by lia. lia.
Qed.

Lemma round_0 : round 0 = 0.
Proof. reflexivity. Qed.

Lemma round_neg n : n <= 0 -> round n = - round_pos (- n) 1.
Proof.
  intros N. replace n with (- - n) at 1 by lia.
  rewrite round_opp. f_equal. apply round_nonneg. lia.
Qed.

Lemma round_mono a b : a <= b -> round a <= round b.
Proof.
  intros L.
  destruct (Z.le_gt_cases 0 a) as [A|A].
  - rewrite !round_nonneg by lia. apply round_pos_mono; assumption.
  - rewrite (round_neg a) by lia.
    destruct (Z.le_gt_cases 0 b) as [B|B].
    + rewrite (round_nonneg b B).
      pose proof (round_pos_nonneg (- a) ltac:(lia)).
      pose proof (round_pos_nonneg b B). lia.
    + rewrite (round_neg b) by lia.
      pose proof (round_pos_mono (- b) (- a) ltac:(lia) ltac:(lia)). lia.
Qed.

(** The numbers [m * 2^t] with [|m| <= 2^53] are binary64 numbers. *)
Lemma round_pos_grid m t :
  0 <= t -> 0 <= m <= 2 ^ 53 -> round_pos (m * 2 ^ t) 1 = m * 2 ^ t.
Proof.
  intros T M.
  assert (T0 : 0 < 2 ^ t) by (apply Z.pow_pos_nonneg; lia).
  destruct (Z.lt_ge_cases (m * 2 ^ t) (2 ^ 53)) as [L|L].
  { apply round_pos_small, L. }
  rewrite (round_pos_large _ L).
  pose proof (log2_large _ L) as P.
  assert (M0 : 0 < m) by nia.
  rewrite (Z.log2_mul_pow2 m t M0 T) in *.
  destruct (Z.eq_dec m (2 ^ 53)) as [->|Ne].
  - rewrite Z.log2_pow2 by lia.
    replace (t + 53 - 52) with (t + 1) by lia.
    replace (2 ^ 53 * 2 ^ t) with (2 ^ 52 * 2 ^ (t + 1)).
    + rewrite nearest_even_exact by (apply Z.pow_pos_nonneg; lia). lia.
    + rewrite <- !Z.pow_add_r by lia. f_equal. lia.
  - assert (Lm : Z.log2 m < 53).
    { apply Z.log2_lt_pow2; lia. }
    set (s := t + Z.log2 m - 52) in *.
    assert (S : 0 <= s <= t) by lia.
    replace (m * 2 ^ t) with ((m * 2 ^ (t - s)) * 2 ^ s).
    + rewrite nearest_even_exact by (apply Z.pow_pos_nonneg; lia). lia.
    + rewrite <- Z.mul_assoc, <- Z.pow_add_r by lia. do 2 f_equal. lia.
Qed.

Lemma round_grid m t :
  0 <= t -> Z.abs m <= 2 ^ 53 -> round (m * 2 ^ t) = m * 2 ^ t.
Proof.
  intros T M.
  assert (T0 : 0 < 2 ^ t) by (apply Z.pow_pos_nonneg; lia).
  destruct (Z.le_gt_cases 0 m) as [P|N].
  - rewrite round_nonneg by nia. apply round_pos_grid; lia.
  - rewrite round_neg by nia.
    rewrite <- Z.mul_opp_l, round_pos_grid by lia. lia.
Qed.

Lemma round_pos_on_grid n :
  0 <= n -> exists m t, 0 <= t /\ 0 <= m <= 2 ^ 53 /\ round_pos n 1 = m * 2 ^ t.
Proof.
  intros N. destruct (Z.lt_ge_cases n (2 ^ 53)) as [L|L].
  - exists n, 0. rewrite round_pos_small by exact L.
    change (2 ^ 0) with 1. lia.
  - pose proof (log2_large n L) as P.
    pose proof (round_pos_binade n L) as [Lo Hi].
    rewrite (round_pos_large n L) in *.
    set (s := Z.log2 n - 52) in *.
    assert (S0 : 0 < 2 ^ s) by (apply Z.pow_pos_nonneg; lia).
    exists (nearest_even n (2 ^ s)), s.
    split; [lia|]. split; [|lia].
    assert (E2 : 2 ^ (Z.log2 n + 1) = 2 ^ 53 * 2 ^ s).
    { rewrite <- Z.pow_add_r by lia. f_equal. unfold s. lia. }
    pose proof (Z.pow_pos_nonneg 2 (Z.log2 n) ltac:(lia) ltac:(lia)).
    nia.
Qed.

Lemma round_round n : round (round n) = round n.
Proof.
  assert (P : forall k, 0 <= k -> round (round_pos k 1) = round_pos k 1).
  { intros k K.
    destruct (round_pos_on_grid k K) as [m [t [T [M ->]]]].
    apply round_grid; [exact T|lia]. }
  destruct (Z.le_gt_cases 0 n) as [N|N].
  - rewrite (round_nonneg n N). apply P, N.
  - rewrite (round_neg n) by lia. rewrite round_opp, P by lia. reflexivity.
Qed.

Lemma round_small n : Z.abs n < 2 ^ 53 -> round n = n.
Proof.
  intros L. rewrite <- (Z.mul_1_r n) at 1.
  change 1 with (2 ^ 0) at 1. rewrite round_grid by lia. lia.
Qed.

Lemma round_one : round one = one.
Proof. apply (round_grid 1 1074); [lia|]. change (Z.abs 1) with 1. lia. Qed.

Lemma round_fifth : round fifth = fifth.
Proof.
  apply (round_grid 7205759403792794 1019); [lia|].
  apply Z.leb_le. reflexivity.
Qed.

(** The sign of a rounded number is the sign of the number. *)
Lemma round_sign n : round n <= 0 <-> n <= 0.
Proof.
  split; intros H.
  - destruct (Z.le_gt_cases n 0) as [L|L]; [exact L|].
    pose proof (round_mono 1 n ltac:(lia)) as M.
    rewrite (round_small 1) in M by (change (Z.abs 1) with 1; lia). lia.
  - rewrite <- round_0. apply round_mono, H.
Qed.

Lemma sub_sign x y : sub x y <= 0 <-> x <= y.
Proof. unfold sub. rewrite round_sign. lia. Qed.

(** Two numbers that lie at least 1/8 apart and are of size at most
    2^48 are rounded to different numbers. *)
Lemma round_gap x y :
  Z.abs x <= 2 ^ 1122 -> x + 2 ^ 1071 <= y -> y <= 2 ^ 1122 ->
  round x < round y.
Proof.
  intros X G Y.
  assert (E1 : 2 ^ 1071 = 2 * 2 ^ 1070) by reflexivity.
  assert (E2 : 2 ^ 1122 = 2 ^ 52 * 2 ^ 1070) by reflexivity.
  assert (U : 0 < 2 ^ 1070) by (apply Z.pow_pos_nonneg; lia).
  rewrite E1 in G. rewrite E2 in X, Y. clear E1 E2.
  set (u := 2 ^ 1070) in *.
  pose proof (Z.div_mod (- x) u ltac:(lia)) as D.
  pose proof (Z.mod_pos_bound (- x) u U) as B.
  set (c := - ((- x) / u)).
  assert (C1 : x <= c * u < x + u) by (unfold c; nia).
  assert (P : 2 ^ 53 = 2 * 2 ^ 52) by reflexivity.
  assert (Q : 0 < 2 ^ 52) by (apply Z.pow_pos_nonneg; lia).
  assert (Bc : Z.abs c <= 2 ^ 52 + 1) by nia.
  pose proof (round_mono x (c * u) ltac:(lia)) as M1.
  pose proof (round_mono ((c + 1) * u) y ltac:(nia)) as M2.
  unfold u in M1, M2.
  rewrite (round_grid c 1070) in M1 by lia.
  rewrite (round_grid (c + 1) 1070) in M2 by lia.
  fold u in M1, M2. nia.
Qed.

End Binary64Facts.

(** ** Facts about the scores in binary64 *)

Module ScoringFacts.

Import JsString Chunker Effects VectorDb Retriever.
Import Binary64 Binary64Facts Scoring ScoringSpec.
Import IndexerFacts RetrieverFacts.

Open Scope Z_scope.

(** *** The stable sort *)

Lemma by_score_desc_sign x y :
  Qle_bool (by_score_desc x y) 0 = true <-> score y <= score x.
Proof.
  unfold by_score_desc. rewrite Qle_bool_iff.
  change 0%Q with (inject_Z 0). rewrite <- Zle_Qle. apply sub_sign.
Qed.

Lemma insert_in_order x l :
  sorted_desc l -> sorted_desc (sort_insert by_score_desc x l).
Proof.
  unfold sorted_desc.
  induction 1 as [|y l Sl IH Hy]; cbn [sort_insert].
  - constructor; constructor.
  - destruct (Qle_bool (by_score_desc x y) 0) eqn:C.
    + apply by_score_desc_sign in C.
      constructor; [constructor; assumption|].
      constructor; [exact C|].
      rewrite Forall_forall in Hy |- *. intros z Iz.
      specialize (Hy z Iz). unfold higher_first in *. lia.
    + assert (Lt : score x <= score y).
      { destruct (Z.le_gt_cases (score y) (score x)) as [L|L]; [|lia].
        apply by_score_desc_sign in L. congruence. }
      constructor; [exact IH|].
      rewrite Forall_forall in Hy |- *. intros z Iz.
      apply (Permutation_in _ (sort_insert_perm _ by_score_desc x l)) in Iz.
      destruct Iz as [<-|Iz]; [exact Lt|apply Hy, Iz].
Qed.

Lemma sort_in_order l : sorted_desc (js_sort by_score_desc l).
Proof.
  induction l as [|x l IH].
  - constructor.
  - apply (insert_in_order x (js_sort by_score_desc l)), IH.
Qed.

Lemma insert_keeps_ties (s : double) x l :
  sorted_desc l ->
  scored s (sort_insert by_score_desc x l) = scored s (x :: l).
Proof.
  unfold sorted_desc, scored.
  induction 1 as [|y l Sl IH Hy]; cbn [sort_insert]; [reflexivity|].
  destruct (Qle_bool (by_score_desc x y) 0) eqn:C; [reflexivity|].
  assert (Lt : score x < score y).
  { destruct (Z.le_gt_cases (score y) (score x)) as [L|L]; [|lia].
    apply by_score_desc_sign in L. congruence. }
  change (filter ?f (y :: ?t)) with
    (if f y then y :: filter f t else filter f t).
  rewrite IH. cbn [filter].
  destruct (Z.eqb_spec (score x) s) as [Ex|Ex]; [|reflexivity].
  destruct (Z.eqb_spec (score y) s) as [Ey|Ey]; [lia|reflexivity].
Qed.

Lemma sort_keeps_ties (s : double) l :
  scored s (js_sort by_score_desc l) = scored s l.
Proof.
  induction l as [|x l IH]; [reflexivity|].
  change (js_sort by_score_desc (x :: l))
    with (sort_insert by_score_desc x (js_sort by_score_desc l)).
  rewrite (insert_keeps_ties s x _ (sort_in_order l)).
  unfold scored in *. cbn [filter]. rewrite IH. reflexivity.
Qed.

Lemma in_order_nth l : sorted_desc l ->
  forall i j a b, (i < j)%nat ->
    nth_error l i = Some a -> nth_error l j = Some b -> score b <= score a.
Proof.
  unfold sorted_desc.
  induction 1 as [|x l Sl IH Hx]; intros i j a b Lt Ha Hb.
  - destruct i; discriminate.
  - destruct j as [|j]; [lia|]. cbn [nth_error] in Hb.
    destruct i as [|i]; cbn [nth_error] in Ha.
    + injection Ha as <-. rewrite Forall_forall in Hx.
      apply Hx. eapply nth_error_In, Hb.
    + apply (IH i j a b); [lia|assumption|assumption].
Qed.

Lemma in_order_before l i j a b :
  sorted_desc l ->
  nth_error l i = Some a -> nth_error l j = Some b ->
  score b < score a -> (i < j)%nat.
Proof.
  intros S Ha Hb Lt.
  destruct (Nat.lt_trichotomy i j) as [H|[H|H]]; [exact H| |].
  - subst j. rewrite Ha in Hb. injection Hb as <-. lia.
  - pose proof (in_order_nth l S j i b a H Hb Ha). lia.
Qed.

Lemma in_order_firstn n l : sorted_desc l -> sorted_desc (firstn n l).
Proof.
  unfold sorted_desc. intros S. revert n.
  induction S as [|x l Sl IH Hx]; intros n.
  - destruct n; constructor.
  - destruct n as [|n]; cbn [firstn]; constructor; [apply IH|].
    rewrite Forall_forall in Hx |- *. intros z Iz.
    apply Hx. exact (in_firstn n l z Iz).
Qed.

(** *** The sum of the boosts *)

Lemma added_round k : round (added k) = added k.
Proof. destruct k; [reflexivity|apply round_round]. Qed.

Lemma added_step_le k : added k <= added (S k).
Proof.
  cbn [added]. unfold add. rewrite <- (added_round k) at 1.
  apply round_mono.
  assert (0 <= fifth) by (apply Z.leb_le; reflexivity). lia.
Qed.

Lemma added_mono k1 k2 : (k1 <= k2)%nat -> added k1 <= added k2.
Proof.
  induction 1 as [|k2 L IH]; [lia|].
  pose proof (added_step_le k2). lia.
Qed.

Lemma added_nonneg k : 0 <= added k.
Proof. apply (added_mono 0 k). lia. Qed.

Lemma added_upper k :
  Z.of_nat k <= 2 ^ 53 -> added k <= Z.of_nat k * 2 ^ 1072.
Proof.
  induction k as [|k IH]; intros B; [cbn; lia|].
  specialize (IH ltac:(lia)).
  cbn [added]. unfold add.
  assert (F : fifth <= 2 ^ 1072) by (apply Z.leb_le; reflexivity).
  rewrite <- (round_grid (Z.of_nat (S k)) 1072) by lia.
  apply round_mono. lia.
Qed.

(** Below 2^32 boosts each one adds at least 1/8. *)
Lemma added_step k :
  Z.of_nat k <= 2 ^ 32 -> added k + 2 ^ 1071 <= added (S k).
Proof.
  intros B.
  pose proof (added_upper k ltac:(lia)) as Up.
  pose proof (added_nonneg k) as Lo.
  assert (F : 3 * 2 ^ 1070 <= fifth) by (apply Z.leb_le; reflexivity).
  assert (F' : fifth <= 4 * 2 ^ 1070) by (apply Z.leb_le; reflexivity).
  assert (E1 : 2 ^ 1071 = 2 * 2 ^ 1070) by reflexivity.
  assert (E2 : 2 ^ 1072 = 4 * 2 ^ 1070) by reflexivity.
  assert (U : 0 < 2 ^ 1070) by (apply Z.pow_pos_nonneg; lia).
  cbn [added]. unfold add.
  set (x := added k + fifth).
  pose proof (Z.div_mod x (2 ^ 1070) ltac:(lia)) as D.
  pose proof (Z.mod_pos_bound x (2 ^ 1070) U) as M.
  set (c := x / 2 ^ 1070) in *.
  assert (C : 0 <= c <= 2 ^ 53).
  { assert (P : 2 ^ 53 = 2 ^ 21 * 2 ^ 32) by reflexivity.
    unfold x in *. rewrite E2 in Up. split; nia. }
  pose proof (round_mono (c * 2 ^ 1070) x ltac:(lia)) as R.
  rewrite (round_grid c 1070) in R by lia.
  unfold x in *. lia.
Qed.

Lemma added_gap k1 k2 :
  (k1 < k2)%nat -> Z.of_nat k2 <= 2 ^ 32 -> added k1 + 2 ^ 1071 <= added k2.
Proof.
  intros L B.
  pose proof (added_step k1 ltac:(lia)).
  pose proof (added_mono (S k1) k2 L). lia.
Qed.

Section WithEnv.

Variable e : Env.

Lemma keyword_fold textLower kws : forall n,
  fold_left
    (fun acc keyword =>
       if includes textLower keyword then add acc fifth else acc)
    kws (added n)
  = added (n + length (filter (includes textLower) kws)).
Proof.
  induction kws as [|k kws IH]; intros n; cbn [fold_left filter].
  - rewrite Nat.add_0_r. reflexivity.
  - destruct (includes textLower k); cbn [length].
    + change (add (added n) fifth) with (added (S n)).
      rewrite (IH (S n)). f_equal. lia.
    + apply IH.
Qed.

Lemma keywordScore_added kws r :
  keywordScore (to_lower e (dc_text (chunk r))) kws = added (kmatches e kws r).
Proof. unfold keywordScore, kmatches. apply (keyword_fold _ kws 0). Qed.

Lemma boosted_score kws r :
  score (boost e kws r) =
  min (add (score r) (added (kmatches e kws r))) one.
Proof. cbn [boost score]. rewrite keywordScore_added. reflexivity. Qed.

Lemma boosted_lower kws r :
  round (score r) = score r -> score r <= one ->
  score r <= score (boost e kws r).
Proof.
  intros R U. rewrite boosted_score. unfold min, add.
  pose proof (added_nonneg (kmatches e kws r)).
  pose proof (round_mono (score r) (score r + added (kmatches e kws r))
                ltac:(lia)).
  lia.
Qed.

Lemma boosted_more kws a b :
  score a = score b ->
  (kmatches e kws b <= kmatches e kws a)%nat ->
  score (boost e kws b) <= score (boost e kws a).
Proof.
  intros E K. rewrite !boosted_score, E. unfold min, add.
  pose proof (added_mono _ _ K).
  pose proof (round_mono (score b + added (kmatches e kws b))
                (score b + added (kmatches e kws a)) ltac:(lia)).
  lia.
Qed.

Lemma boosted_strict kws a b :
  score a = score b ->
  - 2 ^ 1106 <= score b <= one ->
  (kmatches e kws b < kmatches e kws a)%nat ->
  Z.of_nat (kmatches e kws a) <= 2 ^ 32 ->
  score (boost e kws b) < one ->
  score (boost e kws b) < score (boost e kws a).
Proof.
  intros E [Lo Hi] K B C. rewrite !boosted_score in *. rewrite E.
  unfold min, add in *.
  pose proof (added_gap _ _ K B) as G.
  pose proof (added_nonneg (kmatches e kws b)) as N.
  pose proof (added_upper (kmatches e kws a) ltac:(lia)) as Ua.
  assert (E1 : 2 ^ 1122 = 2 ^ 16 * 2 ^ 1106) by reflexivity.
  assert (E2 : 2 ^ 1106 = 2 ^ 34 * 2 ^ 1072) by reflexivity.
  assert (E3 : one = 4 * 2 ^ 1072) by reflexivity.
  assert (U : 0 < 2 ^ 1072) by (apply Z.pow_pos_nonneg; lia).
  assert (P32 : 2 ^ 32 = 4294967296) by reflexivity.
  assert (P34 : 2 ^ 34 = 17179869184) by reflexivity.
  assert (P16 : 2 ^ 16 = 65536) by reflexivity.
  pose proof (round_gap (score b + added (kmatches e kws b))
                (score b + added (kmatches e kws a))
                ltac:(nia) ltac:(lia) ltac:(nia)).
  lia.
Qed.

(** *** What [search] and [hybridSearch] return *)

Lemma search_gives query limit f w rs w' :
  search e query limit f w = (Ok rs, w') ->
  forall r, In r rs -> score r = sub one (distance r).
Proof.
  unfold search. run.
  destruct (initialize e w) as [[[]|err] w0]; [|discriminate].
  destruct (table w0); cbn [negb].
  - destruct (embed e query) as [v|]; run; [|discriminate].
    destruct (vector_search e (rows w0) v limit (where_clause e f))
      as [raw|] eqn:V; run; [|discriminate].
    intros H. injection H as <- <-. intros r I.
    apply in_map_iff in I as [rd [<- I]]. reflexivity.
  - intros H. injection H as <- <-. intros r [].
Qed.

Lemma search_base query limit f w rs w' :
  search e query limit f w = (Ok rs, w') ->
  forall r, In r rs ->
    round (score r) = score r /\
    (0 <= distance r -> score r <= one) /\
    (distance r <= 2 ^ 1106 -> - 2 ^ 1106 <= score r).
Proof.
  intros S r I. rewrite (search_gives _ _ _ _ _ _ S r I). unfold sub.
  split; [apply round_round|]. split; intros D.
  - pose proof (round_mono (one - distance r) one ltac:(lia)) as M.
    rewrite round_one in M. exact M.
  - assert (G : round (- 2 ^ 1106) = - 2 ^ 1106).
    { replace (- 2 ^ 1106) with (-1 * 2 ^ 1106) by lia.
      apply round_grid; [lia|]. change (Z.abs (-1)) with 1. lia. }
    assert (O : 0 <= one) by (apply Z.leb_le; reflexivity).
    pose proof (round_mono (- 2 ^ 1106) (one - distance r) ltac:(lia)) as M.
    rewrite G in M. exact M.
Qed.

Lemma hybridSearch_gives query limit hybrid w rs w' :
  hybridSearch e query limit hybrid w = (Ok rs, w') ->
  exists cands,
    search e query (limit * 2) None w = (Ok cands, w') /\
    rs = if hybrid then reranked e query limit cands
         else firstn limit cands.
Proof.
  unfold hybridSearch. run.
  destruct (search e query (limit * 2) None w) as [[cands|err] w1];
    [|discriminate].
  destruct hybrid; cbn [negb]; intros H; injection H as <- <-;
    exists cands; auto.
Qed.

Lemma hybridSearch_given query limit hybrid w cands w' :
  search e query (limit * 2) None w = (Ok cands, w') ->
  hybridSearch e query limit hybrid w =
  (Ok (if hybrid then reranked e query limit cands else firstn limit cands),
   w').
Proof.
  intros S. unfold hybridSearch. run. rewrite S.
  destruct hybrid; reflexivity.
Qed.

Lemma reranked_in query limit cands r :
  In r (reranked e query limit cands) ->
  exists c, In c cands /\ r = boost e (keywords e query) c.
Proof.
  unfold reranked, boosted. intros I. apply in_firstn in I.
  apply js_sort_in in I. apply in_map_iff in I as [c [<- I]].
  exists c. auto.
Qed.

(** C6 (amended): on the candidates of one vector search, none at a
    negative distance, hybrid mode never lowers a candidate's score.
    Of two candidates of equal base score the one matching more
    keywords has a boosted score at least as high; it is strictly
    higher as long as the other's is below the cap 1, the distance is
    at most 2^32 and the matches number at most 2^32; and whenever it
    is strictly higher, that candidate stands before the other in the
    result if the other is in it.  Results of equal boosted score, as
    of two that reach the cap, keep the order of the vector search. *)
Theorem hybrid_monotonicity_amended query limit w cands w' :
  search e query (limit * 2) None w = (Ok cands, w') ->
  Forall (fun c => 0 <= distance c) cands ->
  hybridSearch e query limit false w = (Ok (firstn limit cands), w') /\
  hybridSearch e query limit true w =
    (Ok (reranked e query limit cands), w') /\
  (forall c, In c cands ->
     score c <= score (boost e (keywords e query) c)) /\
  (forall a b, In a cands -> In b cands ->
     score a = score b ->
     (kmatches e (keywords e query) b < kmatches e (keywords e query) a)%nat ->
     score (boost e (keywords e query) b) <=
       score (boost e (keywords e query) a) /\
     (score (boost e (keywords e query) b) < one ->
      distance b <= dbl 1 32 ->
      Z.of_nat (kmatches e (keywords e query) a) <= 2 ^ 32 ->
      score (boost e (keywords e query) b) <
        score (boost e (keywords e query) a)) /\
     (score (boost e (keywords e query) b) <
        score (boost e (keywords e query) a) ->
      forall j,
        nth_error (reranked e query limit cands) j =
          Some (boost e (keywords e query) b) ->
        (exists i, (i < j)%nat /\
           nth_error (reranked e query limit cands) i =
             Some (boost e (keywords e query) a)) /\
        (forall i,
           nth_error (reranked e query limit cands) i =
             Some (boost e (keywords e query) a) -> (i < j)%nat))) /\
  (forall s,
     scored s (js_sort by_score_desc (boosted e query cands)) =
     scored s (boosted e query cands)).
Proof.
  intros S NN. rewrite Forall_forall in NN.
  split; [apply (hybridSearch_given query limit false w cands w' S)|].
  split; [apply (hybridSearch_given query limit true w cands w' S)|].
  split; [|split].
  - intros c I.
    destruct (search_base _ _ _ _ _ _ S c I) as [R [U _]].
    apply boosted_lower; [exact R|apply U, NN, I].
  - intros a b Ia Ib E K.
    destruct (search_base _ _ _ _ _ _ S b Ib) as [R [U L]].
    split; [apply boosted_more; [exact E|lia]|]. split.
    + intros C D B. apply boosted_strict; try assumption.
      split; [apply L; exact D|apply U, NN, Ib].
    + intros Lt j Hj.
      unfold reranked in *.
      set (kws := keywords e query) in *.
      set (L' := js_sort by_score_desc (boosted e query cands)) in *.
      pose proof (sort_in_order (boosted e query cands)) as Srt.
      fold L' in Srt.
      apply nth_error_firstn_some in Hj as [Jl Hj].
      split.
      * assert (Ina : In (boost e kws a) L').
        { apply js_sort_in. unfold boosted. apply in_map, Ia. }
        apply In_nth_error in Ina as [i Hi].
        pose proof (in_order_before L' i j _ _ Srt Hi Hj Lt) as Lij.
        exists i. split; [exact Lij|].
        apply nth_error_firstn_some. split; [lia|exact Hi].
      * intros i Hi. apply nth_error_firstn_some in Hi as [_ Hi].
        apply (in_order_before L' i j _ _ Srt Hi Hj Lt).
  - intros s. apply sort_keeps_ties.
Qed.

(** C7 (amended): [hybridSearch] returns at most [limit] results; with
    hybrid mode on, each score is [Math.min(base + K, 1)] as binary64
    computes it, where base is [1 - distance] and [K] is 0.2 added to 0
    once for every query word longer than 3 code units found in the
    lowercased text, a word standing twice in the query counted twice;
    and the results are in descending order of score. *)
Theorem hybrid_scoring_rule_amended query limit hybrid w rs w' :
  hybridSearch e query limit hybrid w = (Ok rs, w') ->
  (length rs <= limit)%nat /\
  (hybrid = true ->
   (forall r, In r rs ->
      score r =
      min (add (sub one (distance r))
               (added (kmatches e (keywords e query) r))) one) /\
   sorted_desc rs).
Proof.
  intros H.
  destruct (hybridSearch_gives query limit hybrid w rs w' H) as [cands [S ->]].
  split.
  - destruct hybrid; unfold reranked; apply firstn_le_length.
  - intros ->. split.
    + intros r I. apply reranked_in in I as [c [Ic ->]].
      rewrite boosted_score.
      rewrite (search_gives _ _ _ _ _ _ S c Ic). reflexivity.
    + unfold reranked. apply in_order_firstn, sort_in_order.
Qed.

End WithEnv.

End ScoringFacts.

(** ** The scores on sample searches *)

Module ScoringCases.

Import JsString Chunker Effects VectorDb Retriever Samples SamplesMore.
Import Binary64 Ieee Scoring ScoringSpec ScoringSamples.

Open Scope Z_scope.

(** *** The arithmetic *)

(** On the numbers of [grid], [add] and [sub] give what the reference
    operations of the Standard Library give. *)
Example add_sub_as_reference :
  forallb (fun xy => agrees (fst xy) (snd xy)) grid = true.
Proof. vm_compute. reflexivity. Qed.

(** They are numbers, and go over to the reference and back. *)
Example grid_numbers :
  forallb (fun x => round x =? x) (map fst grid ++ map snd grid) = true /\
  map (fun x => units (spec x)) (map fst grid ++ map snd grid) =
  map Some (map fst grid ++ map snd grid).
Proof. split; vm_compute; reflexivity. Qed.

Example literals :
  number (2 # 10) = fifth /\ number 1 = one /\
  number (1 # 2) = dbl 1 (-1) /\
  number (1 # 10) = dbl 7205759403792794 (-56).
Proof. repeat split; vm_compute; reflexivity. Qed.

(** 0.2 added up: the third sum is 0.6000000000000001, above the
    number 0.6, and the tenth is 1.9999999999999998. *)
Example sums_of_fifths :
  map added [1; 2; 3; 4; 5; 10]%nat =
  [number (2 # 10); number (4 # 10); dbl 5404319552844596 (-53);
   number (8 # 10); one; dbl 9007199254740991 (-52)] /\
  number (6 # 10) = dbl 5404319552844595 (-53).
Proof. split; vm_compute; reflexivity. Qed.

(** A chunk at distance 2 that holds all ten keywords scores
    0.9999999999999998, below the cap. *)
Example ten_boosts_below_the_cap :
  exists r,
    hybridSearch env_two ten_words 1 true (opened []) =
      (Ok [r], opened []) /\
    kmatches env_two (keywords env_two ten_words) r = 10%nat /\
    score r = dbl 9007199254740990 (-53) /\ score r < one.
Proof.
  eexists. split; [vm_compute; reflexivity|].
  repeat split; vm_compute; reflexivity.
Qed.

(** At the distance 0.2 one boost lifts the score to 1 exactly: the two
    candidates tie at the cap, and keep their order. *)
Example one_boost_reaches_the_cap :
  exists a b,
    search env_fifth two_words (2 * 2) None (opened []) =
      (Ok [b; a], opened []) /\
    add (score b) fifth = one /\
    hybridSearch env_fifth two_words 2 true (opened []) =
      (Ok [boost env_fifth (keywords env_fifth two_words) b;
           boost env_fifth (keywords env_fifth two_words) a],
       opened []) /\
    map score (boosted env_fifth two_words [b; a]) = [one; one].
Proof.
  eexists. eexists. split; [vm_compute; reflexivity|].
  repeat split; vm_compute; reflexivity.
Qed.

(** *** Counterexamples *)

(** C6 (counterexample): two candidates of base score 0.9; the query
    has two keywords, the first candidate holds one, the second both.
    Both boosted scores are capped at 1, the stable sort keeps the
    order, and the candidate with more keywords is ranked below. *)
Lemma hybrid_monotonicity_counterexample :
  exists a b,
    search env_tie two_words (2 * 2) None (opened []) =
      (Ok [b; a], opened []) /\
    Forall (fun c => 0 <= distance c) [b; a] /\
    score a = score b /\
    (kmatches env_tie (keywords env_tie two_words) b <
     kmatches env_tie (keywords env_tie two_words) a)%nat /\
    score (boost env_tie (keywords env_tie two_words) a) = one /\
    score (boost env_tie (keywords env_tie two_words) b) = one /\
    hybridSearch env_tie two_words 2 true (opened []) =
      (Ok [boost env_tie (keywords env_tie two_words) b;
           boost env_tie (keywords env_tie two_words) a],
       opened []).
Proof.
  exists (to_result (hit (str "alpha beta") (1 # 10))),
         (to_result (hit (str "alpha") (1 # 10))).
  split; [vm_compute; reflexivity|].
  split; [repeat constructor; vm_compute; discriminate|].
  repeat split; vm_compute; reflexivity.
Qed.

(** C7 (counterexample): the query repeats one word; the chunk holds
    it; base score 0.5.  The score is 0.9, two boosts, not the 0.7 of
    one distinct keyword.  And three distinct keywords on a base score
    of 0 give 0.6000000000000001, not 0.6. *)
Lemma hybrid_scoring_rule_counterexample :
  (exists r,
     hybridSearch env_half (str "alpha alpha") 5 true (opened []) =
       (Ok [r], opened []) /\
     distinct_kmatches env_half (keywords env_half (str "alpha alpha")) r
       = 1%nat /\
     score r = number (9 # 10) /\
     score r <> number (7 # 10) /\
     ~ (value (score r) ==
        ideal (1 - value (distance r))
          (distinct_kmatches env_half
             (keywords env_half (str "alpha alpha")) r))%Q) /\
  (exists r,
     hybridSearch env_three three_words 5 true (opened []) =
       (Ok [r], opened []) /\
     distinct_kmatches env_three (keywords env_three three_words) r
       = 3%nat /\
     score r = dbl 5404319552844596 (-53) /\
     score r <> number (6 # 10) /\
     ~ (value (score r) ==
        ideal (1 - value (distance r))
          (distinct_kmatches env_three
             (keywords env_three three_words) r))%Q).
Proof.
  split.
  - exists (boost env_half (keywords env_half (str "alpha alpha"))
                  (to_result (hit (str "alpha") (1 # 2)))).
    split; [vm_compute; reflexivity|].
    split; [vm_compute; reflexivity|].
    split; [vm_compute; reflexivity|].
    split; [vm_compute; discriminate|].
    vm_compute. discriminate.
  - exists (boost env_three (keywords env_three three_words)
                  (to_result (hit three_words 1))).
    split; [vm_compute; reflexivity|].
    split; [vm_compute; reflexivity|].
    split; [vm_compute; reflexivity|].
    split; [vm_compute; discriminate|].
    vm_compute. discriminate.
Qed.

(** *** The theorems at work *)

(** C6 (instance): two candidates of base score 0.5, the one that
    holds one keyword before the one that holds both.  Boosted they
    score 0.7 and 0.9, and change places. *)
Lemma hybrid_monotonicity_amended_witness :
  (search env_pair two_words (2 * 2) None (opened []) =
     (Ok pair_candidates, opened []) /\
   Forall (fun c => 0 <= distance c) pair_candidates) /\
  (exists a b,
     pair_candidates = [b; a] /\
     score a = score b /\
     (kmatches env_pair (keywords env_pair two_words) b <
      kmatches env_pair (keywords env_pair two_words) a)%nat /\
     score (boost env_pair (keywords env_pair two_words) b) = number (7 # 10) /\
     score (boost env_pair (keywords env_pair two_words) a) = number (9 # 10) /\
     (score (boost env_pair (keywords env_pair two_words) b) < one /\
      distance b <= dbl 1 32 /\
      Z.of_nat (kmatches env_pair (keywords env_pair two_words) a) <= 2 ^ 32) /\
     reranked env_pair two_words 2 pair_candidates =
       [boost env_pair (keywords env_pair two_words) a;
        boost env_pair (keywords env_pair two_words) b]) /\
  (hybridSearch env_pair two_words 2 false (opened []) =
     (Ok (firstn 2 pair_candidates), opened []) /\
   hybridSearch env_pair two_words 2 true (opened []) =
     (Ok (reranked env_pair two_words 2 pair_candidates), opened []) /\
   (forall c, In c pair_candidates ->
      score c <= score (boost env_pair (keywords env_pair two_words) c)) /\
   (forall a b, In a pair_candidates -> In b pair_candidates ->
      score a = score b ->
      (kmatches env_pair (keywords env_pair two_words) b <
       kmatches env_pair (keywords env_pair two_words) a)%nat ->
      score (boost env_pair (keywords env_pair two_words) b) <=
        score (boost env_pair (keywords env_pair two_words) a) /\
      (score (boost env_pair (keywords env_pair two_words) b) < one ->
       distance b <= dbl 1 32 ->
       Z.of_nat (kmatches env_pair (keywords env_pair two_words) a)
         <= 2 ^ 32 ->
       score (boost env_pair (keywords env_pair two_words) b) <
         score (boost env_pair (keywords env_pair two_words) a)) /\
      (score (boost env_pair (keywords env_pair two_words) b) <
         score (boost env_pair (keywords env_pair two_words) a) ->
       forall j,
         nth_error (reranked env_pair two_words 2 pair_candidates) j =
           Some (boost env_pair (keywords env_pair two_words) b) ->
         (exists i, (i < j)%nat /\
            nth_error (reranked env_pair two_words 2 pair_candidates) i =
              Some (boost env_pair (keywords env_pair two_words) a)) /\
         (forall i,
            nth_error (reranked env_pair two_words 2 pair_candidates) i =
              Some (boost env_pair (keywords env_pair two_words) a) ->
            (i < j)%nat))) /\
   (forall s,
      scored s (js_sort by_score_desc (boosted env_pair two_words
                                         pair_candidates)) =
      scored s (boosted env_pair two_words pair_candidates))).
Proof.
  assert (S : search env_pair two_words (2 * 2) None (opened []) =
              (Ok pair_candidates, opened []))
    by (vm_compute; reflexivity).
  assert (NN : Forall (fun c => 0 <= distance c) pair_candidates)
    by (repeat constructor; vm_compute; discriminate).
  split; [split; [exact S|exact NN]|].
  split.
  - exists (to_result (hit (str "alpha beta") (1 # 2))),
           (to_result (hit (str "alpha") (1 # 2))).
    split; [reflexivity|]. split; [vm_compute; reflexivity|].
    split; [vm_compute; lia|].
    split; [vm_compute; reflexivity|]. split; [vm_compute; reflexivity|].
    split; [repeat split; vm_compute; try reflexivity; discriminate|].
    vm_compute. reflexivity.
  - exact (ScoringFacts.hybrid_monotonicity_amended
             env_pair two_words 2%nat (opened []) pair_candidates (opened [])
             S NN).
Defined.

(** C7 (instance): the same search; the two scores are 0.5 + 0.4 and
    0.5 + 0.2, in that order. *)
Lemma hybrid_scoring_rule_amended_witness :
  hybridSearch env_pair two_words 2 true (opened []) =
    (Ok (reranked env_pair two_words 2 pair_candidates), opened []) /\
  (map score (reranked env_pair two_words 2 pair_candidates) =
     [number (9 # 10); number (7 # 10)] /\
   map (kmatches env_pair (keywords env_pair two_words))
       (reranked env_pair two_words 2 pair_candidates) = [2; 1]%nat) /\
  (length (reranked env_pair two_words 2 pair_candidates) <= 2)%nat /\
  (true = true ->
   (forall r, In r (reranked env_pair two_words 2 pair_candidates) ->
      score r =
      min (add (sub one (distance r))
               (added (kmatches env_pair (keywords env_pair two_words) r)))
          one) /\
   sorted_desc (reranked env_pair two_words 2 pair_candidates)).
Proof.
  assert (H : hybridSearch env_pair two_words 2 true (opened []) =
              (Ok (reranked env_pair two_words 2 pair_candidates),
               opened []))
    by (vm_compute; reflexivity).
  split; [exact H|].
  split; [split; vm_compute; reflexivity|].
  exact (ScoringFacts.hybrid_scoring_rule_amended
           env_pair two_words 2%nat true (opened [])
           (reranked env_pair two_words 2 pair_candidates) (opened []) H).
Defined.

End ScoringCases.
